(** * EIE_Portfolio: the economic-indicator and asset-event ETL of [src/src/main.py]

    A shallow embedding of the ingestion and reconciliation code, and the
    properties the specification states about it.

    Conventions of the embedding.
    - A [datetime.date] of the indicator tables is its proleptic ordinal
      ([date.toordinal()], a [Z]): the code only compares such dates and
      subtracts a [timedelta].
    - A database table is the list of its rows; a statement executed through
      the cursor is a function from table to table.
    - A Python [dict] used as a map is a [gmap]; a [set] is a [gset]; a dict
      whose iteration order is observable is an association list. *)

From Stdlib Require Import ZArith QArith Lia Ascii String DecimalString.
From stdpp Require Import base option list gmap strings sorting.

Open Scope Z_scope.

(* ===================================================================== *)
(** * Definitions *)
(* ===================================================================== *)

(** ** Gap filler: [forward_backward_fill_indicator] (main.py 17-40) *)

Module GapFill.
Section Fill.
Variable V : Type.

(** The two columns the function selects: the date of a row and the cell of
    the column being filled ([None] is SQL NULL). *)
Record row := mkRow { row_date : Z; row_value : option V }.

Definition table := list row.

(** [ORDER BY date]: a stable insertion sort on the date. *)
Fixpoint insert_by_date (r : row) (l : list row) : list row :=
  match l with
  | [] => [r]
  | x :: l' => if row_date r <=? row_date x then r :: l
               else x :: insert_by_date r l'
  end.

Definition order_by_date (t : table) : list row := foldr insert_by_date [] t.

(** [next((r[1] for r in records if r[1] is not None), None)] *)
Fixpoint first_valid_value (records : list row) : option V :=
  match records with
  | [] => None
  | r :: rs => match row_value r with
               | Some v => Some v
               | None => first_valid_value rs
               end
  end.

(** The loop of lines 30-36: [last_known_value] is threaded through the
    records, and every NULL cell queues [(last_known_value, date)]. *)
Fixpoint collect_updates (last_known_value : V) (records : list row)
  : list (V * Z) :=
  match records with
  | [] => []
  | r :: rs =>
      match row_value r with
      | Some v => collect_updates v rs
      | None => (last_known_value, row_date r)
                  :: collect_updates last_known_value rs
      end
  end.

Definition is_null (o : option V) : bool :=
  match o with None => true | Some _ => false end.

(** [UPDATE t SET col = %s WHERE date = %s AND col IS NULL] *)
Definition update_null_at (t : table) (u : V * Z) : table :=
  map (fun r => if (row_date r =? snd u) && is_null (row_value r)
                then mkRow (row_date r) (Some (fst u)) else r) t.

Definition executemany (t : table) (updates : list (V * Z)) : table :=
  fold_left update_null_at updates t.

Definition forward_backward_fill_indicator (t : table) : table :=
  let records := order_by_date t in
  match records with
  | [] => t
  | _ :: _ =>
      match first_valid_value records with
      | None => t
      | Some first_valid =>
          match collect_updates first_valid records with
          | [] => t
          | updates => executemany t updates
          end
      end
  end.

(** Vocabulary of the statements: the cell stored at a date, and the last
    non-NULL value of a prefix of the ordered records. *)
Fixpoint cell (t : table) (d : Z) : option (option V) :=
  match t with
  | [] => None
  | r :: t' => if row_date r =? d then Some (row_value r) else cell t' d
  end.

Fixpoint last_valid_value (records : list row) : option V :=
  match records with
  | [] => None
  | r :: rs => match last_valid_value rs with
               | Some v => Some v
               | None => row_value r
               end
  end.

(** What the queued updates do to one row: the first update for its date
    wins, and only when the cell is NULL. *)
Definition filled_row (updates : list (V * Z)) (r : row) : row :=
  match row_value r with
  | Some _ => r
  | None =>
      match List.find (fun u => row_date r =? snd u) updates with
      | Some u => mkRow (row_date r) (Some (fst u))
      | None => r
      end
  end.

End Fill.

Arguments mkRow {V} _ _.
Arguments row_date {V} _.
Arguments row_value {V} _.
Arguments order_by_date {V} _.
Arguments first_valid_value {V} _.
Arguments last_valid_value {V} _.
Arguments collect_updates {V} _ _.
Arguments update_null_at {V} _ _.
Arguments executemany {V} _ _.
Arguments forward_backward_fill_indicator {V} _.
Arguments cell {V} _ _.
Arguments filled_row {V} _ _.
Arguments insert_by_date {V} _ _.
Arguments is_null {V} _.

End GapFill.

(** ** Value normalizer: [compute_split_ratio_str] (main.py 64-77) *)

Module Split.

(** A [decimal.Decimal]: sign, coefficient and exponent, or a special value.
    [Finite s c e] is (-1)^s * c * 10^e. *)
Inductive decimal :=
| Finite (negative : bool) (coefficient : N) (exponent : Z)
| Infinity (negative : bool)
| NaN.

(** The argument, by what lines 66 and 69 make of it: [None], the empty
    string, a value whose [str] the [Decimal] constructor rejects
    (InvalidOperation), or one it reads as a decimal. *)
Inductive py_factor :=
| PyNone
| PyEmpty
| PyUnparseable (text : string)
| PyNumber (d : decimal).

(** The default context of the [decimal] module: 28 significant digits,
    ROUND_HALF_EVEN, InvalidOperation, DivisionByZero and Overflow trapped. *)
Definition prec : Z := 28.

(** The magnitude c * 10^e as a fraction of integers. *)
Definition numerator (c : N) (e : Z) : Z := Z.of_N c * 10 ^ Z.max e 0.
Definition denominator (e : Z) : Z := 10 ^ Z.max (- e) 0.

(** ROUND_HALF_EVEN of a / b to an integer, for 0 <= a and 0 < b. *)
Definition round_half_even (a b : Z) : Z :=
  let q := a / b in
  match 2 * (a mod b) ?= b with
  | Lt => q
  | Gt => q + 1
  | Eq => if Z.even q then q else q + 1
  end.

(** [x.quantize(Decimal(1))] of the magnitude a / b: the rounded integer, or
    InvalidOperation ([None]) when it has more than [prec] digits. *)
Definition quantize_unit (a b : Z) : option Z :=
  let n := round_half_even a b in
  if n <? 10 ^ prec then Some n else None.

Definition digits (c : N) : Z := Z.of_nat (Decimal.nb_digits (N.to_uint c)).

(** [Decimal(1) / f] for the magnitude c * 10^e, c > 0: the quotient rounded
    to [prec] significant digits, as a coefficient and an exponent. *)
Definition reciprocal (c : N) (e : Z) : Z * Z :=
  let d := digits c in
  (round_half_even (10 ^ (d + prec - 1)) (Z.of_N c), - e - d - prec + 1).

(** [f == 1] and [f > 1] on a finite decimal. *)
Definition eq_one (negative : bool) (c : N) (e : Z) : bool :=
  negb negative && (numerator c e =? denominator e).

Definition gt_one (negative : bool) (c : N) (e : Z) : bool :=
  negb negative && (denominator e <? numerator c e).

(** [int(...)] of a rounded magnitude with its sign; [int(Decimal('-0'))] is 0. *)
Definition signed (negative : bool) (n : Z) : Z := if negative then - n else n.

(** [f"{n}"] for an [int]. *)
Definition str (n : Z) : string := NilZero.string_of_int (Z.to_int n).

Definition compute_split_ratio_str (factor : py_factor) : option string :=
  match factor with
  | PyNone | PyEmpty => None
  | PyUnparseable _ => None
  | PyNumber NaN => None                 (* [f > 1] signals InvalidOperation *)
  | PyNumber (Infinity false) => None    (* [quantize] of an infinity *)
  | PyNumber (Infinity true) => Some ("Reverse " +:+ str 0 +:+ "-for-1")
  | PyNumber (Finite s c e) =>
      if eq_one s c e then None
      else if gt_one s c e then
        match quantize_unit (numerator c e) (denominator e) with
        | Some n => Some (str n +:+ "-for-1")
        | None => None
        end
      else if (c =? 0)%N then None       (* DivisionByZero *)
      else
        let '(q, t) := reciprocal c e in
        match quantize_unit (q * 10 ^ Z.max t 0) (10 ^ Z.max (- t) 0) with
        | Some n => Some ("Reverse " +:+ str (signed s n) +:+ "-for-1")
        | None => None
        end
  end.

(** Vocabulary of the statements: [n] is an integer nearest to a / b. *)
Definition nearest (a b n : Z) : Prop := 2 * Z.abs (n * b - a) <= b.

End Split.

(** ** Python outcomes shared by the pipelines *)

(** The exceptions the modelled code can meet, and the outcome of a call. *)
Inductive exn :=
| TypeError | ValueError | KeyError | OverflowError
| RequestError (message : string).

Inductive outcome (A : Type) :=
| Return (a : A)
| Raise (e : exn).

Arguments Return {A} _.
Arguments Raise {A} _.

(** [needle in hay] on strings. *)
Fixpoint contains (needle hay : string) : bool :=
  String.prefix needle hay ||
  match hay with
  | EmptyString => false
  | String _ hay' => contains needle hay'
  end.

(** ** Indicator ingestion: [process_economic_indicators] (main.py 97-278) *)

Module Indicators.

Inductive interval :=
| daily | weekly | monthly | quarterly | semiannual | annual.

#[global] Instance interval_eq_dec : EqDecision interval.
Proof. solve_decision. Defined.

#[global] Instance interval_countable : Countable interval.
Proof.
  refine (inj_countable'
    (fun i => match i with daily => 0 | weekly => 1 | monthly => 2
              | quarterly => 3 | semiannual => 4 | annual => 5 end)%nat
    (fun n => match n with 0 => daily | 1 => weekly | 2 => monthly
              | 3 => quarterly | 4 => semiannual | _ => annual end)%nat _).
  by intros [].
Defined.

Definition prefix_map (list_ : interval) : string :=
  match list_ with
  | daily => "D" | weekly => "W" | monthly => "M"
  | quarterly => "Q" | semiannual => "SA" | annual => "A"
  end.

(** The functions of [queries.py]. *)
Inductive api_function :=
| REAL_GDP | REAL_GDP_PC | TREASURY_YIELD | FEDERAL_FUNDS_RATE | CPI
| INFLATION | RETAIL_SALES | DURABLES | UNEMPLOYMENT | NONFARM_PAYROLL.

(** [indicator_map]: the column suffix, the function, and whether the entry
    is the function itself (called with the interval) or a [lambda] without
    argument wrapped around it. *)
Definition indicator_map (indicator : string)
  : option (string * api_function * bool) :=
  if decide (indicator = "real_GDP_interval_list")
  then Some ("RGDPBUSD_value", REAL_GDP, true)
  else if decide (indicator = "real_GDP_pc_interval_list")
  then Some ("RGDPCBUSD_value", REAL_GDP_PC, false)
  else if decide (indicator = "Treasury_yield_interval_list")
  then Some ("TCMRP_value", TREASURY_YIELD, true)
  else if decide (indicator = "Federal_funds_interval_list")
  then Some ("EFFRP_value", FEDERAL_FUNDS_RATE, true)
  else if decide (indicator = "CPI_interval_list")
  then Some ("CPIAUC_value", CPI, true)
  else if decide (indicator = "inflation_interval_list")
  then Some ("ICPP_value", INFLATION, false)
  else if decide (indicator = "retail_sales_interval_list")
  then Some ("ARSRTMUSD_value", RETAIL_SALES, false)
  else if decide (indicator = "durables_interval_list")
  then Some ("MNODGMUSD_value", DURABLES, false)
  else if decide (indicator = "unemployment_interval_list")
  then Some ("URP_value", UNEMPLOYMENT, false)
  else if decide (indicator = "nonfarm_payrolls_interval_list")
  then Some ("TNPTP_value", NONFARM_PAYROLL, false)
  else None.

(** A Python [float]: m * 2^e, or a special value. *)
Inductive pyfloat :=
| Fin (m e : Z)
| Inf (negative : bool)
| Nan.

(** A stored numeric cell. *)
Inductive num :=
| NFloat (x : pyfloat)
| NInt (n : Z).

(** One element of the upstream list: [strptime(entry['date'])] as an ordinal
    ([None]: the date does not parse, ValueError), [entry['value']], and what
    [float] makes of it ([None]: ValueError or TypeError). *)
Record entry := mkEntry {
  entry_date : option Z;
  entry_value : string;
  entry_float : option pyfloat
}.

(** The shapes of a response that lines 167-175 tell apart. *)
Inductive payload :=
| DictWithData (data : list entry)
| DictWithoutData (keys : list string)
| ListOf (data : list entry).

(** What a request answers: the function and the interval it was called
    with, [None] for the functions without argument. *)
Definition upstream := api_function -> option interval -> outcome payload.

(** One row of an interval table. *)
Record row := mkRow {
  row_PK : Z;
  row_ID : Z;
  row_country_PK : Z;
  row_date : Z;
  row_cells : gmap string num
}.

(** Keys of [already_reported]: [(indicator, list_)] and
    [(indicator, list_, str(prev_date))]. *)
Inductive report_key :=
| NoValues (indicator : string) (list_ : interval)
| Available (indicator : string) (list_ : interval) (prev_date : Z).

#[global] Instance report_key_eq_dec : EqDecision report_key.
Proof. solve_decision. Defined.

(** A statement that writes, as sent through the cursor: the UPDATE of line
    251 with [(value, pk, column)], and the COPY of line 261 with its rows
    [(id, 237, date, value)]. *)
Inductive statement :=
| UPDATE (list_ : interval) (u : num * Z * string)
| COPY (list_ : interval) (column_name : string)
       (rows : list (Z * Z * Z * num)).

(** The store and the accumulators of a run. [statements] records the
    writes in the order they are executed. A warning message is kept as the
    value and the column it is formatted from; an availability notice as the
    indicator, the interval and the date. [no_values_by_interval], which is
    only printed, is left out. *)
Record state := mkState {
  db : gmap interval (list row);
  statements : list statement;
  already_reported : list report_key;
  shown_warnings : list (string * string);
  indicators_already_available : list (string * interval * Z);
  total_indicators_inserted : Z
}.

Definition table (s : state) (list_ : interval) : list row := db s !!! list_.

(** [datetime.strptime('2000-01-01', '%Y-%m-%d').date()] as an ordinal. *)
Definition default_prev_date : Z := 730120.

Definition has_value (column_name : string) (r : row) : bool :=
  bool_decide (is_Some (row_cells r !! column_name)).

Definition max_list (l : list Z) : option Z :=
  match l with
  | [] => None
  | x :: l' => Some (fold_left Z.max l' x)
  end.

(** [SELECT MAX(date) ... WHERE column IS NOT NULL] *)
Definition max_date (column_name : string) (t : list row) : option Z :=
  max_list (map row_date (List.filter (has_value column_name) t)).

Definition prev_date_of (column_name : string) (t : list row) : Z :=
  default (default_prev_date) (max_date column_name t).

(** [SELECT MAX(ID) ...] or 0 *)
Definition max_id (t : list row) : Z := default 0 (max_list (map row_ID t)).

(** A Python call: an argument too many or too few is a TypeError. *)
Definition call (up : upstream) (f : api_function) (direct : bool)
    (arg : option interval) : outcome payload :=
  match direct, arg with
  | true, Some i => up f (Some i)
  | false, None => up f None
  | _, _ => Raise TypeError
  end.

(** Lines 161-164. *)
Definition fetch (up : upstream) (indicator : string) (f : api_function)
    (direct : bool) (list_ : interval) : outcome payload :=
  let first :=
    if contains "real_GDP" indicator || contains "Treasury" indicator
       || contains "Federal" indicator || contains "CPI" indicator
    then call up f direct (Some list_)
    else call up f direct None in
  match first with
  | Raise TypeError => call up f direct None
  | r => r
  end.

(** Lines 167-175: iterating a dict without ["data"] yields its keys, and
    [entry['date']] on a key is a TypeError. *)
Definition data_list (data : payload) : outcome (list entry) :=
  match data with
  | DictWithData l => Return l
  | DictWithoutData [] => Return []
  | DictWithoutData (_ :: _) => Raise TypeError
  | ListOf l => Return l
  end.

(** Line 178, before the reversal. *)
Fixpoint filter_new (prev_date : Z) (l : list entry) : outcome (list entry) :=
  match l with
  | [] => Return []
  | e :: l' =>
      match entry_date e with
      | None => Raise ValueError
      | Some d =>
          match filter_new prev_date l' with
          | Raise x => Raise x
          | Return r => Return (if prev_date <? d then e :: r else r)
          end
      end
  end.

(** Line 206. *)
Definition integer_column (column_name : string) : bool :=
  bool_decide (column_name ∈ ["MTNPTP_value"; "TNPTP_value"; "DTCMRP_value"])
  || contains "TNPTP_value" column_name
  || contains "DTCMRP_value" column_name.

(** [int(x)] of a float: truncation; ValueError on nan, OverflowError on an
    infinity. *)
Definition int_of_float (x : pyfloat) : outcome Z :=
  match x with
  | Fin m e => Return (if 0 <=? e then m * 2 ^ e else Z.quot m (2 ^ (- e)))
  | Inf _ => Raise OverflowError
  | Nan => Raise ValueError
  end.

(** [date_data[date][column_name] = value] on a dict that keeps insertion
    order; the inner dict only ever holds [column_name]. *)
Fixpoint dict_set (date : Z) (value : num) (date_data : list (Z * num))
  : list (Z * num) :=
  match date_data with
  | [] => [(date, value)]
  | (d, v) :: rest =>
      if d =? date then (d, value) :: rest
      else (d, v) :: dict_set date value rest
  end.

(** What one entry does in the loop of lines 191-225. *)
Inductive entry_step :=
| Skip                         (* [continue] *)
| Warn                         (* warning, then [continue] *)
| Store (date : Z) (value : num)
| Fail (e : exn).

Definition step_entry (column_name : string) (prev_date : Z) (e : entry)
  : entry_step :=
  match entry_date e with
  | None => Fail ValueError
  | Some d0 =>
      let shifted := bool_decide (column_name = "WEFFRP_value") in
      let date := if shifted then d0 - 5 else d0 in
      if shifted && (date =? prev_date) then Skip
      else if bool_decide (entry_value e ∈ ["."; ""]) then Skip
      else
        match entry_float e with
        | None => Warn
        | Some x =>
            if integer_column column_name then
              match int_of_float x with
              | Return n => Store date (NInt n)
              | Raise ValueError | Raise TypeError => Warn
              | Raise err => Fail err
              end
            else Store date (NFloat x)
        end
  end.

Definition add_warning (w : string * string) (ws : list (string * string))
  : list (string * string) :=
  if bool_decide (w ∈ ws) then ws else ws ++ [w].

(** The loop of lines 190-225: the date-keyed values and the warnings, or the
    exception that leaves the loop. *)
Fixpoint build_date_data (column_name : string) (prev_date : Z)
    (new_data : list entry) (date_data : list (Z * num))
    (warnings : list (string * string))
  : list (string * string) * outcome (list (Z * num)) :=
  match new_data with
  | [] => (warnings, Return date_data)
  | e :: rest =>
      match step_entry column_name prev_date e with
      | Skip => build_date_data column_name prev_date rest date_data warnings
      | Warn => build_date_data column_name prev_date rest date_data
                  (add_warning (entry_value e, column_name) warnings)
      | Store date value =>
          build_date_data column_name prev_date rest
            (dict_set date value date_data) warnings
      | Fail err => (warnings, Raise err)
      end
  end.

(** [dict(cursor.fetchall())] of the rows whose date is in [dates_list]: a
    later row of the same date overwrites an earlier one. *)
Fixpoint existing_dates (t : list row) (dates_list : list Z) (date : Z)
  : option Z :=
  match t with
  | [] => None
  | r :: t' =>
      match existing_dates t' dates_list date with
      | Some pk => Some pk
      | None =>
          if (row_date r =? date) && bool_decide (row_date r ∈ dates_list)
          then Some (row_PK r) else None
      end
  end.

(** Lines 237-247: [updates] are [(value, pk, column)], [inserts] are
    [(id, 237, date, value)]. *)
Fixpoint split_plan (column_name : string) (existing : Z -> option Z)
    (id_ : Z) (items : list (Z * num))
  : list (num * Z * string) * list (Z * Z * Z * num) :=
  match items with
  | [] => ([], [])
  | (date, value) :: rest =>
      let id_ := id_ + 1 in
      let '(updates, inserts) := split_plan column_name existing id_ rest in
      match existing date with
      | Some pk => ((value, pk, column_name) :: updates, inserts)
      | None => (updates, (id_, 237, date, value) :: inserts)
      end
  end.

(** [UPDATE ... SET column = value WHERE PK = pk] *)
Definition update_row (u : num * Z * string) (r : row) : row :=
  if row_PK r =? snd (fst u)
  then mkRow (row_PK r) (row_ID r) (row_country_PK r) (row_date r)
         (<[snd u := fst (fst u)]> (row_cells r))
  else r.

Definition execute_update (t : list row) (u : num * Z * string) : list row :=
  map (update_row u) t.

(** All the updates of a plan on one row. *)
Definition updated (updates : list (num * Z * string)) (r : row) : row :=
  fold_left (fun r u => update_row u r) updates r.

(** Modelled from the spec: the schema of the series tables is not part of
    the repository (the persistent store is an external collaborator), and
    the [COPY] of lines 261-264 names no PK column, so the key of a copied
    row is the default of that column. The model takes the key above the
    stored ones; no statement about the ingestion depends on which key it
    is. *)
Definition next_pk (t : list row) : Z :=
  1 + default 0 (max_list (map row_PK t)).

(** [COPY ... (ID, country_PK, date, column) FROM STDIN] *)
Definition copy_row (column_name : string) (t : list row)
    (i : Z * Z * Z * num) : list row :=
  let '(id_, country, date, value) := i in
  t ++ [mkRow (next_pk t) id_ country date {[ column_name := value ]}].

Definition copy_expert (column_name : string) (t : list row)
    (inserts : list (Z * Z * Z * num)) : list row :=
  fold_left (copy_row column_name) inserts t.

(** Lines 230-247: the updates and the inserts for [date_data]. *)
Definition plan (column_name : string) (t : list row)
    (date_data : list (Z * num))
  : list (num * Z * string) * list (Z * Z * Z * num) :=
  split_plan column_name (existing_dates t (map fst date_data)) (max_id t)
    date_data.

(** Lines 250-265 on the table of the interval. *)
Definition load (column_name : string) (t : list row)
    (p : list (num * Z * string) * list (Z * Z * Z * num)) : list row :=
  copy_expert column_name (fold_left execute_update (fst p) t) (snd p).

Definition written (list_ : interval) (column_name : string)
    (p : list (num * Z * string) * list (Z * Z * Z * num))
  : list statement :=
  map (UPDATE list_) (fst p) ++
  match snd p with
  | [] => []
  | inserts => [COPY list_ column_name inserts]
  end.

(** Lines 160-225 for one indicator and interval: what is fetched and kept. *)
Inductive extraction :=
| Failed (err : exn)
| NoNewData
| Extracted (warnings : list (string * string))
            (date_data : outcome (list (Z * num))).

Definition extract (up : upstream) (indicator : string)
    (data_func : api_function) (direct : bool) (list_ : interval)
    (column_name : string) (prev_date : Z)
    (warnings : list (string * string)) : extraction :=
  match fetch up indicator data_func direct list_ with
  | Raise err => Failed err
  | Return data =>
      match data_list data with
      | Raise err => Failed err
      | Return l =>
          match filter_new prev_date l with
          | Raise err => Failed err
          | Return kept =>
              match rev kept with
              | [] => NoNewData
              | new_data =>
                  let '(ws, r) :=
                    build_date_data column_name prev_date new_data []
                      warnings in
                  Extracted ws r
              end
          end
      end
  end.

(** The body of the inner loop (lines 130-267) for one item and one
    interval: the state it leaves, and the exception it ends with, if any. *)
Definition process_item (up : upstream) (list_ : interval)
    (item : string * list interval) (s : state) : state * option exn :=
  let '(indicator, interval_) := item in
  if negb (bool_decide (list_ ∈ interval_)) then
    let key := NoValues indicator list_ in
    if bool_decide (key ∈ already_reported s) then (s, None)
    else (mkState (db s) (statements s) (already_reported s ++ [key])
            (shown_warnings s) (indicators_already_available s)
            (total_indicators_inserted s),
          None)
  else
    match indicator_map indicator with
    | None => (s, None)
    | Some (column_suffix, data_func, direct) =>
        let column_name := prefix_map list_ +:+ column_suffix in
        let prev_date := prev_date_of column_name (table s list_) in
        match extract up indicator data_func direct list_ column_name
                prev_date (shown_warnings s) with
        | Failed err => (s, Some err)
        | NoNewData =>
            let key := Available indicator list_ prev_date in
            if bool_decide (key ∈ already_reported s) then (s, None)
            else (mkState (db s) (statements s) (already_reported s ++ [key])
                    (shown_warnings s)
                    (indicators_already_available s
                       ++ [(indicator, list_, prev_date)])
                    (total_indicators_inserted s),
                  None)
        | Extracted warnings (Raise err) =>
            (mkState (db s) (statements s) (already_reported s) warnings
               (indicators_already_available s) (total_indicators_inserted s),
             Some err)
        | Extracted warnings (Return []) =>
            (mkState (db s) (statements s) (already_reported s) warnings
               (indicators_already_available s) (total_indicators_inserted s),
             None)
        | Extracted warnings (Return date_data) =>
            let p := plan column_name (table s list_) date_data in
            (mkState (<[list_ := load column_name (table s list_) p]> (db s))
               (statements s ++ written list_ column_name p)
               (already_reported s) warnings
               (indicators_already_available s)
               (total_indicators_inserted s + Z.of_nat (length (snd p))),
             None)
        end
    end.

(** The two loops of lines 126-267; an exception leaves both. *)
Fixpoint process_items (up : upstream) (list_ : interval)
    (items : list (string * list interval)) (s : state)
  : state * option exn :=
  match items with
  | [] => (s, None)
  | item :: rest =>
      match process_item up list_ item s with
      | (s', None) => process_items up list_ rest s'
      | (s', Some err) => (s', Some err)
      end
  end.

Fixpoint process_intervals (up : upstream) (interval_list : list interval)
    (items : list (string * list interval)) (s : state)
  : state * option exn :=
  match interval_list with
  | [] => (s, None)
  | list_ :: rest =>
      match process_items up list_ items s with
      | (s', None) => process_intervals up rest items s'
      | (s', Some err) => (s', Some err)
      end
  end.

(** [process_economic_indicators(cursor, interval_list, items,
    shown_warnings, already_reported)] on a store: the state it leaves (the
    store and the statements executed), and what it returns or raises. *)
Definition process_economic_indicators (up : upstream)
    (store : gmap interval (list row)) (interval_list : list interval)
    (items : list (string * list interval))
    (shown_warnings : list (string * string))
    (already_reported : list report_key)
  : state * outcome (list (string * interval * Z) * Z) :=
  match process_intervals up interval_list items
          (mkState store [] already_reported shown_warnings [] 0) with
  | (s, None) =>
      (s, Return (indicators_already_available s,
                  total_indicators_inserted s))
  | (s, Some err) => (s, Raise err)
  end.

(** Vocabulary of the statements. A series is settled at a watermark when
    no entry dated after it would be stored; a weekly series is regular at a
    watermark when its entries are at least five days apart and none is
    dated less than five days after the watermark. *)
Definition settled (column_name : string) (prev_date : Z) (l : list entry)
  : Prop :=
  forall e d, e ∈ l -> entry_date e = Some d -> prev_date < d ->
    step_entry column_name prev_date e = Skip \/
    step_entry column_name prev_date e = Warn.

Definition regular (prev_date : Z) (l : list entry) : Prop :=
  (forall e d, e ∈ l -> entry_date e = Some d -> prev_date < d ->
     prev_date + 5 <= d) /\
  (forall e1 e2 d1 d2, e1 ∈ l -> e2 ∈ l ->
     entry_date e1 = Some d1 -> entry_date e2 = Some d2 ->
     d1 < d2 -> d1 + 5 <= d2).

(** An item has nothing left to store in the table of an interval: the
    interval is not one of its own, or it is not mapped, or its series is
    fetched and read without error and is settled at the watermark of its
    column. *)
Definition pair_settled (up : upstream) (store : gmap interval (list row))
    (list_ : interval) (item : string * list interval) : Prop :=
  list_ ∉ snd item \/
  match indicator_map (fst item) with
  | None => True
  | Some (suffix, f, direct) =>
      exists data l,
        fetch up (fst item) f direct list_ = Return data /\
        data_list data = Return l /\
        Forall (fun e => is_Some (entry_date e)) l /\
        settled (prefix_map list_ +:+ suffix)
          (prev_date_of (prefix_map list_ +:+ suffix) (store !!! list_)) l
  end.

(** The weekly federal funds rate series is regular, or settled, at the
    watermark of its column. *)
Definition weekly_rate_ok (up : upstream) (store : gmap interval (list row))
  : Prop :=
  forall data l,
    up FEDERAL_FUNDS_RATE (Some weekly) = Return data ->
    data_list data = Return l ->
    regular (prev_date_of "WEFFRP_value" (store !!! weekly)) l \/
    settled "WEFFRP_value" (prev_date_of "WEFFRP_value" (store !!! weekly)) l.

(** Every table has a primary key. *)
Definition keyed (store : gmap interval (list row)) : Prop :=
  forall list_, NoDup (map row_PK (store !!! list_)).

(** Where a date the pair stores lies with respect to the watermark
    [prev_date] it was read against. *)
Definition beyond (column_name : string) (prev_date date : Z) : Prop :=
  if bool_decide (column_name = "WEFFRP_value")
  then prev_date - 5 < date /\ date <> prev_date
  else prev_date < date.

(** The configuration of [resolve_EIE] (lines 819-831). *)
Definition interval_list : list interval :=
  [daily; weekly; monthly; semiannual; quarterly; annual].

Definition interval_dict : list (string * list interval) :=
  [("real_GDP_interval_list", [quarterly; annual]);
   ("real_GDP_pc_interval_list", [quarterly]);
   ("Federal_funds_interval_list", [daily; weekly; monthly]);
   ("Treasury_yield_interval_list", [daily; weekly; monthly]);
   ("CPI_interval_list", [monthly; semiannual]);
   ("inflation_interval_list", [annual]);
   ("retail_sales_interval_list", [monthly]);
   ("durables_interval_list", [monthly]);
   ("unemployment_interval_list", [monthly]);
   ("nonfarm_payrolls_interval_list", [monthly])].

(** Step 1 of [resolve_EIE] (lines 836-842): an exception of the indicator
    stage is caught there, and the stage counts for nothing. *)
Definition resolve_step1 (up : upstream) (store : gmap interval (list row))
  : state * (list (string * interval * Z) * Z) :=
  match process_economic_indicators up store interval_list interval_dict
          [] [] with
  | (s, Return r) => (s, r)
  | (s, Raise _) => (s, ([], 0))
  end.

(** The number of rows of the six interval tables. *)
Definition row_count (store : gmap interval (list row)) : Z :=
  Z.of_nat (length (store !!! daily)) + Z.of_nat (length (store !!! weekly))
  + Z.of_nat (length (store !!! monthly))
  + Z.of_nat (length (store !!! quarterly))
  + Z.of_nat (length (store !!! semiannual))
  + Z.of_nat (length (store !!! annual)).

(** A row stays: same keys and date, and no cell that held a value lost. *)
Definition kept (r r' : row) : Prop :=
  row_PK r' = row_PK r /\ row_ID r' = row_ID r /\
  row_country_PK r' = row_country_PK r /\ row_date r' = row_date r /\
  forall c, has_value c r = true -> has_value c r' = true.

(** The notices of a run: none is repeated, and each has its key among the
    reported ones. *)
Definition notices_once (s : state) : Prop :=
  NoDup (indicators_already_available s) /\
  forall indicator list_ prev_date,
    (indicator, list_, prev_date) ∈ indicators_already_available s ->
    Available indicator list_ prev_date ∈ already_reported s.

End Indicators.

(** ** Asset events: [batch_insert_events] and [process_events]
       (main.py 285-744) *)

Module Events.

(** A [datetime.date]. *)
Record date := mkDate { year : Z; month : Z; day : Z }.

#[global] Instance date_eq_dec : EqDecision date.
Proof. solve_decision. Defined.

#[global] Instance date_countable : Countable date.
Proof.
  refine (inj_countable' (fun d => (year d, month d, day d))
            (fun t => mkDate (fst (fst t)) (snd (fst t)) (snd t)) _).
  by intros [].
Defined.

(** [d.strftime('%Y-%m-%d')]: the year as glibc prints it (no padding, four
    digits from 1000 on), month and day on two digits. *)
Definition two_digits (n : Z) : string :=
  if n <? 10 then "0" +:+ Split.str n else Split.str n.

Definition strftime (d : date) : string :=
  Split.str (year d) +:+ "-" +:+ two_digits (month d) +:+ "-"
    +:+ two_digits (day d).

(** [f"Q{((d.month-1)//3)+1}"] *)
Definition quarter_of (d : date) : string :=
  "Q" +:+ Split.str ((month d - 1) / 3 + 1).

(** The order of [date] objects. *)
Definition date_compare (a b : date) : comparison :=
  match year a ?= year b with
  | Eq => match month a ?= month b with
          | Eq => day a ?= day b
          | c => c
          end
  | c => c
  end.

(** A value of a detail payload: [None], a bool, an int or a str. *)
Inductive jval :=
| JNull
| JBool (b : bool)
| JInt (n : Z)
| JStr (s : string).

#[global] Instance jval_eq_dec : EqDecision jval.
Proof. solve_decision. Defined.

(** Truth value, [str(v)], and [dict.get]. *)
Definition truthy (v : jval) : bool :=
  match v with
  | JNull => false
  | JBool b => b
  | JInt n => negb (n =? 0)
  | JStr s => negb (bool_decide (s = ""))
  end.

Definition py_str (v : jval) : string :=
  match v with
  | JNull => "None"
  | JBool true => "True"
  | JBool false => "False"
  | JInt n => Split.str n
  | JStr s => s
  end.

Definition get (d : gmap string jval) (k : string) : jval :=
  default JNull (d !! k).

(** [a or b] *)
Definition py_or (a b : jval) : jval := if truthy a then a else b.

(** [y.isdigit()] and [int(y)] on a str of ASCII digits. *)
Definition digit_value (c : ascii) : option Z :=
  let n := Z.of_N (N_of_ascii c) in
  if (48 <=? n) && (n <=? 57) then Some (n - 48) else None.

Fixpoint digits_value (acc : Z) (s : string) : option Z :=
  match s with
  | EmptyString => Some acc
  | String c s' =>
      match digit_value c with
      | Some k => digits_value (10 * acc + k) s'
      | None => None
      end
  end.

Definition int_of_digits (s : string) : option Z :=
  match s with
  | EmptyString => None
  | _ => digits_value 0 s
  end.

(** An incoming event, as [process_events] builds it. *)
Record event := mkEvent {
  event_pk : Z;
  announcement_date : option date;
  start_date : option date;
  details : option (gmap string jval)
}.

(** The notes column as the code reads it: NULL or empty, the JSON text of
    an object, the JSON text [null], or text that [json.loads] rejects. *)
Inductive notes :=
| NotesNull
| NotesObject (d : gmap string jval)
| NotesJsonNull
| NotesText (text : string).

(** A row of [asset_events_data]; the UUID, the timestamps and the constant
    columns are left out. *)
Record row := mkRow {
  asset_event_PK : Z;
  asset_event_ID : Z;
  asset_event_event_pk : Z;
  asset_event_announcement_date : option date;
  asset_event_start_date : option date;
  asset_event_event_notes : notes
}.

(** [(event_pk, ann_str, start_str)] *)
Definition date_str (d : option date) : string :=
  match d with
  | Some d => strftime d
  | None => ""
  end.

Definition row_key (r : row) : Z * string * string :=
  (asset_event_event_pk r, date_str (asset_event_announcement_date r),
   date_str (asset_event_start_date r)).

Definition event_key (e : event) : Z * string * string :=
  (event_pk e, date_str (announcement_date e), date_str (start_date e)).

(** Lines 338-344. *)
Definition is_expected (r : row) : bool :=
  match asset_event_event_notes r with
  | NotesNull => false
  | NotesObject d =>
      (asset_event_event_pk r =? 2) &&
      (bool_decide (is_Some (d !! "estimate")) ||
       bool_decide (get d "source" = JStr "earnings_calendar"))
  | NotesJsonNull =>
      (asset_event_event_pk r =? 2) &&
      (contains "earnings_calendar" "null" || contains "estimate" "null")
  | NotesText text =>
      (asset_event_event_pk r =? 2) &&
      (contains "earnings_calendar" text || contains "estimate" text)
  end.

(** [_extract_qy] (lines 305-324). *)
Definition normal_year (y : jval) : option Z :=
  match y with
  | JInt n => Some n
  | JBool b => Some (if b then 1 else 0)
  | JStr s => int_of_digits s
  | JNull => None
  end.

Definition extract_qy (n : notes) (start_date ann_date : option date)
  : option string * option Z :=
  let '(q, y) :=
    match n with
    | NotesObject d =>
        (py_or (get d "quarter") (get d "q"), py_or (get d "year") (get d "y"))
    | _ => (JNull, JNull)
    end in
  let '(q, y) :=
    if bool_decide (q = JNull) || bool_decide (y = JNull) then
      match (match start_date with Some d => Some d | None => ann_date end)
      with
      | Some d => (JStr (quarter_of d), JInt (year d))
      | None => (q, y)
      end
    else (q, y) in
  (if truthy q then Some (py_str q) else None, normal_year y).

(** [m.setdefault(k, set()).add(pk)] *)
Definition index_add `{Countable K} (k : K) (pk : Z)
    (m : gmap K (gset Z)) : gmap K (gset Z) :=
  <[k := {[ pk ]} ∪ default ∅ (m !! k)]> m.

(** One iteration of the loop of lines 331-353 on the two indexes. *)
Definition index_row (r : row)
    (ix : gmap (string * Z) (gset Z) * gmap date (gset Z))
  : gmap (string * Z) (gset Z) * gmap date (gset Z) :=
  if is_expected r then
    let by_qy :=
      match extract_qy (asset_event_event_notes r) (asset_event_start_date r)
              (asset_event_announcement_date r) with
      | (Some q, Some y) =>
          if negb (bool_decide (q = "")) && negb (y =? 0)
          then index_add (q, y) (asset_event_PK r) (fst ix) else fst ix
      | _ => fst ix
      end in
    let by_start :=
      match asset_event_start_date r with
      | Some d => index_add d (asset_event_PK r) (snd ix)
      | None => snd ix
      end in
    (by_qy, by_start)
  else ix.

Definition build_indexes (existing_rows : list row)
  : gmap (string * Z) (gset Z) * gmap date (gset Z) :=
  fold_left (fun ix r => index_row r ix) existing_rows (∅, ∅).

(** [existing_set], in the order of the rows. The code iterates a [set],
    whose order is not specified: when two stored rows share an identity
    key, the row that the loop of lines 368-372 meets first depends on that
    order. The statements that depend on which row is met assume that the
    stored identity keys are distinct. *)
Definition existing_set (existing_rows : list row)
  : list (Z * string * string * Z * bool) :=
  map (fun r => (row_key r, asset_event_PK r, is_expected r)) existing_rows.

(** Lines 368-372. *)
Definition existing_match (set_ : list (Z * string * string * Z * bool))
    (key : Z * string * string) : option (Z * bool) :=
  match List.find (fun x => bool_decide (fst (fst x) = key)) set_ with
  | Some x => Some (snd (fst x), snd x)
  | None => None
  end.

(** Lines 376 and 385. *)
Definition is_new_actual (e : event) : bool :=
  (event_pk e =? 2) &&
  match details e with
  | Some d => bool_decide (get d "estimate" = JNull)
  | None => false
  end.

(** [json.dumps(sanitize_for_text(details))]: the payloads of the model hold
    nothing that [sanitize_for_text] rewrites. *)
Definition dumps (details : option (gmap string jval)) : notes :=
  match details with
  | Some d => NotesObject d
  | None => NotesJsonNull
  end.

(** Lines 388-397: the quarter and year an actual event is looked up by. *)
Definition lookup_qy (e : event) : jval * jval :=
  let d := default ∅ (details e) in
  let q := get d "quarter" in
  let y := get d "year" in
  if truthy q && truthy y then (q, y)
  else
    match start_date e, announcement_date e with
    | Some s, _ => (JStr (quarter_of s), JInt (year s))
    | None, Some a => (JStr (quarter_of a), JInt (year a))
    | None, None => (q, y)
    end.

(** The key [(q, y)] finds in a dict keyed by [(str, int)]. *)
Definition qy_key (q y : jval) : option (string * Z) :=
  match q, y with
  | JStr s, JInt n => Some (s, n)
  | JStr s, JBool b => Some (s, if b then 1 else 0)
  | _, _ => None
  end.

(** Lines 398-402. *)
Definition placeholders_of
    (ix : gmap (string * Z) (gset Z) * gmap date (gset Z)) (e : event)
  : gset Z :=
  let '(q, y) := lookup_qy e in
  (if truthy q && truthy y then
     match qy_key q y with
     | Some k => default ∅ (fst ix !! k)
     | None => ∅
     end
   else ∅) ∪
  match start_date e with
  | Some s => default ∅ (snd ix !! s)
  | None => ∅
  end.

(** The reconciliation plan. *)
Record plan := mkPlan {
  new_events : list event;
  expected_to_delete : gset Z;
  events_to_update : list (Z * notes)
}.

(** One iteration of the loop of lines 358-404. *)
Definition plan_event (set_ : list (Z * string * string * Z * bool))
    (ix : gmap (string * Z) (gset Z) * gmap date (gset Z))
    (p : plan) (e : event) : plan :=
  match existing_match set_ (event_key e) with
  | Some (existing_pk, is_existing_expected) =>
      if is_existing_expected && is_new_actual e
      then mkPlan (new_events p) (expected_to_delete p)
             (events_to_update p ++ [(existing_pk, dumps (details e))])
      else p
  | None =>
      mkPlan (new_events p ++ [e])
        (if is_new_actual e
         then expected_to_delete p ∪ placeholders_of ix e
         else expected_to_delete p)
        (events_to_update p)
  end.

Definition reconcile (existing_rows : list row) (events : list event)
  : plan :=
  fold_left (plan_event (existing_set existing_rows)
               (build_indexes existing_rows))
    events (mkPlan [] ∅ []).

(** [DELETE ... WHERE PK = ANY(%s)] and [UPDATE ... SET notes = %s WHERE
    PK = %s]. *)
Definition delete_rows (pks : gset Z) (t : list row) : list row :=
  List.filter (fun r => negb (bool_decide (asset_event_PK r ∈ pks))) t.

Definition update_notes (t : list row) (u : Z * notes) : list row :=
  map (fun r => if asset_event_PK r =? fst u
                then mkRow (asset_event_PK r) (asset_event_ID r)
                       (asset_event_event_pk r)
                       (asset_event_announcement_date r)
                       (asset_event_start_date r) (snd u)
                else r) t.

(** [COALESCE(MAX(column), 0) + 1] *)
Definition next_of (l : list Z) : Z :=
  match l with
  | [] => 1
  | x :: l' => fold_left Z.max l' x + 1
  end.

(** Lines 426-438: the payload of a new row loses its ['source'] key. *)
Definition inserted_notes (details : option (gmap string jval)) : notes :=
  match details with
  | Some d => NotesObject (delete "source" d)
  | None => NotesJsonNull
  end.

(** The rows of the [COPY] (lines 426-443). The code writes the two dates as
    [strftime('%Y-%m-%d')] text; for a date with a year of four digits that
    text is the ISO form of the date, which the database stores as that
    date, and the rows of the model hold the dates themselves. Below the
    year 1000 the text has a shorter year and is not the ISO form: the
    statements about the dates of inserted rows assume [dates_in_range]. *)
Fixpoint bulk_rows (next_pk next_id : Z) (new_events : list event)
  : list row :=
  match new_events with
  | [] => []
  | ev :: rest =>
      mkRow next_pk next_id (event_pk ev) (announcement_date ev)
        (start_date ev) (inserted_notes (details ev))
      :: bulk_rows (next_pk + 1) (next_id + 1) rest
  end.

(** All the updates of a plan on one row, and the payload they leave: that
    of the last update naming the row. *)
Definition with_notes (r : row) (n : notes) : row :=
  mkRow (asset_event_PK r) (asset_event_ID r) (asset_event_event_pk r)
    (asset_event_announcement_date r) (asset_event_start_date r) n.

Definition noted (updates : list (Z * notes)) (r : row) : row :=
  fold_left (fun r u => if asset_event_PK r =? fst u
                        then with_notes r (snd u) else r) updates r.

(** Vocabulary of the statements: an earnings payload has an estimate
    marker; an actual event looks up an index entry that holds a
    placeholder. *)
Definition has_estimate (n : notes) : bool :=
  match n with
  | NotesObject d => bool_decide (is_Some (d !! "estimate"))
  | _ => false
  end.







(** The table after the deletes and the updates of a plan. *)
Definition reconciled (existing_rows : list row) (p : plan) : list row :=
  fold_left update_notes (events_to_update p)
    (delete_rows (expected_to_delete p) existing_rows).

(** [batch_insert_events(cursor, events, asset_symbol)]: the table it leaves
    and the count it returns. *)
Definition batch_insert_events (existing_rows : list row)
    (events : list event) : list row * Z :=
  match events with
  | [] => (existing_rows, 0)
  | _ :: _ =>
      let p := reconcile existing_rows events in
      let t := reconciled existing_rows p in
      match new_events p with
      | [] => (t, Z.of_nat (length (events_to_update p)))
      | _ :: _ =>
          (t ++ bulk_rows (next_of (map asset_event_PK t))
                  (next_of (map asset_event_ID t)) (new_events p),
           Z.of_nat (length (new_events p))
           + Z.of_nat (length (events_to_update p)))
      end
  end.

(** ** The sort before the insertion (lines 696-711) *)

(** [list.sort] and [sorted] are stable: of two elements neither of which
    is less than the other, the one that came first stays first. Sorting by
    insertion from the right gives that list. *)
Section Sorting.
Context {A : Type} (lt : A -> A -> bool).

Fixpoint insert_sorted (x : A) (l : list A) : list A :=
  match l with
  | [] => [x]
  | y :: l' => if lt y x then y :: insert_sorted x l' else x :: y :: l'
  end.

Definition py_sorted (l : list A) : list A := foldr insert_sorted [] l.

End Sorting.

(** [date.strftime('%Y-%m-%d') if date else '9999-12-31'] *)
Definition date_sort (e : event) : string :=
  match announcement_date e with
  | Some d => strftime d
  | None => "9999-12-31"
  end.

(** The type priority: the kind code, and for the earnings kind 2.1 or 2.2.
    The two literals are floats; they compare with the kind codes and with
    each other as the rationals 21/10 and 22/10 do. *)
Definition type_priority (e : event) : Q :=
  if event_pk e =? 2 then
    match details e with
    | Some d =>
        if negb (bool_decide (d = ∅)) && bool_decide (get d "estimate" = JNull)
        then (21 # 10)%Q else (22 # 10)%Q
    | None => (22 # 10)%Q
    end
  else inject_Z (event_pk e).

Definition sort_key (e : event) : string * Q := (date_sort e, type_priority e).

(** The order of the tuples [(str, number)]: by the strings, character by
    character, then by the numbers. *)
Definition key_lt (a b : string * Q) : bool :=
  match String.compare (fst a) (fst b) with
  | Lt => true
  | Eq => match Qcompare (snd a) (snd b) with Lt => true | _ => false end
  | Gt => false
  end.

(** [all_events.sort(key=sort_key)] *)
Definition sort_events (all_events : list event) : list event :=
  py_sorted (fun a b => key_lt (sort_key a) (sort_key b)) all_events.

(** [a] is not after [b] in the order of the keys. *)
Definition key_le (a b : string * Q) : Prop :=
  match String.compare (fst a) (fst b) with
  | Lt => True
  | Eq => (snd a <= snd b)%Q
  | Gt => False
  end.

(** Vocabulary of the statements: [x] stands before [y] in a list; a date
    with a year of four digits; the decimal numeral of [n] on [w] digits. *)
Definition before {A} (l : list A) (x y : A) : Prop :=
  exists l1 l2 l3, l = l1 ++ x :: l2 ++ y :: l3.

Definition four_digit_year (d : date) : Prop :=
  1000 <= year d <= 9999 /\ 1 <= month d <= 12 /\ 1 <= day d <= 31.

Definition dated_in_range (e : event) : Prop :=
  match announcement_date e with
  | Some d => four_digit_year d
  | None => True
  end.

(** Both dates of an event have a year of four digits: the [COPY] text of
    the event is read back as the dates of the event. *)
Definition dates_in_range (e : event) : Prop :=
  dated_in_range e /\
  match start_date e with
  | Some d => four_digit_year d
  | None => True
  end.

Definition digit (n : Z) : ascii := ascii_of_N (Z.to_N (48 + n)).

Fixpoint fixed (w : nat) (n : Z) : string :=
  match w with
  | O => EmptyString
  | S w' => String (digit (n / 10 ^ Z.of_nat w'))
              (fixed w' (n mod 10 ^ Z.of_nat w'))
  end.

(** ** The rate series and the run over the assets (lines 448-744) *)

(** A record of the rate series as the loops of lines 483-520 read it:
    [parse_date] of its date (nothing for a missing, empty or unparseable
    date) and its value. *)
Record rate_record := mkRate {
  rate_date : option date;
  rate_value : jval
}.

(** What [FEDERAL_FUNDS_RATE('monthly')] answers: something that is not a
    dict, or a dict, of which the model keeps the records that the loops
    visit. The call or the loops may raise instead. *)
Inductive rate_payload :=
| NotDict
| Dict (records : list rate_record).

(** [value not in (None, '', '.')] *)
Definition usable (v : jval) : bool :=
  match v with
  | JNull => false
  | JStr s => negb (bool_decide (s = "") || bool_decide (s = "."))
  | _ => true
  end.

(** The list [parsed] of lines 481-520. *)
Definition parse_rates (records : list rate_record) : list (date * string) :=
  omap (fun r =>
          match rate_date r with
          | Some d =>
              if usable (rate_value r) then Some (d, py_str (rate_value r))
              else None
          | None => None
          end) records.

(** [key=lambda x: x[0], reverse=True]: [a] goes before [b] when its date is
    the later one. *)
Definition later (a b : date * string) : bool :=
  match date_compare (fst a) (fst b) with
  | Gt => true
  | _ => false
  end.

(** The API calls of a run. *)
Inductive call :=
| FEDERAL_FUNDS_RATE (interval : string)
| EARNINGS (symbol : string)
| EARNINGS_CALENDAR (symbol : string)
| DIVIDENDS (symbol : string)
| STOCK_SPLITS (symbol : string).

Definition is_rate_call (c : call) : bool :=
  match c with
  | FEDERAL_FUNDS_RATE _ => true
  | _ => false
  end.

(** The upstream of a run: the answer on the rate series, and for a call on
    a symbol the events that its branch of lines 546-676 appends to
    [all_events] (a branch that raises keeps the events appended before). *)
Record upstream := mkUpstream {
  rate_answer : outcome rate_payload;
  appended : call -> list event
}.

(** The state of a run: the table [asset_events_data] of each asset schema
    that can be read, as the open transaction sees it, the API calls made so
    far, in order, the count, and whether a statement has failed in the
    transaction. The connection has [autocommit = False] (line 787): once a
    statement fails, every later statement of the transaction fails too,
    until a rollback. *)
Record run := mkRun {
  tables : gmap string (list row);
  calls : list call;
  total_events_inserted : Z;
  aborted : bool
}.

(** The events of the rate series (lines 679-687). *)
Definition rate_events (federal_funds_rates : list (date * string))
  : list event :=
  map (fun dv => mkEvent 4 (Some (fst dv)) (Some (fst dv))
                   (Some {[ "fvalue" := JStr (snd dv) ]}))
    federal_funds_rates.

Section Run.

(** The iteration order of a set is not specified: [iteration] lists the
    elements of a set in some order. *)
Variable iteration : gset (date * string) -> list (date * string).

(** Lines 522-525: [sorted({(d, v) for d, v in parsed}, key=..., reverse=True)]
    and [parsed[:12]]. *)
Definition retain (parsed : list (date * string)) : list (date * string) :=
  match parsed with
  | [] => []
  | _ :: _ => take 12 (py_sorted later (iteration (list_to_set parsed)))
  end.

(** Lines 476-527. *)
Definition federal_funds_rates (answer : outcome rate_payload)
  : list (date * string) :=
  match answer with
  | Return (Dict records) => retain (parse_rates records)
  | Return NotDict => []
  | Raise _ => []
  end.

(** One iteration of the loop over the symbols (lines 530-722). The
    [SELECT] of lines 532-537 raises when the table cannot be read, and in a
    failed transaction; the handler prints and goes on to the next
    symbol, without a rollback. *)
Definition process_symbol (up : upstream)
    (rates : list (date * string)) (s : run) (symbol : string) : run :=
  if aborted s then s
  else
    match tables s !! symbol with
    | None => mkRun (tables s) (calls s) (total_events_inserted s) true
    | Some t =>
        let fetched := [EARNINGS symbol; EARNINGS_CALENDAR symbol;
                        DIVIDENDS symbol; STOCK_SPLITS symbol] in
        let all_events :=
          flat_map (appended up) fetched ++ rate_events rates in
        let result := batch_insert_events t (sort_events all_events) in
        mkRun (<[symbol := fst result]> (tables s)) (calls s ++ fetched)
          (total_events_inserted s + snd result) false
    end.

(** [process_events(cursor, only_symbols)], on the symbols selected by lines
    457-471. *)
Definition process_events (up : upstream) (us_symbols : list string)
    (store : gmap string (list row)) : run :=
  let rates := federal_funds_rates (rate_answer up) in
  fold_left (process_symbol up rates) us_symbols
    (mkRun store [FEDERAL_FUNDS_RATE "monthly"] 0 false).

End Run.

(** [conn.commit()] of step 4 of [resolve_EIE] (lines 893-902), after
    [process_events] on the tables [store]: the commit of a failed
    transaction rolls it back. *)
Definition commit (store : gmap string (list row)) (r : run)
  : gmap string (list row) :=
  if aborted r then store else tables r.

(** The symbols that the loop reaches with the transaction in order: those
    before the first one whose table cannot be read. *)
Fixpoint reached (store : gmap string (list row)) (symbols : list string)
  : list string :=
  match symbols with
  | [] => []
  | symbol :: rest =>
      if bool_decide (is_Some (store !! symbol))
      then symbol :: reached store rest else []
  end.

(** Two events have the same sort key. *)
Definition same_key (x e : event) : bool :=
  negb (key_lt (sort_key x) (sort_key e))
  && negb (key_lt (sort_key e) (sort_key x)).

(** The four calls made for a symbol, in the order of line 542. *)
Definition symbol_calls (symbol : string) : list call :=
  [EARNINGS symbol; EARNINGS_CALENDAR symbol; DIVIDENDS symbol;
   STOCK_SPLITS symbol].

(** The events that one iteration of the loop over the symbols hands to
    [batch_insert_events]. *)
Definition symbol_events (up : upstream) (rates : list (date * string))
    (symbol : string) : list event :=
  sort_events (flat_map (appended up) (symbol_calls symbol)
               ++ rate_events rates).

(** The table of a symbol has nothing to gain from its events. *)
Definition settled_at (up : upstream) (rates : list (date * string))
    (store : gmap string (list row)) (symbol : string) : Prop :=
  forall t, store !! symbol = Some t ->
            batch_insert_events t (symbol_events up rates symbol) = (t, 0).

End Events.

(** ** Date parsing: [parse_date] and [get_quarter_from_date]
       (main.py 43-61) *)

Module Parse.
Import Events.

(** [datetime.strptime(s, '%Y-%m-%d')] on a string of characters below 256,
    where the decimal digits are 0 to 9. The format is matched as the
    regular expression
    [(\d\d\d\d)-(1[0-2]|0[1-9]|[1-9])-(3[0-1]|[1-2]\d|0[1-9]|[1-9]| [1-9])]
    and the whole string has to be consumed; the date has to exist. *)
Definition is_leap (y : Z) : bool :=
  (y mod 4 =? 0) && (negb (y mod 100 =? 0) || (y mod 400 =? 0)).

Definition days_in_month (y m : Z) : Z :=
  if m =? 2 then (if is_leap y then 29 else 28)
  else if (m =? 4) || (m =? 6) || (m =? 9) || (m =? 11) then 30
  else 31.

Definition month_field (s : string) : option Z :=
  match s with
  | String a EmptyString =>
      match digit_value a with
      | Some n => if 1 <=? n then Some n else None
      | None => None
      end
  | String a (String b EmptyString) =>
      match digit_value a, digit_value b with
      | Some x, Some n =>
          if (x =? 1) && (n <=? 2) then Some (10 + n)
          else if (x =? 0) && (1 <=? n) then Some n
          else None
      | _, _ => None
      end
  | _ => None
  end.

Definition day_field (s : string) : option Z :=
  match s with
  | String a EmptyString =>
      match digit_value a with
      | Some n => if 1 <=? n then Some n else None
      | None => None
      end
  | String a (String b EmptyString) =>
      match digit_value a, digit_value b with
      | Some x, Some n =>
          if (x =? 3) && (n <=? 1) then Some (30 + n)
          else if (1 <=? x) && (x <=? 2) then Some (10 * x + n)
          else if (x =? 0) && (1 <=? n) then Some n
          else None
      | None, Some n =>
          if Ascii.eqb a " " && (1 <=? n) then Some n else None
      | _, None => None
      end
  | _ => None
  end.

(** The text before the first ["-"], and the text after it. *)
Fixpoint until_dash (s : string) : option (string * string) :=
  match s with
  | EmptyString => None
  | String c s' =>
      if Ascii.eqb c "-" then Some (EmptyString, s')
      else match until_dash s' with
           | Some (a, b) => Some (String c a, b)
           | None => None
           end
  end.

Definition month_day (s : string) : option (Z * Z) :=
  match until_dash s with
  | Some (ms, ds) =>
      match month_field ms, day_field ds with
      | Some m, Some d => Some (m, d)
      | _, _ => None
      end
  | None => None
  end.

Definition strptime (s : string) : option date :=
  match s with
  | String a (String b (String c (String d (String sep rest)))) =>
      if Ascii.eqb sep "-" then
        match digits_value 0 (String a (String b (String c (String d EmptyString)))),
              month_day rest with
        | Some y, Some (m, dd) =>
            if (1 <=? y) && (dd <=? days_in_month y m)
            then Some (mkDate y m dd) else None
        | _, _ => None
        end
      else None
  | _ => None
  end.

(** [parse_date(date_str)]: a value that is not a str is falsy, or makes
    [strptime] raise TypeError. *)
Definition parse_date (date_str : jval) : option date :=
  match date_str with
  | JStr s =>
      if bool_decide (s = "") || bool_decide (s ∈ ["N/A"; ""]) then None
      else strptime s
  | _ => None
  end.

(** [get_quarter_from_date(date_str)] *)
Definition get_quarter_from_date (date_str : jval) : option string :=
  match date_str with
  | JStr s =>
      if bool_decide (s = "") then None
      else match strptime s with
           | Some d => Some ("Q" +:+ Split.str ((month d - 1) / 3 + 1))
           | None => None
           end
  | _ => None
  end.

(** Vocabulary of the statements: a date of the calendar. *)
Definition calendar_date (d : date) : Prop :=
  1 <= year d <= 9999 /\ 1 <= month d <= 12 /\
  1 <= day d <= days_in_month (year d) (month d).

End Parse.

(** ** Earnings events as [process_events] builds them (main.py 563-649) *)

Module Feed.
Import Events Parse.

(** A str or [None] as a value of a payload. *)
Definition str_or_none (o : option string) : jval :=
  match o with
  | Some s => JStr s
  | None => JNull
  end.

(** Lines 569-578: the event for one element of ['quarterlyEarnings']. *)
Definition earnings_event (e : gmap string jval) : option event :=
  match parse_date (get e "fiscalDateEnding"),
        parse_date (get e "reportedDate") with
  | Some fiscal, Some reported =>
      match date_compare reported fiscal with
      | Lt => None
      | _ =>
          Some (mkEvent 2 (Some fiscal) (Some reported)
                  (Some {[ "quarter" :=
                             str_or_none
                               (get_quarter_from_date
                                  (get e "fiscalDateEnding"));
                           "year" := JInt (year fiscal) ]}))
      end
  | _, _ => None
  end.

(** Lines 617-631 and 639-649: the event for one entry of the earnings
    calendar, in its list and dict formats. *)
Definition calendar_event (e : gmap string jval) : option event :=
  match parse_date (py_or (get e "reportDate") (get e "date")) with
  | Some earnings_date =>
      let earnings_calendar_fiscal := parse_date (get e "fiscalDateEnding") in
      let use_date := default earnings_date earnings_calendar_fiscal in
      Some (mkEvent 2 earnings_calendar_fiscal (Some earnings_date)
              (Some {[ "quarter" :=
                         str_or_none
                           (get_quarter_from_date (JStr (strftime use_date)));
                       "year" := JInt (year use_date);
                       "estimate" := get e "estimate" ]}))
  | None => None
  end.

End Feed.

(** ** Payload sanitizer: [sanitize_for_text] (main.py 80-90) *)

Module Sanitize.
Import Events.

(** The objects the function tells apart: a [Decimal], a [datetime], a list,
    a tuple, a dict (with str keys, in insertion order), and the others, of
    which the model keeps [None], bool, int, str and [date] (a [date] is not
    a [datetime]). *)
#[warnings="-register-all"]
Inductive pyobj :=
| ONone
| OBool (b : bool)
| OInt (n : Z)
| OStr (s : string)
| ODate (d : date)
| ODecimal (x : Split.decimal)
| ODatetime (d : date) (hour minute second : Z)
| OList (items : list pyobj)
| OTuple (items : list pyobj)
| ODict (items : list (string * pyobj)).

Section Sanitizer.

(** [str(obj)] of a [Decimal]. *)
Variable decimal_str : Split.decimal -> string.

(** [obj.strftime('%Y-%m-%dT%H:%M:%S')] *)
Definition isoformat (d : date) (hour minute second : Z) : string :=
  strftime d +:+ "T" +:+ two_digits hour +:+ ":" +:+ two_digits minute
    +:+ ":" +:+ two_digits second.

Fixpoint sanitize_for_text (obj : pyobj) : pyobj :=
  match obj with
  | ODecimal x => OStr (decimal_str x)
  | ODatetime d h m s => OStr (isoformat d h m s)
  | OList items => OList (map sanitize_for_text items)
  | OTuple items => OList (map sanitize_for_text items)
  | ODict items =>
      ODict (map (fun kv => (fst kv, sanitize_for_text (snd kv))) items)
  | _ => obj
  end.

End Sanitizer.
(** Vocabulary of the statements: an object that holds no [Decimal], no
    [datetime] and no tuple, at any depth. *)
Fixpoint plain (obj : pyobj) : bool :=
  match obj with
  | ODecimal _ | ODatetime _ _ _ _ | OTuple _ => false
  | OList items => forallb plain items
  | ODict items => forallb (fun kv => plain (snd kv)) items
  | _ => true
  end.

(** The size of an object, for inductions on nested objects. *)
Fixpoint weight (obj : pyobj) : nat :=
  match obj with
  | OList items | OTuple items => S (list_sum (map weight items))
  | ODict items => S (list_sum (map (fun kv => weight (snd kv)) items))
  | _ => 1%nat
  end.

End Sanitize.

(** ** The stages of [resolve_EIE] around the two pipelines
       (main.py 782-799 and 844-875) *)

Module Resolve.
Import Indicators.

(** *** The connection loop (lines 782-799) *)

(** [connect_with_retries(retries, delay)]: [connect attempt] tells whether
    [psycopg2.connect] succeeds at that attempt. The loop gives the attempt
    that connected, if any, and the number of calls of [time.sleep]. *)
Fixpoint connect_loop (connect : nat -> bool) (retries : nat)
    (attempts : list nat) (sleeps : nat) : option nat * nat :=
  match attempts with
  | [] => (None, sleeps)
  | attempt :: rest =>
      if connect attempt then (Some attempt, sleeps)
      else connect_loop connect retries rest
             (if (attempt <? retries - 1)%nat then S sleeps else sleeps)
  end.

Definition connect_with_retries (connect : nat -> bool) (retries : nat)
  : option nat * nat :=
  connect_loop connect retries (seq 0 retries) 0.

(** *** The fill stage (lines 844-875) *)

(** The two columns that [forward_backward_fill_indicator] selects from an
    interval table. *)
Definition column_records (column_name : string) (t : list row)
  : list (GapFill.row num) :=
  map (fun r => GapFill.mkRow (row_date r) (row_cells r !! column_name)) t.

(** [UPDATE t SET column = %s WHERE date = %s AND column IS NULL] on the
    rows of the table. *)
Definition update_column (column_name : string) (t : list row)
    (u : num * Z) : list row :=
  map (fun r => if (row_date r =? snd u) && negb (has_value column_name r)
                then mkRow (row_PK r) (row_ID r) (row_country_PK r)
                       (row_date r) (<[column_name := fst u]> (row_cells r))
                else r) t.

(** [forward_backward_fill_indicator(cursor, table_name, column_name,
    interval)] on the table of the interval. *)
Definition fill_column (column_name : string) (t : list row) : list row :=
  let records := GapFill.order_by_date (column_records column_name t) in
  match GapFill.first_valid_value records with
  | None => t
  | Some first_valid =>
      fold_left (update_column column_name)
        (GapFill.collect_updates first_valid records) t
  end.

(** [fill_map] (lines 847-858). *)
Definition fill_map (indicator : string) : option string :=
  if decide (indicator = "Treasury_yield_interval_list")
  then Some "TCMRP_value"
  else if decide (indicator = "Federal_funds_interval_list")
  then Some "EFFRP_value"
  else if decide (indicator = "CPI_interval_list")
  then Some "CPIAUC_value"
  else if decide (indicator = "inflation_interval_list")
  then Some "ICPP_value"
  else if decide (indicator = "retail_sales_interval_list")
  then Some "ARSRTMUSD_value"
  else if decide (indicator = "durables_interval_list")
  then Some "MNODGMUSD_value"
  else if decide (indicator = "unemployment_interval_list")
  then Some "URP_value"
  else if decide (indicator = "nonfarm_payrolls_interval_list")
  then Some "TNPTP_value"
  else if decide (indicator = "real_GDP_interval_list")
  then Some "RGDPBUSD_value"
  else if decide (indicator = "real_GDP_pc_interval_list")
  then Some "RGDPCBUSD_value"
  else None.

(** The body of the loops of lines 862-875 for one interval and one item of
    [interval_dict]. *)
Definition fill_item (interval_ : interval)
    (store : gmap interval (list row)) (item : string * list interval)
  : gmap interval (list row) :=
  if bool_decide (interval_ ∈ snd item) then
    match fill_map (fst item) with
    | Some suffix =>
        <[interval_ := fill_column (prefix_map interval_ +:+ suffix)
                         (store !!! interval_)]> store
    | None => store
    end
  else store.

Definition fill_stage (store : gmap interval (list row))
  : gmap interval (list row) :=
  fold_left (fun st interval_ => fold_left (fill_item interval_) interval_dict st)
    interval_list store.

(** Vocabulary of the statements: a row with the same keys and date that
    has lost no cell; a column without gap, which holds a value in every row
    or in none. *)
Definition grown (r r' : row) : Prop :=
  row_PK r' = row_PK r /\ row_ID r' = row_ID r /\
  row_country_PK r' = row_country_PK r /\ row_date r' = row_date r /\
  row_cells r ⊆ row_cells r'.

(** A row grown in one column only. *)
Definition grown_in (column_name : string) (r r' : row) : Prop :=
  grown r r' /\
  forall c, c <> column_name -> row_cells r' !! c = row_cells r !! c.

Definition gapless (column_name : string) (t : list row) : Prop :=
  (exists r, r ∈ t /\ has_value column_name r = true) ->
  forall r, r ∈ t -> has_value column_name r = true.

End Resolve.

(* ===================================================================== *)
(** * Properties *)
(* ===================================================================== *)

(** ** Gap filler *)

Section GapFillFacts.
Import GapFill.
Context {V : Type}.
Implicit Types (t : list (row V)) (r : row V) (us : list (V * Z)).
Implicit Types (pre post l : list (row V)).

Lemma update_null_at_filled us u r :
  filled_row us
    (if (row_date r =? snd u) && is_null (row_value r)
     then mkRow (row_date r) (Some (fst u)) else r)
  = filled_row (u :: us) r.
Proof.
  unfold filled_row; simpl.
  destruct (row_value r) as [v|] eqn:Hv; simpl.
  - rewrite andb_false_r, Hv. reflexivity.
  - rewrite andb_true_r. destruct (row_date r =? snd u); simpl.
    + reflexivity.
    + rewrite Hv. reflexivity.
Qed.

Lemma executemany_map us : forall t,
  executemany t us = map (filled_row us) t.
Proof.
  induction us as [|u us IH]; intros t; simpl.
  - unfold executemany; simpl. induction t as [|r t IHt]; simpl; [done|].
    rewrite <- IHt. f_equal. unfold filled_row. by destruct (row_value r).
  - unfold executemany in *; simpl. rewrite IH. unfold update_null_at.
    rewrite map_map. apply map_ext. intros r. apply update_null_at_filled.
Qed.

Lemma filled_row_date us r : row_date (filled_row us r) = row_date r.
Proof.
  unfold filled_row. destruct (row_value r); [done|].
  by destruct (List.find _ us).
Qed.

Lemma insert_by_date_perm r l : insert_by_date r l ≡ₚ r :: l.
Proof.
  induction l as [|x l IH]; simpl; [done|].
  destruct (row_date r <=? row_date x); [done|].
  rewrite IH. apply Permutation_swap.
Qed.

Lemma order_by_date_perm t : order_by_date t ≡ₚ t.
Proof.
  induction t as [|r t IH]; simpl; [done|].
  rewrite insert_by_date_perm. by rewrite IH.
Qed.

Lemma order_by_date_dates t :
  NoDup (map row_date t) -> NoDup (map row_date (order_by_date t)).
Proof.
  intros H. by rewrite (Permutation_map row_date (order_by_date_perm t)).
Qed.

(** The update queued for a NULL record is found by its date, and carries the
    last value known before it. *)
Lemma find_collect_updates pre : forall last r post,
  NoDup (map row_date (pre ++ r :: post)) ->
  row_value r = None ->
  List.find (fun u => row_date r =? snd u)
            (collect_updates last (pre ++ r :: post))
  = Some (default last (last_valid_value pre), row_date r).
Proof.
  induction pre as [|x pre IH]; intros last r post Hnd Hr; simpl.
  - rewrite Hr; simpl. by rewrite Z.eqb_refl.
  - simpl in Hnd. apply NoDup_cons in Hnd as [Hx Hnd].
    assert (row_date r <> row_date x) as Hne.
    { intros E. apply Hx. rewrite <- E, map_app; simpl.
      apply elem_of_app; right. apply elem_of_cons; by left. }
    destruct (row_value x) as [v|] eqn:Hv.
    + rewrite (IH v r post Hnd Hr). by destruct (last_valid_value pre).
    + simpl. apply Z.eqb_neq in Hne. rewrite Hne.
      rewrite (IH last r post Hnd Hr). by destruct (last_valid_value pre).
Qed.

Lemma cell_map_filled us t : forall r,
  NoDup (map row_date t) -> r ∈ t ->
  cell (map (filled_row us) t) (row_date r)
  = Some (row_value (filled_row us r)).
Proof.
  induction t as [|x t IH]; intros r Hnd Hin; [by apply elem_of_nil in Hin|].
  simpl in *. apply NoDup_cons in Hnd as [Hx Hnd].
  rewrite filled_row_date. apply elem_of_cons in Hin as [->|Hin].
  - by rewrite Z.eqb_refl.
  - destruct (row_date x =? row_date r) eqn:E; [|by apply IH].
    apply Z.eqb_eq in E. exfalso. apply Hx. rewrite E.
    apply list_elem_of_fmap. by exists r.
Qed.

Lemma fill_unfold t :
  forward_backward_fill_indicator t =
  match first_valid_value (order_by_date t) with
  | None => t
  | Some v0 => map (filled_row (collect_updates v0 (order_by_date t))) t
  end.
Proof.
  unfold forward_backward_fill_indicator.
  destruct (order_by_date t) as [|x recs] eqn:E; [done|].
  destruct (first_valid_value (x :: recs)) as [v0|]; [|done].
  rewrite <- executemany_map.
  by destruct (collect_updates v0 (x :: recs)).
Qed.

(** [ORDER BY date] gives the rows in ascending order of their dates. *)
Lemma insert_by_date_sorted r l :
  StronglySorted (fun a b => row_date a <= row_date b) l ->
  StronglySorted (fun a b => row_date a <= row_date b) (insert_by_date r l).
Proof.
  induction 1 as [|x l Hl IH Hx]; simpl.
  - repeat constructor.
  - destruct (Z.leb_spec (row_date r) (row_date x)).
    + constructor; [by constructor|]. constructor; [done|].
      eapply Forall_impl; [exact Hx|]. simpl. intros; lia.
    + constructor; [done|].
      rewrite (Forall_forall (fun b => row_date x <= row_date b)).
      intros y Hy. rewrite insert_by_date_perm in Hy.
      apply elem_of_cons in Hy as [->|Hy]; [lia|].
      by apply (proj1 (Forall_forall _ _) Hx).
Qed.

Lemma order_by_date_sorted t :
  StronglySorted (fun a b => row_date a <= row_date b) (order_by_date t).
Proof.
  induction t as [|r t IH]; simpl; [constructor|].
  by apply insert_by_date_sorted.
Qed.

Lemma order_by_date_ascending t :
  NoDup (map row_date t) ->
  StronglySorted (fun a b => row_date a < row_date b) (order_by_date t).
Proof.
  intros Hnd. apply order_by_date_dates in Hnd.
  pose proof (order_by_date_sorted t) as Hs.
  induction Hs as [|x l Hl IH Hx]; [constructor|].
  simpl in Hnd. apply NoDup_cons in Hnd as [Hx' Hnd].
  constructor; [by apply IH|].
  rewrite Forall_forall in Hx |- *. intros y Hy.
  specialize (Hx y Hy).
  assert (row_date x <> row_date y); [|lia].
  intros E. apply Hx'. rewrite E. apply list_elem_of_fmap. by exists y.
Qed.

(** In a list in ascending order, what stands before a row is dated before
    it and what stands after is dated after it. *)
Lemma ascending_split pre r post :
  StronglySorted (fun a b => row_date a < row_date b) (pre ++ r :: post) ->
  (forall x, x ∈ pre -> row_date x < row_date r) /\
  (forall x, x ∈ post -> row_date r < row_date x).
Proof.
  intros H. split.
  - intros x Hx. apply list_elem_of_split in Hx as (p1 & p2 & ->).
    rewrite <- app_assoc in H. apply StronglySorted_app_1_r in H.
    simpl in H. apply StronglySorted_inv in H as [_ H].
    rewrite Forall_forall in H. apply H.
    apply elem_of_app; right. apply list_elem_of_here.
  - apply StronglySorted_app_1_r in H.
    apply StronglySorted_inv in H as [_ H].
    by rewrite Forall_forall in H.
Qed.

Lemma last_valid_value_none pre :
  last_valid_value pre = None -> forall x, x ∈ pre -> row_value x = None.
Proof.
  induction pre as [|a pre IH]; simpl; intros H x Hx.
  - by apply elem_of_nil in Hx.
  - destruct (last_valid_value pre) eqn:E; [done|].
    apply elem_of_cons in Hx as [->|Hx]; [done|]. by apply IH.
Qed.

Lemma last_valid_value_some pre v :
  last_valid_value pre = Some v ->
  exists p1 r0 p2, pre = p1 ++ r0 :: p2 /\ row_value r0 = Some v /\
                   forall x, x ∈ p2 -> row_value x = None.
Proof.
  induction pre as [|a pre IH]; simpl; [done|].
  destruct (last_valid_value pre) as [w|] eqn:E.
  - intros [= ->]. destruct (IH eq_refl) as (p1 & r0 & p2 & -> & H1 & H2).
    by exists (a :: p1), r0, p2.
  - intros Ha. exists [], a, pre. split; [done|]. split; [done|].
    by apply last_valid_value_none.
Qed.

Lemma first_valid_value_split l v :
  first_valid_value l = Some v ->
  exists p1 r1 p2, l = p1 ++ r1 :: p2 /\ row_value r1 = Some v /\
                   forall x, x ∈ p1 -> row_value x = None.
Proof.
  induction l as [|a l IH]; simpl; [done|].
  destruct (row_value a) as [w|] eqn:E.
  - intros [= ->]. exists [], a, l. split; [done|]. split; [done|].
    intros x Hx. by apply elem_of_nil in Hx.
  - intros H. destruct (IH H) as (p1 & r1 & p2 & -> & H1 & H2).
    exists (a :: p1), r1, p2. split; [done|]. split; [done|].
    intros x Hx. apply elem_of_cons in Hx as [->|Hx]; [done|]. by apply H2.
Qed.

Lemma last_valid_value_nulls l :
  (forall x, x ∈ l -> row_value x = None) -> last_valid_value l = None.
Proof.
  induction l as [|a l IH]; simpl; intros H; [done|].
  rewrite IH by (intros x Hx; by apply H, list_elem_of_further).
  apply H, list_elem_of_here.
Qed.

Lemma last_valid_value_at p1 r0 p2 v :
  row_value r0 = Some v -> (forall x, x ∈ p2 -> row_value x = None) ->
  last_valid_value (p1 ++ r0 :: p2) = Some v.
Proof.
  intros Hv Hn. induction p1 as [|a p1 IH]; simpl.
  - by rewrite (last_valid_value_nulls p2 Hn).
  - by rewrite IH.
Qed.

Lemma first_valid_value_nulls l :
  first_valid_value l = None <-> forall x, x ∈ l -> row_value x = None.
Proof.
  induction l as [|a l IH]; simpl.
  - split; [intros _ x Hx; by apply elem_of_nil in Hx|done].
  - destruct (row_value a) as [w|] eqn:E.
    + split; [done|]. intros H.
      specialize (H a (list_elem_of_here _ _)). congruence.
    + rewrite IH. split.
      * intros H x Hx. apply elem_of_cons in Hx as [->|Hx]; [done|].
        by apply H.
      * intros H x Hx. by apply H, list_elem_of_further.
Qed.

(** C5. Gap-fill completeness. In a table with one row per date, the
    records are the rows in ascending order of their dates. When the column
    has no value (or the table no row) the fill changes nothing. Otherwise
    no row is added, removed or moved, no NULL cell is left, and a cell that
    held a value keeps it; a NULL cell dated after a row with a value
    receives the value of the latest such row, and a NULL cell that no value
    precedes receives the first valid value, that of the earliest row with a
    value. *)
Theorem gap_fill_completeness t :
  NoDup (map row_date t) ->
  (order_by_date t ≡ₚ t /\
   StronglySorted (fun a b => row_date a < row_date b) (order_by_date t)) /\
  map row_date (forward_backward_fill_indicator t) = map row_date t /\
  ((forall r, r ∈ t -> row_value r = None) ->
     forward_backward_fill_indicator t = t) /\
  (first_valid_value (order_by_date t) = None ->
     forward_backward_fill_indicator t = t) /\
  (forall v0, first_valid_value (order_by_date t) = Some v0 ->
     (exists r1, r1 ∈ t /\ row_value r1 = Some v0 /\
        forall x, x ∈ t -> row_date x < row_date r1 -> row_value x = None) /\
     (forall r, r ∈ forward_backward_fill_indicator t ->
        is_Some (row_value r)) /\
     (forall pre r post, order_by_date t = pre ++ r :: post ->
        cell (forward_backward_fill_indicator t) (row_date r) =
        Some (Some (match row_value r with
                    | Some v => v
                    | None => default v0 (last_valid_value pre)
                    end))) /\
     (forall r v, r ∈ t -> row_value r = Some v ->
        cell (forward_backward_fill_indicator t) (row_date r)
        = Some (Some v)) /\
     (forall r, r ∈ t -> row_value r = None ->
        (forall x, x ∈ t -> row_date x < row_date r -> row_value x = None) ->
        cell (forward_backward_fill_indicator t) (row_date r)
        = Some (Some v0)) /\
     (forall r r0 v, r ∈ t -> row_value r = None ->
        r0 ∈ t -> row_date r0 < row_date r -> row_value r0 = Some v ->
        (forall x, x ∈ t -> row_date r0 < row_date x < row_date r ->
                   row_value x = None) ->
        cell (forward_backward_fill_indicator t) (row_date r)
        = Some (Some v))).
Proof.
  intros Hnd.
  pose proof (order_by_date_ascending t Hnd) as Hasc.
  pose proof (order_by_date_dates t Hnd) as Hnd'.
  split; [split; [apply order_by_date_perm|done]|].
  assert (first_valid_value (order_by_date t) = None ->
          forward_backward_fill_indicator t = t) as Hnone
    by (rewrite fill_unfold; by intros ->).
  split; [|split; [|split; [done|]]].
  - rewrite fill_unfold.
    destruct (first_valid_value (order_by_date t)); [|done].
    rewrite map_map. apply map_ext, filled_row_date.
  - intros Hall. apply Hnone, first_valid_value_nulls.
    intros x Hx. apply Hall. by rewrite <- (order_by_date_perm t).
  - intros v0 Hv0.
    assert (forall pre r post, order_by_date t = pre ++ r :: post ->
              row_value (filled_row (collect_updates v0 (order_by_date t)) r)
              = Some (match row_value r with
                      | Some v => v
                      | None => default v0 (last_valid_value pre)
                      end)) as Hrow.
    { intros pre r post E. unfold filled_row.
      destruct (row_value r) as [v|] eqn:Hv; [done|].
      rewrite E in Hnd' |- *.
      by rewrite (find_collect_updates pre v0 r post Hnd' Hv). }
    assert (forall pre r post, order_by_date t = pre ++ r :: post ->
              cell (forward_backward_fill_indicator t) (row_date r) =
              Some (Some (match row_value r with
                          | Some v => v
                          | None => default v0 (last_valid_value pre)
                          end))) as Hcell.
    { intros pre r post E. rewrite fill_unfold, Hv0.
      rewrite cell_map_filled; [|done|].
      - by rewrite (Hrow pre r post E).
      - rewrite <- (order_by_date_perm t), E.
        apply elem_of_app; right. apply list_elem_of_here. }
    assert (forall r, r ∈ t ->
              exists pre post, order_by_date t = pre ++ r :: post /\
                (forall x, x ∈ pre -> row_date x < row_date r) /\
                (forall x, x ∈ t -> row_date x < row_date r -> x ∈ pre))
      as Hsplit.
    { intros r Hr. rewrite <- (order_by_date_perm t) in Hr.
      apply list_elem_of_split in Hr as (pre & post & E).
      exists pre, post. split; [done|]. rewrite E in Hasc.
      destruct (ascending_split pre r post Hasc) as [Hpre Hpost].
      split; [done|]. intros x Hx Hlt.
      rewrite <- (order_by_date_perm t), E in Hx.
      apply elem_of_app in Hx as [Hx|Hx]; [done|].
      apply elem_of_cons in Hx as [->|Hx]; [lia|].
      specialize (Hpost x Hx). lia. }
    split; [|split; [|split; [done|split; [|split]]]].
    + destruct (first_valid_value_split _ _ Hv0)
        as (p1 & r1 & p2 & E & Hr1 & Hp1).
      exists r1. split; [|split; [done|]].
      * rewrite <- (order_by_date_perm t), E.
        apply elem_of_app; right. apply list_elem_of_here.
      * intros x Hx Hlt. apply Hp1.
        rewrite <- (order_by_date_perm t), E in Hx. rewrite E in Hasc.
        destruct (ascending_split p1 r1 p2 Hasc) as [_ Hpost].
        apply elem_of_app in Hx as [Hx|Hx]; [done|].
        apply elem_of_cons in Hx as [->|Hx]; [lia|].
        specialize (Hpost x Hx). lia.
    + intros r' Hin. rewrite fill_unfold, Hv0 in Hin.
      apply list_elem_of_fmap in Hin as [r [-> Hin]].
      destruct (Hsplit r Hin) as (pre & post & E & _).
      rewrite (Hrow pre r post E). by eexists.
    + intros r v Hr Hv. destruct (Hsplit r Hr) as (pre & post & E & _).
      by rewrite (Hcell pre r post E), Hv.
    + intros r Hr Hv Hbefore.
      destruct (Hsplit r Hr) as (pre & post & E & Hpre & _).
      rewrite (Hcell pre r post E), Hv.
      rewrite last_valid_value_nulls; [done|].
      intros x Hx. apply Hbefore; [|by apply Hpre].
      rewrite <- (order_by_date_perm t), E. apply elem_of_app. by left.
    + intros r r0 v Hr Hv Hr0 Hlt Hv0' Hbetween.
      destruct (Hsplit r Hr) as (pre & post & E & Hpre & Hin).
      rewrite (Hcell pre r post E), Hv.
      pose proof (Hin r0 Hr0 Hlt) as Hr0pre.
      apply list_elem_of_split in Hr0pre as (p1 & p2 & Ep).
      rewrite Ep, (last_valid_value_at p1 r0 p2 v); [done|done|].
      intros x Hx. apply Hbetween.
      * rewrite <- (order_by_date_perm t), E, Ep.
        apply elem_of_app; left. apply elem_of_app; right.
        by apply list_elem_of_further.
      * split.
        -- rewrite E, Ep, <- app_assoc in Hasc.
           destruct (ascending_split p1 r0 (p2 ++ r :: post) Hasc)
             as [_ Hpost].
           apply Hpost, elem_of_app. by left.
        -- apply Hpre. rewrite Ep. apply elem_of_app; right.
           by apply list_elem_of_further.
Qed.

End GapFillFacts.

(** The theorem at a table whose first and last cells are NULL. *)
Lemma gap_fill_completeness_witness :
  let t := [GapFill.mkRow 3 None; GapFill.mkRow 1 None;
            GapFill.mkRow 2 (Some 5); GapFill.mkRow 4 None] in
  NoDup (map GapFill.row_date t) /\
  GapFill.forward_backward_fill_indicator t
  = [GapFill.mkRow 3 (Some 5); GapFill.mkRow 1 (Some 5);
     GapFill.mkRow 2 (Some 5); GapFill.mkRow 4 (Some 5)] /\
  map GapFill.row_date (GapFill.forward_backward_fill_indicator t)
  = map GapFill.row_date t.
Proof.
  assert (NoDup (map GapFill.row_date
            [GapFill.mkRow 3 (None : option Z); GapFill.mkRow 1 None;
             GapFill.mkRow 2 (Some 5); GapFill.mkRow 4 None])) as Hnd
    by (apply NoDup_ListNoDup; repeat constructor; simpl; intuition lia).
  split; [exact Hnd|]. split; [reflexivity|].
  exact (proj1 (proj2 (gap_fill_completeness _ Hnd))).
Defined.

(** ** Split-ratio formatting *)

Section SplitFacts.
Import Split.

Example split_samples :
  map compute_split_ratio_str
    [PyNumber (Finite false 20 (-1)); PyNumber (Finite false 5 (-1));
     PyNumber (Finite false 25 (-1)); PyNumber (Finite false 35 (-1));
     PyNumber (Finite false 4 (-1)); PyNumber (Finite false 6 (-1));
     PyNumber (Finite true 5 (-1)); PyNumber (Finite true 2 0);
     PyNumber (Finite false 0 0); PyNumber (Finite false 1 27);
     PyNumber (Finite false 1 (-27)); PyNumber (Finite false 1 (-28));
     PyNumber (Finite false 3999999999999999999999999999999 (-31))]
  = [Some "2-for-1"; Some "Reverse 2-for-1"; Some "2-for-1"; Some "4-for-1";
     Some "Reverse 2-for-1"; Some "Reverse 2-for-1";
     Some "Reverse -2-for-1"; Some "Reverse 0-for-1"; None;
     Some "1000000000000000000000000000-for-1";
     Some "Reverse 1000000000000000000000000000-for-1"; None;
     Some "Reverse 2-for-1"]%string.
Proof. vm_compute. reflexivity. Qed.

Lemma round_half_even_nearest a b :
  0 < b -> nearest a b (round_half_even a b).
Proof.
  intros Hb. unfold nearest, round_half_even.
  pose proof (Z.div_mod a b ltac:(lia)) as Hdm.
  pose proof (Z.mod_pos_bound a b Hb) as Hr.
  destruct (Z.compare_spec (2 * (a mod b)) b) as [E|E|E];
    [destruct (Z.even (a / b))| |]; nia.
Qed.

Lemma denominator_pos e : 0 < denominator e.
Proof. unfold denominator. apply Z.pow_pos_nonneg; lia. Qed.

(** The claim as stated fails at a factor of 10^28: it is greater than 1,
    and [quantize] refuses a result of 29 digits. *)
Lemma split_ratio_large_factor_none :
  gt_one false 1 28 = true /\
  compute_split_ratio_str (PyNumber (Finite false 1 28)) = None.
Proof. split; vm_compute; reflexivity. Qed.

(** C9 (amended). Split-ratio formatting: 2.0 gives "2-for-1", 0.5 gives
    "Reverse 2-for-1"; a missing, empty or unparseable factor and a factor
    equal to 1 give None; a finite factor above 1 gives "N-for-1" with N the
    factor rounded half-even to an integer, and None when N has more than 28
    digits; a positive factor below 1 gives "Reverse N-for-1" with N the
    reciprocal, computed to 28 significant digits, rounded half-even to an
    integer, and None when N has more than 28 digits. *)
Theorem split_ratio_formatting :
  compute_split_ratio_str (PyNumber (Finite false 20 (-1))) = Some "2-for-1"%string /\
  compute_split_ratio_str (PyNumber (Finite false 5 (-1)))
    = Some "Reverse 2-for-1"%string /\
  compute_split_ratio_str PyNone = None /\
  compute_split_ratio_str PyEmpty = None /\
  (forall text, compute_split_ratio_str (PyUnparseable text) = None) /\
  (forall s c e, eq_one s c e = true ->
     compute_split_ratio_str (PyNumber (Finite s c e)) = None) /\
  (forall c e, gt_one false c e = true ->
     let n := round_half_even (numerator c e) (denominator e) in
     nearest (numerator c e) (denominator e) n /\
     compute_split_ratio_str (PyNumber (Finite false c e))
     = if n <? 10 ^ 28 then Some (str n +:+ "-for-1") else None) /\
  (forall c e, c <> 0%N ->
     eq_one false c e = false -> gt_one false c e = false ->
     let q := fst (reciprocal c e) in
     let t := snd (reciprocal c e) in
     let n := round_half_even (q * 10 ^ Z.max t 0) (10 ^ Z.max (- t) 0) in
     nearest (10 ^ (digits c + 27)) (Z.of_N c) q /\
     nearest (q * 10 ^ Z.max t 0) (10 ^ Z.max (- t) 0) n /\
     compute_split_ratio_str (PyNumber (Finite false c e))
     = if n <? 10 ^ 28 then Some ("Reverse " +:+ str n +:+ "-for-1")
       else None).
Proof.
  repeat split.
  - intros s c e H. simpl. by rewrite H.
  - apply round_half_even_nearest, denominator_pos.
  - simpl. destruct (eq_one false c e) eqn:E1.
    + unfold eq_one, gt_one in *. simpl in *.
      apply Z.eqb_eq in E1. apply Z.ltb_lt in H. lia.
    + rewrite H. unfold quantize_unit, prec.
      by destruct (_ <? _).
  - unfold reciprocal; simpl. replace (digits c + prec - 1) with (digits c + 27)
      by (unfold prec; lia).
    apply round_half_even_nearest. lia.
  - apply round_half_even_nearest. apply Z.pow_pos_nonneg; lia.
  - simpl. rewrite H0, H1. apply N.eqb_neq in H. rewrite H.
    destruct (reciprocal c e) as [q t]; simpl.
    unfold quantize_unit, prec. by destruct (_ <? _).
Qed.

End SplitFacts.

(** ** Indicator ingestion *)

Section IndicatorFacts.
Import Indicators.
Implicit Types (t : list row) (r : row) (s : state) (e : entry)
  (dd : list (Z * num)) (c : string).

(** The scenario of the specification: watermark 2024-01-01, upstream
    2024-02-01 and 2024-01-01 (newest first); one row is copied in. *)
Example monthly_rate_scenario :
  let store : gmap interval (list row) :=
    {[ monthly := [mkRow 1 1 237 738886 {[ "MEFFRP_value" := NFloat (Fin 21 (-2)) ]}] ]} in
  let up : upstream := fun f i =>
    match f with
    | FEDERAL_FUNDS_RATE =>
        Return (DictWithData [mkEntry (Some 738917) "5.5" (Some (Fin 11 (-1)));
                              mkEntry (Some 738886) "5.25" (Some (Fin 21 (-2)))])
    | _ => Raise (RequestError "offline")
    end in
  let s := fst (process_item up monthly
                  ("Federal_funds_interval_list", [daily; weekly; monthly])
                  (mkState store [] [] [] [] 0)) in
  statements s = [COPY monthly "MEFFRP_value" [(2, 237, 738917, NFloat (Fin 11 (-1)))]]
  /\ total_indicators_inserted s = 1.
Proof. vm_compute. split; reflexivity. Qed.

Lemma filter_new_kept prev l : forall kept,
  filter_new prev l = Return kept ->
  Forall (fun e => exists d, entry_date e = Some d /\ prev < d) kept /\
  (forall e d, e ∈ l -> entry_date e = Some d -> prev < d -> e ∈ kept) /\
  (forall e, e ∈ kept -> e ∈ l).
Proof.
  induction l as [|e l IH]; simpl; intros kept H.
  - inversion H; subst. split; [constructor|]. split; [|done].
    intros e d He. by apply elem_of_nil in He.
  - destruct (entry_date e) as [d|] eqn:Ed; [|done].
    destruct (filter_new prev l) as [r|]; [|done].
    destruct (IH r eq_refl) as (IH1 & IH2 & IH3).
    inversion H; subst; clear H.
    destruct (prev <? d) eqn:Hlt.
    + apply Z.ltb_lt in Hlt. split; [|split].
      * constructor; [by exists d | done].
      * intros e' d' He' Hd' Hlt'. apply elem_of_cons in He' as [->|He'].
        -- apply elem_of_cons; by left.
        -- apply elem_of_cons; right. by eapply IH2.
      * intros e' He'. apply elem_of_cons in He' as [->|He'];
          apply elem_of_cons; [by left | right; by apply IH3].
    + apply Z.ltb_ge in Hlt. split; [done|]. split.
      * intros e' d' He' Hd' Hlt'. apply elem_of_cons in He' as [->|He'].
        -- rewrite Ed in Hd'. inversion Hd'; subst. lia.
        -- by eapply IH2.
      * intros e' He'. apply elem_of_cons; right. by apply IH3.
Qed.

Lemma step_entry_store_beyond c prev e d0 date v :
  entry_date e = Some d0 -> prev < d0 ->
  step_entry c prev e = Store date v -> beyond c prev date.
Proof.
  unfold step_entry, beyond. intros -> Hlt.
  destruct (bool_decide (c = "WEFFRP_value")); simpl.
  - destruct (d0 - 5 =? prev) eqn:E; [done|]. apply Z.eqb_neq in E.
    destruct (bool_decide _); [done|].
    destruct (entry_float e) as [x|]; [|done].
    destruct (integer_column c).
    + destruct (int_of_float x) as [n|[]]; intros H; inversion H; subst; lia.
    + intros H; inversion H; subst; lia.
  - destruct (bool_decide _); [done|].
    destruct (entry_float e) as [x|]; [|done].
    destruct (integer_column c).
    + destruct (int_of_float x) as [n|[]]; intros H; inversion H; subst; lia.
    + intros H; inversion H; subst; lia.
Qed.

Lemma dict_set_dates date v dd :
  forall d, d ∈ map fst (dict_set date v dd) <-> d = date \/ d ∈ map fst dd.
Proof.
  induction dd as [|[d1 v1] dd IH]; simpl; intros d.
  - rewrite elem_of_cons. split; intros [?|?]; auto.
  - destruct (d1 =? date) eqn:E; simpl.
    + apply Z.eqb_eq in E; subst. rewrite !elem_of_cons. tauto.
    + rewrite !elem_of_cons, IH. tauto.
Qed.

Lemma build_date_data_dates c prev nd : forall dd ws ws' dd',
  build_date_data c prev nd dd ws = (ws', Return dd') ->
  forall d, d ∈ map fst dd' ->
    d ∈ map fst dd \/
    exists e v, e ∈ nd /\ step_entry c prev e = Store d v.
Proof.
  induction nd as [|e nd IH]; simpl; intros dd ws ws' dd' H d Hd.
  - inversion H; subst. by left.
  - destruct (step_entry c prev e) as [| |date v|err] eqn:Es.
    + destruct (IH _ _ _ _ H d Hd) as [?|(e' & v' & He' & Hs)]; [by left|].
      right. exists e', v'. split; [|done]. apply elem_of_cons; by right.
    + destruct (IH _ _ _ _ H d Hd) as [?|(e' & v' & He' & Hs)]; [by left|].
      right. exists e', v'. split; [|done]. apply elem_of_cons; by right.
    + destruct (IH _ _ _ _ H d Hd) as [Hin|(e' & v' & He' & Hs)].
      * apply dict_set_dates in Hin as [->|Hin]; [|by left].
        right. exists e, v. split; [|done]. apply elem_of_cons; by left.
      * right. exists e', v'. split; [|done]. apply elem_of_cons; by right.
    + inversion H.
Qed.

Lemma existing_dates_row t dl date pk :
  existing_dates t dl date = Some pk ->
  exists r, r ∈ t /\ row_date r = date /\ row_PK r = pk.
Proof.
  induction t as [|r t IH]; simpl; [done|].
  destruct (existing_dates t dl date) as [pk'|] eqn:E.
  - intros H; inversion H; subst.
    destruct (IH eq_refl) as (r' & Hin & Hd & Hp).
    exists r'. split; [apply elem_of_cons; by right | done].
  - destruct (row_date r =? date) eqn:Ed; simpl; [|done].
    destruct (bool_decide _); [|done].
    intros H; inversion H; subst. apply Z.eqb_eq in Ed.
    exists r. split; [apply elem_of_cons; by left | done].
Qed.

Lemma split_plan_updates c ex items : forall id_ u,
  u ∈ fst (split_plan c ex id_ items) ->
  exists date v pk, u = (v, pk, c) /\ date ∈ map fst items /\ ex date = Some pk.
Proof.
  induction items as [|[date v] items IH]; simpl; intros id_ u Hu.
  - by apply elem_of_nil in Hu.
  - destruct (split_plan c ex (id_ + 1) items) as [ups ins] eqn:E.
    specialize (IH (id_ + 1)). rewrite E in IH. simpl in IH.
    destruct (ex date) as [pk|] eqn:Ex; simpl in Hu.
    + apply elem_of_cons in Hu as [->|Hu].
      * exists date, v, pk. split; [done|]. split; [|done].
        apply elem_of_cons; by left.
      * destruct (IH u Hu) as (d' & v' & pk' & -> & Hin & Hex).
        exists d', v', pk'. split; [done|]. split; [|done].
        apply elem_of_cons; by right.
    + destruct (IH u Hu) as (d' & v' & pk' & -> & Hin & Hex).
      exists d', v', pk'. split; [done|]. split; [|done].
      apply elem_of_cons; by right.
Qed.

Lemma split_plan_inserts c ex items : forall id_ i,
  i ∈ snd (split_plan c ex id_ items) ->
  exists id' date v, i = (id', 237, date, v) /\ (date, v) ∈ items /\
                     ex date = None.
Proof.
  induction items as [|[date v] items IH]; simpl; intros id_ i Hi.
  - by apply elem_of_nil in Hi.
  - destruct (split_plan c ex (id_ + 1) items) as [ups ins] eqn:E.
    specialize (IH (id_ + 1)). rewrite E in IH. simpl in IH.
    destruct (ex date) as [pk|] eqn:Ex; simpl in Hi.
    + destruct (IH i Hi) as (i' & d' & v' & -> & Hin & Hex).
      exists i', d', v'. split; [done|]. split; [|done].
      apply elem_of_cons; by right.
    + apply elem_of_cons in Hi as [->|Hi].
      * exists (id_ + 1), date, v. split; [done|]. split; [|done].
        apply elem_of_cons; by left.
      * destruct (IH i Hi) as (i' & d' & v' & -> & Hin & Hex).
        exists i', d', v'. split; [done|]. split; [|done].
        apply elem_of_cons; by right.
Qed.

(** An update rewrites cells in place: a row of the result is a row of the
    table with the same key and date, changed only if an update names its key. *)
Lemma execute_updates_rows ups : forall t r',
  r' ∈ fold_left execute_update ups t ->
  exists r, r ∈ t /\ row_PK r' = row_PK r /\ row_date r' = row_date r /\
            (r' = r \/ exists u, u ∈ ups /\ snd (fst u) = row_PK r).
Proof.
  induction ups as [|[[v pk] col] ups IH]; simpl; intros t r' H.
  - exists r'. split; [done|]. split; [done|]. split; [done|]. by left.
  - destruct (IH _ _ H) as (r1 & Hr1 & Hpk & Hd & Hch).
    apply list_elem_of_fmap in Hr1 as (r & -> & Hr).
    exists r. split; [done|]. unfold update_row in *. simpl in *.
    destruct (row_PK r =? pk) eqn:E; simpl in *.
    + apply Z.eqb_eq in E. split; [done|]. split; [done|]. right.
      exists (v, pk, col). split; [apply elem_of_cons; by left | done].
    + split; [done|]. split; [done|].
      destruct Hch as [->|(u & Hu & Hupk)]; [by left|].
      right. exists u. split; [apply elem_of_cons; by right | done].
Qed.

Lemma copy_expert_rows c ins : forall t r',
  r' ∈ copy_expert c t ins ->
  r' ∈ t \/ exists i, i ∈ ins /\ row_date r' = snd (fst i).
Proof.
  unfold copy_expert.
  induction ins as [|[[[id_ k] date] v] ins IH]; simpl; intros t r' H.
  - by left.
  - destruct (IH _ _ H) as [Hin|(i & Hi & Hd)].
    + apply elem_of_app in Hin as [Hin|Hin]; [by left|].
      apply list_elem_of_singleton in Hin as ->. right.
      exists (id_, k, date, v). split; [apply elem_of_cons; by left | done].
    + right. exists i. split; [apply elem_of_cons; by right | done].
Qed.

Lemma NoDup_PK_eq t r1 r2 :
  NoDup (map row_PK t) -> r1 ∈ t -> r2 ∈ t -> row_PK r1 = row_PK r2 ->
  r1 = r2.
Proof.
  induction t as [|r t IH]; simpl; intros Hnd H1 H2 E.
  - by apply elem_of_nil in H1.
  - apply NoDup_cons in Hnd as [Hr Hnd].
    apply elem_of_cons in H1 as [->|H1]; apply elem_of_cons in H2 as [->|H2].
    + done.
    + exfalso. apply Hr. rewrite E. apply list_elem_of_fmap. by exists r2.
    + exfalso. apply Hr. rewrite <- E. apply list_elem_of_fmap. by exists r1.
    + by apply IH.
Qed.

(** Loading touches only rows whose date is a key of [date_data]. *)
Lemma load_rows c t dd r' :
  NoDup (map row_PK t) ->
  r' ∈ load c t (plan c t dd) ->
  r' ∈ t \/ row_date r' ∈ map fst dd.
Proof.
  intros Hnd H. unfold load in H.
  apply copy_expert_rows in H as [H|(i & Hi & Hd)].
  - apply execute_updates_rows in H as (r & Hr & Hpk & Hdate & [->|Hu]).
    + by left.
    + destruct Hu as (u & Hu & Hupk). right.
      apply split_plan_updates in Hu as (date & v & pk & -> & Hin & Hex).
      apply existing_dates_row in Hex as (r0 & Hr0 & Hd0 & Hp0).
      simpl in Hupk. assert (r0 = r) as ->.
      { apply (NoDup_PK_eq t); [done..|]. by rewrite Hp0. }
      by rewrite Hdate, Hd0.
  - right. apply split_plan_inserts in Hi as (id' & date & v & -> & Hin & _).
    simpl in Hd. rewrite Hd. apply list_elem_of_fmap. by exists (date, v).
Qed.

Lemma elem_of_rev {A} (x : A) (l : list A) : x ∈ rev l <-> x ∈ l.
Proof. rewrite !list_elem_of_In. symmetry. apply in_rev. Qed.

Lemma extract_extracted up indicator f direct list_ c prev ws ws'
    (res : outcome (list (Z * num))) :
  extract up indicator f direct list_ c prev ws = Extracted ws' res ->
  exists data l kept,
    fetch up indicator f direct list_ = Return data /\
    data_list data = Return l /\
    filter_new prev l = Return kept /\
    rev kept <> [] /\
    build_date_data c prev (rev kept) [] ws = (ws', res).
Proof.
  unfold extract. intros H.
  destruct (fetch up indicator f direct list_) as [data|] eqn:E1; [|done].
  destruct (data_list data) as [l|] eqn:E2; [|done].
  destruct (filter_new prev l) as [kept|] eqn:E3; [|done].
  destruct (rev kept) as [|e nd] eqn:Erev; [done|].
  destruct (build_date_data c prev (e :: nd) [] ws) as [ws1 r1] eqn:Eb.
  inversion H; subst. exists data, l, kept. rewrite Erev. by repeat split.
Qed.

Lemma extract_dates_beyond up indicator f direct list_ c prev ws ws' dd :
  extract up indicator f direct list_ c prev ws = Extracted ws' (Return dd) ->
  forall d, d ∈ map fst dd -> beyond c prev d.
Proof.
  intros H d Hd.
  apply extract_extracted in H as (data & l & kept & _ & _ & Hf & _ & Hb).
  destruct (build_date_data_dates _ _ _ _ _ _ _ Hb d Hd)
    as [Hin|(e & v & He & Hs)]; [by apply elem_of_nil in Hin|].
  apply (proj1 (elem_of_rev _ _)) in He.
  destruct (filter_new_kept _ _ _ Hf) as (Hk & _ & _).
  rewrite Forall_forall in Hk. destruct (Hk e He) as (d0 & Hd0 & Hlt).
  by eapply step_entry_store_beyond.
Qed.

(** What one item does to the store: nothing, or the plan of its
    [date_data] loaded into the table of its interval. *)
Lemma process_item_store up list_ indicator interval_ s :
  let s' := fst (process_item up list_ (indicator, interval_) s) in
  (db s' = db s /\ statements s' = statements s /\
   total_indicators_inserted s' = total_indicators_inserted s) \/
  exists suffix f direct ws d0 dd,
    indicator_map indicator = Some (suffix, f, direct) /\
    let c := prefix_map list_ +:+ suffix in
    let prev := prev_date_of c (table s list_) in
    extract up indicator f direct list_ c prev (shown_warnings s)
      = Extracted ws (Return (d0 :: dd)) /\
    db s' = <[list_ := load c (table s list_)
                         (plan c (table s list_) (d0 :: dd))]> (db s) /\
    statements s' = statements s ++
                    written list_ c (plan c (table s list_) (d0 :: dd)) /\
    snd (process_item up list_ (indicator, interval_) s) = None.
Proof.
  unfold process_item.
  destruct (negb (bool_decide (list_ ∈ interval_))).
  { destruct (bool_decide _); simpl; by left. }
  destruct (indicator_map indicator) as [[[suffix f] direct]|] eqn:Em;
    [|by left].
  destruct (extract up indicator f direct list_ (prefix_map list_ +:+ suffix)
              (prev_date_of (prefix_map list_ +:+ suffix) (table s list_))
              (shown_warnings s)) as [err| |ws [[|d0 dd]|err]] eqn:Ex;
    simpl; try (by left).
  - destruct (bool_decide _); simpl; by left.
  - right. exists suffix, f, direct, ws, d0, dd. by rewrite Ex.
Qed.

(** C3 (amended). Watermark monotonicity: one item leaves the tables of the
    other intervals alone, and a row of its table that it inserted or updated
    is dated after the watermark of its column; except for the weekly
    federal funds rate, whose dates are stored five days back: such a row is
    dated within five days before the watermark or after it, and never on
    it. *)
Theorem watermark_monotonicity up list_ indicator interval_ s :
  NoDup (map row_PK (table s list_)) ->
  forall column_suffix data_func direct,
  indicator_map indicator = Some (column_suffix, data_func, direct) ->
  let column_name := prefix_map list_ +:+ column_suffix in
  let prev_date := prev_date_of column_name (table s list_) in
  let s' := fst (process_item up list_ (indicator, interval_) s) in
  (forall other, other <> list_ -> table s' other = table s other) /\
  (forall r, r ∈ table s' list_ ->
     r ∈ table s list_ \/
     (column_name <> "WEFFRP_value" /\ prev_date < row_date r) \/
     (column_name = "WEFFRP_value" /\
      prev_date - 5 < row_date r /\ row_date r <> prev_date)).
Proof.
  intros Hnd suffix f direct Hm c prev s'.
  destruct (process_item_store up list_ indicator interval_ s)
    as [(Hdb & _)|(suffix' & f' & direct' & ws & d0 & dd & Hm' & Hex & Hdb & _)];
    fold s' in Hdb.
  - unfold table. rewrite Hdb. split; [done|]. intros r Hr. by left.
  - rewrite Hm in Hm'. inversion Hm'; subst suffix' f' direct'. clear Hm'.
    split.
    + intros other Hne. unfold table. rewrite Hdb.
      by rewrite lookup_total_insert_ne.
    + intros r Hr. unfold table in Hr. rewrite Hdb in Hr.
      rewrite lookup_total_insert_eq in Hr.
      apply load_rows in Hr as [Hr|Hr]; [by left| |done]. right.
      pose proof (extract_dates_beyond _ _ _ _ _ _ _ _ _ _ Hex _ Hr) as Hb.
      unfold beyond in Hb. fold c prev in Hb.
      destruct (bool_decide (c = "WEFFRP_value")) eqn:Ec.
      * apply bool_decide_eq_true in Ec. right. by split.
      * apply bool_decide_eq_false in Ec. left. by split.
Qed.

Lemma extract_failed up indicator f direct list_ c prev ws err :
  fetch up indicator f direct list_ = Raise err \/
  (exists data, fetch up indicator f direct list_ = Return data /\
     (data_list data = Raise err \/
      exists l, data_list data = Return l /\ filter_new prev l = Raise err)) ->
  extract up indicator f direct list_ c prev ws = Failed err.
Proof.
  unfold extract.
  intros [->|(data & -> & [->|(l & -> & ->)])]; reflexivity.
Qed.

Lemma process_item_failed up list_ indicator interval_ s suffix f direct err :
  list_ ∈ interval_ ->
  indicator_map indicator = Some (suffix, f, direct) ->
  extract up indicator f direct list_ (prefix_map list_ +:+ suffix)
    (prev_date_of (prefix_map list_ +:+ suffix) (table s list_))
    (shown_warnings s) = Failed err ->
  process_item up list_ (indicator, interval_) s = (s, Some err).
Proof.
  intros Hin Hm Hex. unfold process_item.
  rewrite bool_decide_eq_true_2 by done. simpl. by rewrite Hm, Hex.
Qed.

Lemma process_items_app up list_ items1 : forall items2 s,
  process_items up list_ (items1 ++ items2) s =
  match process_items up list_ items1 s with
  | (s1, None) => process_items up list_ items2 s1
  | (s1, Some err) => (s1, Some err)
  end.
Proof.
  induction items1 as [|item items1 IH]; simpl; intros items2 s; [done|].
  destruct (process_item up list_ item s) as [s1 [err|]]; [done|].
  apply IH.
Qed.

Lemma process_intervals_app up items il1 : forall il2 s,
  process_intervals up (il1 ++ il2) items s =
  match process_intervals up il1 items s with
  | (s1, None) => process_intervals up il2 items s1
  | (s1, Some err) => (s1, Some err)
  end.
Proof.
  induction il1 as [|list_ il1 IH]; simpl; intros il2 s; [done|].
  destruct (process_items up list_ items s) as [s1 [err|]]; [done|].
  apply IH.
Qed.

(** C6 (amended). A failure of the fetch or of the parsing of the payload
    for one (indicator, interval) is not caught inside
    [process_economic_indicators]: the run ends there with that exception,
    the store is as the earlier pairs left it and no later pair is
    processed; [resolve_EIE] catches the exception and counts the indicator
    stage as no notice and no insert. *)
Theorem indicator_failure_ends_run up store shown already
    il1 list_ il2 items1 indicator interval_ items2 s1 s2 suffix f direct err :
  let items := items1 ++ (indicator, interval_) :: items2 in
  let prev_date :=
    prev_date_of (prefix_map list_ +:+ suffix) (table s2 list_) in
  process_intervals up il1 items (mkState store [] already shown [] 0)
    = (s1, None) ->
  process_items up list_ items1 s1 = (s2, None) ->
  list_ ∈ interval_ ->
  indicator_map indicator = Some (suffix, f, direct) ->
  (fetch up indicator f direct list_ = Raise err \/
   (exists data, fetch up indicator f direct list_ = Return data /\
      (data_list data = Raise err \/
       exists l, data_list data = Return l /\
                 filter_new prev_date l = Raise err))) ->
  process_economic_indicators up store (il1 ++ list_ :: il2) items
    shown already = (s2, Raise err) /\
  (il1 ++ list_ :: il2 = interval_list -> items = interval_dict ->
   shown = [] -> already = [] ->
   resolve_step1 up store = (s2, ([], 0))).
Proof.
  intros items prev_date H1 H2 Hin Hm Hfail.
  assert (process_economic_indicators up store (il1 ++ list_ :: il2) items
            shown already = (s2, Raise err)) as Hrun.
  { unfold process_economic_indicators.
    rewrite process_intervals_app, H1. simpl.
    unfold items at 1. rewrite process_items_app, H2.
    cbn [process_items].
    rewrite (process_item_failed up list_ indicator interval_ s2 suffix f
               direct err Hin Hm); [done|].
    by apply extract_failed. }
  split; [exact Hrun|].
  intros Hil Hit -> ->. unfold resolve_step1.
  rewrite <- Hil, <- Hit. by rewrite Hrun.
Qed.

(** *** Watermarks and loading *)

Lemma fold_max_ge l : forall x0,
  x0 <= fold_left Z.max l x0 /\ forall y, y ∈ l -> y <= fold_left Z.max l x0.
Proof.
  induction l as [|x l IH]; simpl; intros x0.
  - split; [lia|]. intros y Hy. by apply elem_of_nil in Hy.
  - destruct (IH (Z.max x0 x)) as [H1 H2]. split; [lia|].
    intros y Hy. apply elem_of_cons in Hy as [->|Hy]; [lia|by apply H2].
Qed.

Lemma fold_max_in l : forall x0, fold_left Z.max l x0 ∈ x0 :: l.
Proof.
  induction l as [|x l IH]; simpl; intros x0.
  - apply elem_of_cons; by left.
  - specialize (IH (Z.max x0 x)). apply elem_of_cons in IH as [E|IH].
    + rewrite E. destruct (Z.max_spec x0 x) as [[_ ->]|[_ ->]].
      * apply elem_of_cons; right. apply elem_of_cons; by left.
      * apply elem_of_cons; by left.
    + apply elem_of_cons; right. apply elem_of_cons; by right.
Qed.

Lemma max_list_ge l x : x ∈ l -> exists m, max_list l = Some m /\ x <= m.
Proof.
  destruct l as [|x0 l]; [intros H; by apply elem_of_nil in H|].
  intros H. exists (fold_left Z.max l x0). split; [done|].
  destruct (fold_max_ge l x0) as [H1 H2].
  apply elem_of_cons in H as [->|H]; [done|by apply H2].
Qed.

Lemma max_list_in l m : max_list l = Some m -> m ∈ l.
Proof.
  destruct l as [|x0 l]; [done|]. intros H; inversion H. apply fold_max_in.
Qed.

Lemma valued_elem c t d :
  d ∈ map row_date (List.filter (has_value c) t) <->
  exists r, r ∈ t /\ has_value c r = true /\ row_date r = d.
Proof.
  rewrite list_elem_of_fmap. split.
  - intros (r & -> & Hr). apply list_elem_of_In, filter_In in Hr as [Hr Hv].
    exists r. by rewrite list_elem_of_In.
  - intros (r & Hr & Hv & <-). exists r. split; [done|].
    apply list_elem_of_In, filter_In. by rewrite <- list_elem_of_In.
Qed.

Lemma prev_date_ge c t r :
  r ∈ t -> has_value c r = true -> row_date r <= prev_date_of c t.
Proof.
  intros Hr Hv. unfold prev_date_of, max_date.
  destruct (max_list_ge (map row_date (List.filter (has_value c) t))
              (row_date r)) as (m & -> & Hm); [|done].
  apply valued_elem. by exists r.
Qed.

Lemma prev_date_cases c t :
  (prev_date_of c t = default_prev_date /\
   forall r, r ∈ t -> has_value c r = false) \/
  (exists r, r ∈ t /\ has_value c r = true /\ row_date r = prev_date_of c t).
Proof.
  unfold prev_date_of, max_date.
  destruct (max_list (map row_date (List.filter (has_value c) t)))
    as [m|] eqn:E.
  - right. apply max_list_in, valued_elem in E. exact E.
  - left. split; [done|]. intros r Hr.
    destruct (has_value c r) eqn:Hv; [|done].
    destruct (max_list_ge (map row_date (List.filter (has_value c) t))
                (row_date r)) as (m & Hm & _); [|congruence].
    apply valued_elem. by exists r.
Qed.

Lemma update_row_date u r : row_date (update_row u r) = row_date r.
Proof. unfold update_row. by destruct (_ =? _). Qed.

Lemma update_row_PK u r : row_PK (update_row u r) = row_PK r.
Proof. unfold update_row. by destruct (_ =? _). Qed.

Lemma update_row_has_other u r c :
  snd u <> c -> has_value c (update_row u r) = has_value c r.
Proof.
  intros Hne. unfold update_row, has_value.
  destruct (_ =? _); [|done]. simpl. by rewrite lookup_insert_ne.
Qed.

Lemma update_row_has_mono u r c :
  has_value c r = true -> has_value c (update_row u r) = true.
Proof.
  unfold update_row, has_value. destruct (_ =? _); [|done]. simpl.
  intros H. apply bool_decide_eq_true in H. apply bool_decide_eq_true.
  destruct (decide (snd u = c)) as [->|Hne].
  - rewrite lookup_insert_eq. by eexists.
  - by rewrite lookup_insert_ne.
Qed.

Lemma update_row_has_hit u r :
  row_PK r = snd (fst u) -> has_value (snd u) (update_row u r) = true.
Proof.
  intros E. unfold update_row, has_value.
  apply Z.eqb_eq in E. rewrite E. simpl. apply bool_decide_eq_true.
  rewrite lookup_insert_eq. by eexists.
Qed.

Lemma execute_updates_map ups : forall t,
  fold_left execute_update ups t = map (updated ups) t.
Proof.
  induction ups as [|u ups IH]; simpl; intros t.
  - unfold updated. simpl. by rewrite map_id.
  - rewrite IH. unfold execute_update. rewrite map_map. done.
Qed.

Lemma updated_date ups : forall r, row_date (updated ups r) = row_date r.
Proof.
  unfold updated. induction ups as [|u ups IH]; simpl; intros r; [done|].
  by rewrite IH, update_row_date.
Qed.

Lemma updated_PK ups : forall r, row_PK (updated ups r) = row_PK r.
Proof.
  unfold updated. induction ups as [|u ups IH]; simpl; intros r; [done|].
  by rewrite IH, update_row_PK.
Qed.

Lemma updated_has_mono ups c : forall r,
  has_value c r = true -> has_value c (updated ups r) = true.
Proof.
  unfold updated. induction ups as [|u ups IH]; simpl; intros r H; [done|].
  by apply IH, update_row_has_mono.
Qed.

Lemma updated_has_other ups c : forall r,
  Forall (fun u => snd u <> c) ups ->
  has_value c (updated ups r) = has_value c r.
Proof.
  unfold updated. induction ups as [|u ups IH]; simpl; intros r H; [done|].
  apply Forall_cons in H as [Hu H]. rewrite IH by done.
  by apply update_row_has_other.
Qed.

Lemma updated_has_hit ups u : forall r,
  u ∈ ups -> row_PK r = snd (fst u) ->
  has_value (snd u) (updated ups r) = true.
Proof.
  unfold updated. induction ups as [|u' ups IH]; simpl; intros r Hu E.
  - by apply elem_of_nil in Hu.
  - apply elem_of_cons in Hu as [<-|Hu].
    + apply (updated_has_mono ups). by apply update_row_has_hit.
    + apply IH; [done|]. by rewrite update_row_PK.
Qed.

Lemma next_pk_fresh t : next_pk t ∉ map row_PK t.
Proof.
  intros H. unfold next_pk in H.
  destruct (max_list_ge _ _ H) as (m & Hm & Hle). rewrite Hm in *.
  simpl in Hle. lia.
Qed.

Lemma copy_expert_keeps c ins : forall t r, r ∈ t -> r ∈ copy_expert c t ins.
Proof.
  unfold copy_expert.
  induction ins as [|[[[id_ k] date] v] ins IH]; simpl; intros t r H; [done|].
  apply IH. apply elem_of_app; by left.
Qed.

Lemma copy_expert_new c ins : forall t id_ k date v,
  (id_, k, date, v) ∈ ins ->
  exists r, r ∈ copy_expert c t ins /\ row_date r = date /\
            row_cells r = {[ c := v ]}.
Proof.
  unfold copy_expert.
  induction ins as [|[[[id1 k1] date1] v1] ins IH]; simpl;
    intros t id_ k date v H.
  - by apply elem_of_nil in H.
  - apply elem_of_cons in H as [E|H].
    + inversion E; subst. eexists. split.
      * apply (copy_expert_keeps c ins). apply elem_of_app; right.
        apply list_elem_of_singleton. reflexivity.
      * done.
    + by eapply IH.
Qed.

Lemma copy_expert_cells c ins : forall t r,
  r ∈ copy_expert c t ins ->
  r ∈ t \/ exists i, i ∈ ins /\ row_date r = snd (fst i) /\
                     row_cells r = {[ c := snd i ]}.
Proof.
  unfold copy_expert.
  induction ins as [|[[[id_ k] date] v] ins IH]; simpl; intros t r H.
  - by left.
  - destruct (IH _ _ H) as [Hin|(i & Hi & Hd)].
    + apply elem_of_app in Hin as [Hin|Hin]; [by left|].
      apply list_elem_of_singleton in Hin as ->. right.
      exists (id_, k, date, v). split; [apply elem_of_cons; by left | done].
    + right. exists i. split; [apply elem_of_cons; by right | done].
Qed.

Lemma copy_expert_NoDup c ins : forall t,
  NoDup (map row_PK t) -> NoDup (map row_PK (copy_expert c t ins)).
Proof.
  unfold copy_expert.
  induction ins as [|[[[id_ k] date] v] ins IH]; simpl; intros t H; [done|].
  apply IH. rewrite map_app. simpl. apply NoDup_app. split; [done|].
  split; [|apply NoDup_singleton].
  intros x Hx Hx'. apply list_elem_of_singleton in Hx' as ->.
  by apply (next_pk_fresh t).
Qed.

Lemma load_NoDup c t p :
  NoDup (map row_PK t) -> NoDup (map row_PK (load c t p)).
Proof.
  intros H. unfold load. apply copy_expert_NoDup.
  rewrite execute_updates_map, map_map.
  erewrite map_ext; [exact H|]. intros r. apply updated_PK.
Qed.

Lemma has_value_singleton c c' v r :
  row_cells r = {[ c := v ]} -> has_value c' r = bool_decide (c = c').
Proof.
  intros E. unfold has_value. rewrite E.
  destruct (decide (c = c')) as [->|Hne].
  - rewrite lookup_singleton_eq. rewrite !bool_decide_eq_true_2; eauto.
  - rewrite lookup_singleton_ne by done.
    rewrite !bool_decide_eq_false_2; [done..|]. by intros [? ?].
Qed.

Lemma plan_update_columns c t dd :
  Forall (fun u => snd u = c) (fst (plan c t dd)).
Proof.
  apply Forall_forall. intros u Hu.
  apply split_plan_updates in Hu as (d & v & pk & -> & _). done.
Qed.

(** Loading a plan for one column leaves the dated values of every other
    column as they were. *)
Lemma load_other_column c c' t dd :
  c <> c' -> prev_date_of c' (load c t (plan c t dd)) = prev_date_of c' t.
Proof.
  intros Hne. unfold prev_date_of, max_date. f_equal. f_equal.
  unfold load. generalize (plan_update_columns c t dd).
  destruct (plan c t dd) as [ups ins]. simpl. intros Hups.
  rewrite execute_updates_map.
  assert (forall ins t0,
            map row_date (List.filter (has_value c') (copy_expert c t0 ins))
            = map row_date (List.filter (has_value c') t0)) as Hcopy.
  { clear -Hne. unfold copy_expert.
    induction ins as [|[[[id_ k] date] v] ins IH]; simpl; intros t0; [done|].
    rewrite IH. rewrite List.filter_app, map_app. simpl.
    rewrite (has_value_singleton c c' v) by done.
    destruct (bool_decide (c = c')) eqn:E; simpl.
    - apply bool_decide_eq_true in E. congruence.
    - by rewrite app_nil_r. }
  rewrite Hcopy. clear Hcopy.
  induction t as [|r t IH]; simpl; [done|].
  rewrite updated_has_other.
  - destruct (has_value c' r); simpl; [rewrite updated_date|]; by rewrite IH.
  - eapply Forall_impl; [exact Hups|]. simpl. intros u ->. done.
Qed.

Lemma split_plan_complete c ex items : forall id_ date v,
  (date, v) ∈ items ->
  (exists pk, ex date = Some pk /\
              (v, pk, c) ∈ fst (split_plan c ex id_ items)) \/
  (exists id', (id', 237, date, v) ∈ snd (split_plan c ex id_ items)).
Proof.
  induction items as [|[d1 v1] items IH]; simpl; intros id_ date v H.
  - by apply elem_of_nil in H.
  - specialize (IH (id_ + 1) date v).
    destruct (split_plan c ex (id_ + 1) items) as [ups ins] eqn:E.
    simpl in IH. apply elem_of_cons in H as [E1|H].
    + inversion E1; subst d1 v1.
      destruct (ex date) as [pk|] eqn:Ex; simpl.
      * left. exists pk. split; [done|]. apply elem_of_cons; by left.
      * right. exists (id_ + 1). apply elem_of_cons; by left.
    + destruct (IH H) as [(pk & Hex & Hu)|(id' & Hi)].
      * left. exists pk. split; [done|].
        destruct (ex d1); simpl; [apply elem_of_cons; by right | done].
      * right. exists id'.
        destruct (ex d1); simpl; [done | apply elem_of_cons; by right].
Qed.

(** After loading, every date of [date_data] has a row holding a value. *)
Lemma load_stores c t dd d :
  d ∈ map fst dd ->
  exists r, r ∈ load c t (plan c t dd) /\ row_date r = d /\
            has_value c r = true.
Proof.
  intros Hd. apply list_elem_of_fmap in Hd as ([d' v] & -> & Hin). simpl.
  unfold load, plan.
  destruct (split_plan_complete c (existing_dates t (map fst dd)) dd
              (max_id t) d' v Hin) as [(pk & Hex & Hu)|(id' & Hi)].
  - apply existing_dates_row in Hex as (r0 & Hr0 & Hd0 & Hp0).
    exists (updated (fst (split_plan c (existing_dates t (map fst dd))
                            (max_id t) dd)) r0).
    split; [|split].
    + apply copy_expert_keeps. rewrite execute_updates_map.
      apply list_elem_of_fmap. by exists r0.
    + by rewrite updated_date.
    + apply (updated_has_hit _ (v, pk, c)); [done|]. by rewrite Hp0.
  - destruct (copy_expert_new c _ (fold_left execute_update
                (fst (split_plan c (existing_dates t (map fst dd))
                        (max_id t) dd)) t) _ _ _ _ Hi)
      as (r & Hr & Hdate & Hcells).
    exists r. split; [done|]. split; [done|].
    rewrite (has_value_singleton c c v) by done.
    by apply bool_decide_eq_true_2.
Qed.

Lemma load_keeps_value c t dd r :
  r ∈ t -> has_value c r = true ->
  exists r', r' ∈ load c t (plan c t dd) /\ row_date r' = row_date r /\
             has_value c r' = true.
Proof.
  intros Hr Hv. exists (updated (fst (plan c t dd)) r). split; [|split].
  - unfold load. apply copy_expert_keeps. rewrite execute_updates_map.
    apply list_elem_of_fmap. by exists r.
  - apply updated_date.
  - by apply updated_has_mono.
Qed.

(** The watermark after loading: every stored date is at or before it, and
    it is the old watermark or one of the stored dates. *)
Lemma load_watermark c t dd :
  NoDup (map row_PK t) ->
  let w := prev_date_of c t in
  let w' := prev_date_of c (load c t (plan c t dd)) in
  (forall d, d ∈ map fst dd -> d <= w') /\
  (w' = w \/ w' ∈ map fst dd).
Proof.
  intros Hnd w w'. split.
  - intros d Hd. destruct (load_stores c t dd d Hd) as (r & Hr & <- & Hv).
    by apply prev_date_ge.
  - destruct (prev_date_cases c (load c t (plan c t dd)))
      as [[Hw' Hnone]|(r' & Hr' & Hv' & Hd')].
    + left. destruct (prev_date_cases c t) as [[Hw _]|(r & Hr & Hv & _)].
      * unfold w, w'. congruence.
      * destruct (load_keeps_value c t dd r Hr Hv) as (r1 & Hr1 & _ & Hv1).
        rewrite (Hnone r1 Hr1) in Hv1. done.
    + destruct (load_rows c t dd r' Hnd Hr') as [Hin|Hin].
      * left. assert (w' <= w) as Hle.
        { unfold w'. rewrite <- Hd'. by apply prev_date_ge. }
        destruct (prev_date_cases c t) as [[_ Hnone]|(r & Hr & Hv & Hd)].
        -- rewrite (Hnone r' Hin) in Hv'. done.
        -- destruct (load_keeps_value c t dd r Hr Hv)
             as (r1 & Hr1 & Hd1 & Hv1).
           pose proof (prev_date_ge c _ r1 Hr1 Hv1) as Hge.
           rewrite Hd1, Hd in Hge. unfold w, w' in *. lia.
      * right. unfold w'. by rewrite <- Hd'.
Qed.

(** *** Pairs that have nothing left to store *)

Lemma build_date_data_complete c prev nd : forall dd ws ws' dd',
  build_date_data c prev nd dd ws = (ws', Return dd') ->
  (forall d, d ∈ map fst dd -> d ∈ map fst dd') /\
  (forall e d v, e ∈ nd -> step_entry c prev e = Store d v ->
                 d ∈ map fst dd') /\
  (forall e err, e ∈ nd -> step_entry c prev e <> Fail err).
Proof.
  induction nd as [|e nd IH]; simpl; intros dd ws ws' dd' H.
  - inversion H; subst. split; [done|]. split.
    + intros ? ? ? Hin. by apply elem_of_nil in Hin.
    + intros ? ? Hin. by apply elem_of_nil in Hin.
  - destruct (step_entry c prev e) as [| |date v|err] eqn:Es;
      [| | |by inversion H]; destruct (IH _ _ _ _ H) as (I1 & I2 & I3).
    + split; [done|]. split.
      * intros e' d v He' Hs. apply elem_of_cons in He' as [->|He'];
          [congruence | by eapply I2].
      * intros e' err He'. apply elem_of_cons in He' as [->|He'];
          [congruence | by apply I3].
    + split; [done|]. split.
      * intros e' d v He' Hs. apply elem_of_cons in He' as [->|He'];
          [congruence | by eapply I2].
      * intros e' err He'. apply elem_of_cons in He' as [->|He'];
          [congruence | by apply I3].
    + split; [|split].
      * intros d Hd. apply I1, dict_set_dates. by right.
      * intros e' d v' He' Hs. apply elem_of_cons in He' as [->|He'].
        -- rewrite Es in Hs. inversion Hs; subst.
           apply I1, dict_set_dates. by left.
        -- by eapply I2.
      * intros e' err He'. apply elem_of_cons in He' as [->|He'];
          [congruence | by apply I3].
Qed.

Lemma build_date_data_idle c prev nd : forall dd ws,
  (forall e, e ∈ nd -> step_entry c prev e = Skip \/
                       step_entry c prev e = Warn) ->
  exists ws', build_date_data c prev nd dd ws = (ws', Return dd).
Proof.
  induction nd as [|e nd IH]; simpl; intros dd ws H; [by eexists|].
  destruct (H e) as [->| ->]; [apply elem_of_cons; by left| |];
    apply IH; intros e' He'; apply H, elem_of_cons; by right.
Qed.

Lemma filter_new_dates prev l kept :
  filter_new prev l = Return kept ->
  Forall (fun e => is_Some (entry_date e)) l.
Proof.
  revert kept. induction l as [|e l IH]; simpl; intros kept H; [done|].
  destruct (entry_date e) as [d|] eqn:Ed; [|done].
  destruct (filter_new prev l) as [r|]; [|done].
  constructor; [by rewrite Ed | by eapply IH].
Qed.

Lemma filter_new_total prev l :
  Forall (fun e => is_Some (entry_date e)) l ->
  exists kept, filter_new prev l = Return kept.
Proof.
  induction 1 as [|e l [d Hd] _ [kept IH]]; simpl; [by eexists|].
  rewrite Hd, IH. by eexists.
Qed.

(** A settled series leaves nothing to load. *)
Lemma extract_settled up indicator f direct list_ c prev ws data l :
  fetch up indicator f direct list_ = Return data ->
  data_list data = Return l ->
  Forall (fun e => is_Some (entry_date e)) l ->
  settled c prev l ->
  extract up indicator f direct list_ c prev ws = NoNewData \/
  exists ws', extract up indicator f direct list_ c prev ws
              = Extracted ws' (Return []).
Proof.
  intros Hf Hd Hall Hs. unfold extract. rewrite Hf, Hd.
  destruct (filter_new_total prev l Hall) as [kept Hk]. rewrite Hk.
  destruct (rev kept) as [|e nd] eqn:Erev; [by left|]. right.
  destruct (filter_new_kept _ _ _ Hk) as (K1 & _ & K3).
  rewrite Forall_forall in K1.
  destruct (build_date_data_idle c prev (e :: nd) [] ws) as [ws' Hb].
  { intros e' He'. rewrite <- Erev in He'.
    apply (proj1 (elem_of_rev _ _)) in He'.
    destruct (K1 e' He') as (d & Hd' & Hlt). by eapply Hs; [apply K3|..]. }
  rewrite Hb. by exists ws'.
Qed.

Lemma step_entry_other_column c prev prev' e :
  c <> "WEFFRP_value" -> step_entry c prev e = step_entry c prev' e.
Proof.
  intros Hne. unfold step_entry.
  destruct (entry_date e); [|done].
  by rewrite bool_decide_eq_false_2.
Qed.

Lemma step_entry_weekly prev e d :
  entry_date e = Some d ->
  step_entry "WEFFRP_value" prev e =
  if d - 5 =? prev then Skip
  else step_entry "WEFFRP_value" (d - 6) e.
Proof.
  intros Hd. unfold step_entry. rewrite Hd.
  rewrite bool_decide_eq_true_2 by done. simpl.
  destruct (d - 5 =? prev); [done|].
  replace (d - 5 =? d - 6) with false; [done|].
  symmetry. apply Z.eqb_neq. lia.
Qed.

Lemma step_entry_weekly_store prev e d date v :
  entry_date e = Some d ->
  step_entry "WEFFRP_value" prev e = Store date v -> date = d - 5.
Proof.
  intros Hd. unfold step_entry. rewrite Hd.
  rewrite bool_decide_eq_true_2 by done. cbn [andb].
  destruct (d - 5 =? prev); [done|].
  destruct (bool_decide _); [done|].
  destruct (entry_float e) as [x|]; [|done].
  destruct (integer_column _);
    [destruct (int_of_float x) as [n|[]]|]; intros H; by inversion H.
Qed.

Lemma step_entry_store_date c prev e d date v :
  c <> "WEFFRP_value" -> entry_date e = Some d ->
  step_entry c prev e = Store date v -> date = d.
Proof.
  intros Hne Hd. unfold step_entry. rewrite Hd.
  rewrite bool_decide_eq_false_2 by done. simpl.
  destruct (bool_decide _); [done|].
  destruct (entry_float e) as [x|]; [|done].
  destruct (integer_column _);
    [destruct (int_of_float x) as [n|[]]|]; intros H; by inversion H.
Qed.

Lemma indicator_map_inj i i' suffix f f' direct direct' :
  indicator_map i = Some (suffix, f, direct) ->
  indicator_map i' = Some (suffix, f', direct') -> i = i'.
Proof.
  unfold indicator_map. intros H1 H2.
  repeat case_decide; simplify_eq; done.
Qed.

Lemma string_app_inj (p a b : string) : p +:+ a = p +:+ b -> a = b.
Proof. induction p as [|ch p IH]; simpl; intros H; [done|]. by simplify_eq. Qed.

Lemma weekly_rate_pair i list_ suffix f direct :
  indicator_map i = Some (suffix, f, direct) ->
  prefix_map list_ +:+ suffix = "WEFFRP_value" ->
  list_ = weekly /\ i = "Federal_funds_interval_list" /\
  f = FEDERAL_FUNDS_RATE /\ direct = true.
Proof.
  unfold indicator_map. intros H1 H2.
  repeat case_decide; simplify_eq; destruct list_; simplify_eq; done.
Qed.

Lemma fetch_weekly_rate up data :
  fetch up "Federal_funds_interval_list" FEDERAL_FUNDS_RATE true weekly
    = Return data ->
  up FEDERAL_FUNDS_RATE (Some weekly) = Return data.
Proof.
  unfold fetch. cbn.
  destruct (up FEDERAL_FUNDS_RATE (Some weekly)) as [d|[]]; cbn; congruence.
Qed.

(** What a successful extraction has put into [date_data]. *)
Lemma extract_facts up indicator f direct list_ c w ws ws' dd :
  extract up indicator f direct list_ c w ws = Extracted ws' (Return dd) ->
  exists data l,
    fetch up indicator f direct list_ = Return data /\
    data_list data = Return l /\
    Forall (fun e => is_Some (entry_date e)) l /\
    (forall e d date v, e ∈ l -> entry_date e = Some d -> w < d ->
       step_entry c w e = Store date v -> date ∈ map fst dd) /\
    (forall e d err, e ∈ l -> entry_date e = Some d -> w < d ->
       step_entry c w e <> Fail err) /\
    (forall date, date ∈ map fst dd ->
       exists e d v, e ∈ l /\ entry_date e = Some d /\ w < d /\
                     step_entry c w e = Store date v).
Proof.
  intros H.
  apply extract_extracted in H as (data & l & kept & Hf & Hd & Hk & _ & Hb).
  exists data, l. split; [done|]. split; [done|].
  split; [by eapply filter_new_dates|].
  destruct (filter_new_kept _ _ _ Hk) as (K1 & K2 & K3).
  destruct (build_date_data_complete _ _ _ _ _ _ _ Hb) as (_ & B2 & B3).
  split; [|split].
  - intros e d date v He Hd' Hlt Hs. eapply B2; [|exact Hs].
    apply elem_of_rev. by eapply K2.
  - intros e d err He Hd' Hlt. apply B3. apply elem_of_rev. by eapply K2.
  - intros date Hdate.
    destruct (build_date_data_dates _ _ _ _ _ _ _ Hb date Hdate)
      as [Hin|(e & v & He & Hs)]; [by apply elem_of_nil in Hin|].
    apply (proj1 (elem_of_rev _ _)) in He.
    rewrite Forall_forall in K1. destruct (K1 e He) as (d & Hd' & Hlt).
    exists e, d, v. split; [by apply K3|done].
Qed.

(** The series of a pair is settled at the watermark its load leaves. *)
Lemma load_settles c t dd l :
  let w := prev_date_of c t in
  let w' := prev_date_of c (load c t (plan c t dd)) in
  NoDup (map row_PK t) ->
  (forall e d date v, e ∈ l -> entry_date e = Some d -> w < d ->
     step_entry c w e = Store date v -> date ∈ map fst dd) ->
  (forall e d err, e ∈ l -> entry_date e = Some d -> w < d ->
     step_entry c w e <> Fail err) ->
  (forall date, date ∈ map fst dd ->
     exists e d v, e ∈ l /\ entry_date e = Some d /\ w < d /\
                   step_entry c w e = Store date v) ->
  c <> "WEFFRP_value" \/ regular w l ->
  settled c w' l.
Proof.
  intros w w' Hnd H1 H2 H3 Hc.
  destruct (load_watermark c t dd Hnd) as [W1 W2]. fold w w' in W1, W2.
  destruct (decide (c = "WEFFRP_value")) as [->|Hne].
  - destruct Hc as [?|[R1 R2]]; [done|].
    assert (forall date, date ∈ map fst dd ->
              exists e d, e ∈ l /\ entry_date e = Some d /\ w < d /\
                          date = d - 5) as H3'.
    { intros date Hdate. destruct (H3 date Hdate) as (e & d & v & ? & ? & ? & Hs).
      exists e, d. repeat split; try done.
      by eapply step_entry_weekly_store. }
    assert (w <= w') as Hle.
    { destruct W2 as [->|Hin]; [lia|].
      destruct (H3' _ Hin) as (e & d & He & Hd & Hlt & ->).
      pose proof (R1 e d He Hd Hlt). lia. }
    intros e d He Hd Hlt.
    rewrite (step_entry_weekly w' e d Hd).
    destruct (d - 5 =? w') eqn:E; [by left|]. apply Z.eqb_neq in E.
    assert (w < d) as Hlt0 by lia.
    assert (d - 5 <= w' -> w' ∈ map fst dd -> False) as Hnot.
    { intros Hd5 Hin.
      destruct (H3' _ Hin) as (e2 & d2 & He2 & Hd2 & Hlt2 & Ew).
      assert (d < d2) as Hdd by lia.
      pose proof (R2 e e2 d d2 He He2 Hd Hd2 Hdd). lia. }
    pose proof (step_entry_weekly w e d Hd) as Hw.
    destruct (d - 5 =? w) eqn:E0.
    + apply Z.eqb_eq in E0. destruct W2 as [Ew|Hin]; [lia|].
      exfalso. apply Hnot; [lia|done].
    + apply Z.eqb_neq in E0.
      destruct (step_entry "WEFFRP_value" (d - 6) e) as [| |date v|err] eqn:Es;
        [by left|by right| |].
      * exfalso. pose proof (step_entry_weekly_store _ _ _ _ _ Hd Hw) as ->.
        pose proof (W1 _ (H1 e d _ v He Hd Hlt0 Hw)).
        pose proof (R1 e d He Hd Hlt0).
        destruct W2 as [Ew|Hin]; [lia|]. by apply Hnot.
      * exfalso. by apply (H2 e d err He Hd Hlt0).
  - assert (w <= w') as Hle.
    { destruct W2 as [->|Hin]; [lia|].
      destruct (H3 _ Hin) as (e & d & v & He & Hd & Hlt & Hs).
      pose proof (step_entry_store_date _ _ _ _ _ _ Hne Hd Hs). lia. }
    intros e d He Hd Hlt.
    rewrite <- (step_entry_other_column c w w' e Hne).
    destruct (step_entry c w e) as [| |date v|err] eqn:Es;
      [by left|by right| |].
    + exfalso. pose proof (step_entry_store_date _ _ _ _ _ _ Hne Hd Es) as ->.
      assert (w < d) as Hlt0 by lia.
      pose proof (W1 _ (H1 e d d v He Hd Hlt0 Es)). lia.
    + exfalso. apply (H2 e d err He Hd); [lia|done].
Qed.

Lemma extract_no_new up indicator f direct list_ c w ws :
  extract up indicator f direct list_ c w ws = NoNewData ->
  exists data l,
    fetch up indicator f direct list_ = Return data /\
    data_list data = Return l /\
    Forall (fun e => is_Some (entry_date e)) l /\
    settled c w l.
Proof.
  unfold extract. intros H.
  destruct (fetch up indicator f direct list_) as [data|] eqn:E1; [|done].
  destruct (data_list data) as [l|] eqn:E2; [|done].
  destruct (filter_new w l) as [kept|] eqn:E3; [|done].
  destruct (rev kept) as [|e nd] eqn:Erev.
  - exists data, l. split; [done|]. split; [done|].
    split; [by eapply filter_new_dates|].
    destruct (filter_new_kept _ _ _ E3) as (_ & K2 & _).
    intros e d He Hd Hlt. pose proof (K2 e d He Hd Hlt) as Hin.
    apply elem_of_rev in Hin. rewrite Erev in Hin.
    by apply elem_of_nil in Hin.
  - by destruct (build_date_data c w (e :: nd) [] ws).
Qed.

Lemma pair_settled_idle up list_ item s :
  pair_settled up (db s) list_ item ->
  db (fst (process_item up list_ item s)) = db s /\
  statements (fst (process_item up list_ item s)) = statements s /\
  total_indicators_inserted (fst (process_item up list_ item s))
    = total_indicators_inserted s /\
  snd (process_item up list_ item s) = None.
Proof.
  destruct item as [indicator interval_]. unfold pair_settled, process_item.
  simpl. intros [Hnot|Hs].
  - rewrite bool_decide_eq_false_2 by done. simpl.
    by destruct (bool_decide _).
  - destruct (bool_decide (list_ ∈ interval_)); simpl;
      [|by destruct (bool_decide _)].
    destruct (indicator_map indicator) as [[[suffix f] direct]|]; [|done].
    destruct Hs as (data & l & Hf & Hd & Hall & Hset). unfold table.
    destruct (extract_settled up indicator f direct list_ _ _
                (shown_warnings s) data l Hf Hd Hall Hset)
      as [->|[ws' ->]]; [|done].
    by destruct (bool_decide _).
Qed.

Lemma process_item_step up list_ item s s' :
  process_item up list_ item s = (s', None) ->
  keyed (db s) -> weekly_rate_ok up (db s) ->
  keyed (db s') /\ weekly_rate_ok up (db s') /\
  pair_settled up (db s') list_ item /\
  (forall list_' item', pair_settled up (db s) list_' item' ->
                        pair_settled up (db s') list_' item').
Proof.
  destruct item as [indicator interval_]. intros H Hkey Hwk.
  assert (db s' = db s -> pair_settled up (db s) list_ (indicator, interval_)
          -> keyed (db s') /\ weekly_rate_ok up (db s') /\
             pair_settled up (db s') list_ (indicator, interval_) /\
             (forall list_' item', pair_settled up (db s) list_' item' ->
                                   pair_settled up (db s') list_' item'))
    as Hsame by (by intros ->).
  unfold process_item in H.
  destruct (bool_decide (list_ ∈ interval_)) eqn:Ein; simpl in H.
  2:{ apply bool_decide_eq_false in Ein. apply Hsame; [|by left].
      case_bool_decide; by inversion H. }
  destruct (indicator_map indicator) as [[[suffix f] direct]|] eqn:Em.
  2:{ inversion H; subst. apply Hsame; [done|]. right. simpl. by rewrite Em. }
  set (c := prefix_map list_ +:+ suffix) in *.
  set (w := prev_date_of c (table s list_)) in *.
  destruct (extract up indicator f direct list_ c w (shown_warnings s))
    as [err| |ws [[|d0 dd]|err]] eqn:Ex; try done.
  - apply Hsame; [case_bool_decide; by inversion H|].
    right. simpl. rewrite Em. by apply (extract_no_new _ _ _ _ _ _ _ _ Ex).
  - apply Hsame; [by inversion H|]. right. simpl. rewrite Em.
    destruct (extract_facts _ _ _ _ _ _ _ _ _ _ Ex)
      as (data & l & Hf & Hd & Hall & H1 & H2 & _).
    exists data, l. repeat split; try done.
    intros e d He Hde Hlt. fold c. fold (table s list_). fold w.
    destruct (step_entry c w e) as [| |date v|err] eqn:Es;
      [by left|by right| |].
    + pose proof (H1 e d date v He Hde Hlt Es) as Hin.
      by apply elem_of_nil in Hin.
    + by destruct (H2 e d err He Hde Hlt).
  - inversion H; subst s'; clear H Hsame. simpl.
    destruct (extract_facts _ _ _ _ _ _ _ _ _ _ Ex)
      as (data & l & Hf & Hd & Hall & H1 & H2 & H3).
    assert (c <> "WEFFRP_value" \/ regular w l) as Hc.
    { destruct (decide (c = "WEFFRP_value")) as [Ec|Hne]; [|by left]. right.
      destruct (weekly_rate_pair _ _ _ _ _ Em Ec) as (-> & -> & -> & ->).
      destruct (Hwk data l (fetch_weekly_rate up data Hf) Hd) as [R|S];
        [unfold w, table; by rewrite Ec|].
      exfalso. destruct (H3 (fst d0)) as (e & d & v & He & Hde & Hlt & Hs).
      { apply elem_of_cons; by left. }
      unfold w, table in Hs, Hlt. rewrite Ec in Hs, Hlt.
      destruct (S e d He Hde Hlt); congruence. }
    pose proof (load_settles c (table s list_) (d0 :: dd) l (Hkey list_)
                  H1 H2 H3 Hc) as Hset.
    assert (pair_settled up
              (<[list_ := load c (table s list_)
                            (plan c (table s list_) (d0 :: dd))]> (db s))
              list_ (indicator, interval_)) as Hthis.
    { right. simpl. rewrite Em. exists data, l. repeat split; try done.
      by rewrite lookup_total_insert_eq. }
    split; [|split; [|split; [exact Hthis|]]].
    + intros l0. destruct (decide (l0 = list_)) as [->|Hne].
      * rewrite lookup_total_insert_eq. apply load_NoDup, Hkey.
      * rewrite lookup_total_insert_ne by done. apply Hkey.
    + intros data' l' Hup Hdl.
      destruct (decide (list_ = weekly)) as [->|Hne].
      * rewrite lookup_total_insert_eq.
        destruct (decide (c = "WEFFRP_value")) as [Ec|Hnc].
        -- right. destruct (weekly_rate_pair _ _ _ _ _ Em Ec)
             as (_ & -> & -> & ->).
           pose proof (fetch_weekly_rate up data Hf) as Hup'.
           rewrite Hup in Hup'. inversion Hup'; subst data'.
           rewrite Hd in Hdl. inversion Hdl; subst l'.
           clearbody c. by subst c.
        -- rewrite load_other_column by done. exact (Hwk data' l' Hup Hdl).
      * rewrite lookup_total_insert_ne by done. exact (Hwk data' l' Hup Hdl).
    + intros list_' [ind' ivs'] [Hnot|Hp]; [by left|]. right. simpl in *.
      destruct (indicator_map ind') as [[[suffix' f'] direct']|] eqn:Em';
        [|done].
      destruct (decide (list_' = list_)) as [->|Hne];
        [|by rewrite lookup_total_insert_ne].
      rewrite lookup_total_insert_eq.
      destruct (decide (prefix_map list_ +:+ suffix' = c)) as [Ec|Hnc].
      * apply string_app_inj in Ec. subst suffix'.
        pose proof (indicator_map_inj _ _ _ _ _ _ _ Em' Em) as ->.
        rewrite Em in Em'. inversion Em'; subst f' direct'.
        exists data, l. by repeat split.
      * rewrite load_other_column by done. exact Hp.
Qed.

Lemma process_items_step up list_ items : forall s s',
  process_items up list_ items s = (s', None) ->
  keyed (db s) -> weekly_rate_ok up (db s) ->
  keyed (db s') /\ weekly_rate_ok up (db s') /\
  (forall item, item ∈ items -> pair_settled up (db s') list_ item) /\
  (forall list_' item', pair_settled up (db s) list_' item' ->
                        pair_settled up (db s') list_' item').
Proof.
  induction items as [|item items IH]; simpl; intros s s' H Hkey Hwk.
  - inversion H; subst. repeat split; try done.
    intros item Hin. by apply elem_of_nil in Hin.
  - destruct (process_item up list_ item s) as [s1 [err|]] eqn:E1; [done|].
    destruct (process_item_step _ _ _ _ _ E1 Hkey Hwk) as (K1 & W1 & S1 & P1).
    destruct (IH _ _ H K1 W1) as (K2 & W2 & S2 & P2).
    repeat split; try done.
    + intros it Hin. apply elem_of_cons in Hin as [->|Hin]; [|by apply S2].
      by apply P2.
    + intros l0 it Hp. by apply P2, P1.
Qed.

Lemma process_intervals_step up items il : forall s s',
  process_intervals up il items s = (s', None) ->
  keyed (db s) -> weekly_rate_ok up (db s) ->
  keyed (db s') /\ weekly_rate_ok up (db s') /\
  (forall list_ item, list_ ∈ il -> item ∈ items ->
                      pair_settled up (db s') list_ item) /\
  (forall list_' item', pair_settled up (db s) list_' item' ->
                        pair_settled up (db s') list_' item').
Proof.
  induction il as [|list_ il IH]; simpl; intros s s' H Hkey Hwk.
  - inversion H; subst. repeat split; try done.
    intros l0 item Hin. by apply elem_of_nil in Hin.
  - destruct (process_items up list_ items s) as [s1 [err|]] eqn:E1; [done|].
    destruct (process_items_step _ _ _ _ _ E1 Hkey Hwk) as (K1 & W1 & S1 & P1).
    destruct (IH _ _ H K1 W1) as (K2 & W2 & S2 & P2).
    repeat split; try done.
    + intros l0 it Hin Hit. apply elem_of_cons in Hin as [->|Hin].
      * by apply P2, S1.
      * by apply S2.
    + intros l0 it Hp. by apply P2, P1.
Qed.

Lemma process_items_idle up list_ items : forall s,
  (forall item, item ∈ items -> pair_settled up (db s) list_ item) ->
  exists s', process_items up list_ items s = (s', None) /\
             db s' = db s /\ statements s' = statements s /\
             total_indicators_inserted s' = total_indicators_inserted s.
Proof.
  induction items as [|item items IH]; simpl; intros s H; [by exists s|].
  destruct (pair_settled_idle up list_ item s) as (E1 & E2 & E3 & E4).
  { apply H, elem_of_cons; by left. }
  destruct (process_item up list_ item s) as [s1 o]. simpl in *. subst o.
  destruct (IH s1) as (s' & Hrun & F1 & F2 & F3).
  { intros it Hin. rewrite E1. apply H, elem_of_cons; by right. }
  exists s'. split; [done|]. split; [congruence|]. split; congruence.
Qed.

Lemma process_intervals_idle up items il : forall s,
  (forall list_ item, list_ ∈ il -> item ∈ items ->
                      pair_settled up (db s) list_ item) ->
  exists s', process_intervals up il items s = (s', None) /\
             db s' = db s /\ statements s' = statements s /\
             total_indicators_inserted s' = total_indicators_inserted s.
Proof.
  induction il as [|list_ il IH]; simpl; intros s H; [by exists s|].
  destruct (process_items_idle up list_ items s) as (s1 & -> & E1 & E2 & E3).
  { intros it Hin. apply H; [apply elem_of_cons; by left | done]. }
  destruct (IH s1) as (s' & Hrun & F1 & F2 & F3).
  { intros l0 it Hin Hit. rewrite E1. apply H; [|done].
    apply elem_of_cons; by right. }
  exists s'. split; [done|]. split; [congruence|]. split; congruence.
Qed.

(** C4 (amended). Idempotence of indicator ingestion: on a store whose
    tables have a primary key, when the weekly federal funds rate series is
    regular at the watermark of its column (entries at least five days apart,
    none less than five days after the watermark), a run that follows a
    successful run against the same upstream executes no UPDATE and no COPY,
    leaves every table as it was and reports zero inserts. *)
Theorem ingestion_idempotent up store il items shown already s1 result :
  keyed store ->
  (forall data l,
     up FEDERAL_FUNDS_RATE (Some weekly) = Return data ->
     data_list data = Return l ->
     regular (prev_date_of "WEFFRP_value" (store !!! weekly)) l) ->
  process_economic_indicators up store il items shown already
    = (s1, Return result) ->
  forall shown' already',
  exists s2 notices,
    process_economic_indicators up (db s1) il items shown' already'
      = (s2, Return (notices, 0)) /\
    db s2 = db s1 /\ statements s2 = [].
Proof.
  intros Hkey Hreg Hrun shown' already'.
  unfold process_economic_indicators in Hrun.
  destruct (process_intervals up il items
              (mkState store [] already shown [] 0)) as [s [err|]] eqn:E;
    [done|]. inversion Hrun; subst s1 result; clear Hrun.
  destruct (process_intervals_step _ _ _ _ _ E) as (_ & _ & Hs & _).
  { exact Hkey. }
  { intros data l Hup Hd. left. exact (Hreg data l Hup Hd). }
  destruct (process_intervals_idle up items il
              (mkState (db s) [] already' shown' [] 0))
    as (s2 & E2 & F1 & F2 & F3); [exact Hs|].
  exists s2, (indicators_already_available s2).
  unfold process_economic_indicators. rewrite E2. simpl in *.
  by rewrite F3.
Qed.

End IndicatorFacts.

(** ** Event reconciliation *)

Section EventFacts.
Import Events.
Implicit Types (r : row) (e : event) (t rows : list row)
  (events : list event) (p : plan).

(** *** The plan, event by event *)

Lemma existing_match_none rows key :
  existing_match (existing_set rows) key = None <->
  key ∉ map row_key rows.
Proof.
  unfold existing_match, existing_set.
  induction rows as [|r rows IH]; simpl.
  - split; [intros _ H; by apply elem_of_nil in H | done].
  - destruct (bool_decide (row_key r = key)) eqn:E.
    + apply bool_decide_eq_true in E. split; [done|].
      intros H. exfalso. apply H. rewrite E. apply elem_of_cons; by left.
    + apply bool_decide_eq_false in E. rewrite IH.
      rewrite not_elem_of_cons. split; [intros H; split; [congruence|done]|].
      by intros [_ H].
Qed.

Lemma existing_match_some rows key pk b :
  existing_match (existing_set rows) key = Some (pk, b) ->
  exists r, r ∈ rows /\ row_key r = key /\ asset_event_PK r = pk /\
            is_expected r = b.
Proof.
  unfold existing_match, existing_set.
  induction rows as [|r rows IH]; simpl; [done|].
  destruct (bool_decide (row_key r = key)) eqn:E.
  - apply bool_decide_eq_true in E. simpl. intros H; inversion H; subst.
    exists r. split; [apply elem_of_cons; by left | done].
  - intros H. destruct (IH H) as (r' & Hin & Hr').
    exists r'. split; [apply elem_of_cons; by right | done].
Qed.

Lemma existing_match_unique rows r :
  NoDup (map row_key rows) -> r ∈ rows ->
  existing_match (existing_set rows) (row_key r)
  = Some (asset_event_PK r, is_expected r).
Proof.
  unfold existing_match, existing_set.
  induction rows as [|r0 rows IH]; simpl; intros Hnd Hin.
  - by apply elem_of_nil in Hin.
  - apply NoDup_cons in Hnd as [Hr0 Hnd].
    destruct (bool_decide (row_key r0 = row_key r)) eqn:E; simpl.
    + apply bool_decide_eq_true in E.
      apply elem_of_cons in Hin as [->|Hin]; [done|].
      exfalso. apply Hr0. rewrite E. apply list_elem_of_fmap. by exists r.
    + apply bool_decide_eq_false in E.
      apply elem_of_cons in Hin as [->|Hin]; [done|]. by apply IH.
Qed.

(** The three parts of the plan are gathered independently of one another. *)
Lemma plan_event_parts set_ ix p e :
  new_events (plan_event set_ ix p e) =
    new_events p ++
    (if bool_decide (existing_match set_ (event_key e) = None) then [e]
     else []) /\
  expected_to_delete (plan_event set_ ix p e) =
    expected_to_delete p ∪
    (if bool_decide (existing_match set_ (event_key e) = None)
        && is_new_actual e
     then placeholders_of ix e else ∅) /\
  events_to_update (plan_event set_ ix p e) =
    events_to_update p ++
    match existing_match set_ (event_key e) with
    | Some (pk, true) => if is_new_actual e then [(pk, dumps (details e))]
                         else []
    | _ => []
    end.
Proof.
  unfold plan_event.
  destruct (existing_match set_ (event_key e)) as [[pk0 b]|] eqn:Em.
  - rewrite bool_decide_eq_false_2 by done.
    destruct b, (is_new_actual e); simpl;
      rewrite ?app_nil_r, ?union_empty_r_L; done.
  - rewrite bool_decide_eq_true_2 by done.
    destruct (is_new_actual e); simpl;
      rewrite ?app_nil_r, ?union_empty_r_L; done.
Qed.

Lemma reconcile_fold set_ ix events : forall p,
  new_events (fold_left (plan_event set_ ix) events p) = new_events p ++
    List.filter (fun e => bool_decide (existing_match set_ (event_key e) = None))
      events /\
  (forall pk, pk ∈ expected_to_delete (fold_left (plan_event set_ ix) events p)
     <->
     pk ∈ expected_to_delete p \/
     exists e, e ∈ events /\ existing_match set_ (event_key e) = None /\
               is_new_actual e = true /\ pk ∈ placeholders_of ix e) /\
  events_to_update (fold_left (plan_event set_ ix) events p)
  = events_to_update p ++
    flat_map (fun e =>
      match existing_match set_ (event_key e) with
      | Some (pk, true) => if is_new_actual e then [(pk, dumps (details e))]
                           else []
      | _ => []
      end) events.
Proof.
  induction events as [|e events IH]; intros p; cbn [fold_left].
  - simpl. rewrite !app_nil_r. split; [done|]. split; [|done].
    intros pk. split; [by left|]. intros [H|(e & He & _)]; [done|].
    by apply elem_of_nil in He.
  - destruct (IH (plan_event set_ ix p e)) as (I1 & I2 & I3).
    destruct (plan_event_parts set_ ix p e) as (E1 & E2 & E3).
    rewrite I1, I3, E1, E3, <- !app_assoc. split; [|split].
    + f_equal. simpl. by destruct (bool_decide _).
    + intros pk. rewrite I2, E2, elem_of_union. split.
      * intros [[H|H]|(e' & He' & H')].
        -- by left.
        -- right. exists e. split; [apply elem_of_cons; by left|].
           destruct (bool_decide _) eqn:Eb; simpl in H;
             [|by apply not_elem_of_empty in H].
           apply bool_decide_eq_true in Eb.
           destruct (is_new_actual e); [done|by apply not_elem_of_empty in H].
        -- right. exists e'. split; [apply elem_of_cons; by right|done].
      * intros [H|(e' & He' & Hm & Ha & Hp)]; [by left; left|].
        apply elem_of_cons in He' as [->|He'].
        -- left; right. rewrite bool_decide_eq_true_2 by done.
           by rewrite Ha.
        -- right. by exists e'.
    + done.
Qed.

Lemma reconcile_parts rows events :
  new_events (reconcile rows events) =
    List.filter (fun e => bool_decide (event_key e ∉ map row_key rows)) events /\
  (forall pk, pk ∈ expected_to_delete (reconcile rows events) <->
     exists e, e ∈ events /\ (event_key e ∉ map row_key rows) /\
               is_new_actual e = true /\
               pk ∈ placeholders_of (build_indexes rows) e) /\
  events_to_update (reconcile rows events) =
    flat_map (fun e =>
      match existing_match (existing_set rows) (event_key e) with
      | Some (pk, true) => if is_new_actual e then [(pk, dumps (details e))]
                           else []
      | _ => []
      end) events.
Proof.
  unfold reconcile.
  destruct (reconcile_fold (existing_set rows) (build_indexes rows) events
              (mkPlan [] ∅ [])) as (I1 & I2 & I3).
  rewrite I1, I3. simpl. split; [|split; [|done]].
  - apply List.filter_ext. intros e.
    apply bool_decide_ext, existing_match_none.
  - intros pk. rewrite I2. simpl. split.
    + intros [H|(e & He & Hm & H')]; [by apply not_elem_of_empty in H|].
      exists e. split; [done|]. split; [by apply existing_match_none|done].
    + intros (e & He & Hm & H'). right. exists e. split; [done|].
      split; [by apply existing_match_none|done].
Qed.

(** *** Deletes, updates and inserts on the table *)

Lemma elem_of_delete_rows pks t r :
  r ∈ delete_rows pks t <-> r ∈ t /\ asset_event_PK r ∉ pks.
Proof.
  unfold delete_rows. rewrite !list_elem_of_In, filter_In.
  rewrite negb_true_iff, bool_decide_eq_false. done.
Qed.

Lemma update_notes_map us : forall t,
  fold_left update_notes us t = map (noted us) t.
Proof.
  induction us as [|u us IH]; simpl; intros t.
  - unfold noted. simpl. by rewrite map_id.
  - rewrite IH. unfold update_notes. rewrite map_map. done.
Qed.

Lemma noted_fields us : forall r,
  asset_event_PK (noted us r) = asset_event_PK r /\
  asset_event_ID (noted us r) = asset_event_ID r /\
  row_key (noted us r) = row_key r.
Proof.
  unfold noted. induction us as [|u us IH]; simpl; intros r; [done|].
  destruct (IH (if asset_event_PK r =? fst u then with_notes r (snd u) else r))
    as (I1 & I2 & I3).
  rewrite I1, I2, I3. by destruct (asset_event_PK r =? fst u).
Qed.

Lemma noted_notes us : forall r,
  asset_event_event_notes (noted us r) =
  match last (List.filter (fun u => asset_event_PK r =? fst u) us) with
  | Some u => snd u
  | None => asset_event_event_notes r
  end.
Proof.
  unfold noted. induction us as [|u us IH]; simpl; intros r; [done|].
  rewrite IH. destruct (asset_event_PK r =? fst u) eqn:E; simpl; [|done].
  destruct (List.filter (fun u0 => asset_event_PK r =? fst u0) us)
    as [|u1 l1] eqn:Ef; [done|].
  rewrite (last_cons u). by destruct (last (u1 :: l1)).
Qed.

Lemma NoDup_map_filter {A B} (f : A -> B) (g : A -> bool) (l : list A) :
  NoDup (map f l) -> NoDup (map f (List.filter g l)).
Proof.
  induction l as [|x l IH]; simpl; intros H; [done|].
  apply NoDup_cons in H as [Hx H]. destruct (g x); simpl; [|by apply IH].
  apply NoDup_cons. split; [|by apply IH].
  intros Hin. apply Hx. apply list_elem_of_fmap in Hin as (y & -> & Hy).
  apply list_elem_of_fmap. exists y. split; [done|].
  apply list_elem_of_In, filter_In in Hy as [Hy _]. by apply list_elem_of_In.
Qed.

Lemma reconciled_keys rows p :
  map row_key (reconciled rows p)
  = map row_key (delete_rows (expected_to_delete p) rows).
Proof.
  unfold reconciled. rewrite update_notes_map, map_map.
  apply map_ext. intros r. apply noted_fields.
Qed.

Lemma bulk_rows_keys evs : forall a b,
  map row_key (bulk_rows a b evs) = map event_key evs.
Proof. induction evs as [|e evs IH]; simpl; intros a b; [done|]. by rewrite IH. Qed.

Lemma delete_rows_empty t : delete_rows ∅ t = t.
Proof.
  unfold delete_rows. induction t as [|r t IH]; simpl; [done|].
  rewrite bool_decide_eq_false_2 by apply not_elem_of_empty. simpl.
  by rewrite IH.
Qed.

(** The table that [batch_insert_events] leaves. *)
Lemma batch_insert_events_table rows events :
  fst (batch_insert_events rows events) =
  let p := reconcile rows events in
  let t := reconciled rows p in
  t ++ bulk_rows (next_of (map asset_event_PK t))
         (next_of (map asset_event_ID t)) (new_events p).
Proof.
  unfold batch_insert_events. destruct events as [|e events].
  - unfold reconcile, reconciled. simpl.
    by rewrite delete_rows_empty, app_nil_r.
  - cbv zeta. destruct (new_events (reconcile rows (e :: events))); simpl;
      by rewrite ?app_nil_r.
Qed.

(** When neither the table nor the batch repeats an identity key, the table
    left does not either. *)
Lemma identity_keys_unique rows events :
  NoDup (map row_key rows) -> NoDup (map event_key events) ->
  NoDup (map row_key (fst (batch_insert_events rows events))).
Proof.
  intros Hr He. rewrite batch_insert_events_table. cbv zeta.
  rewrite map_app, reconciled_keys, bulk_rows_keys.
  destruct (reconcile_parts rows events) as (-> & _ & _).
  apply NoDup_app. split; [by apply NoDup_map_filter|]. split.
  - intros k Hk Hk'. apply list_elem_of_fmap in Hk' as (e & -> & Hin).
    apply list_elem_of_In, filter_In in Hin as [_ Hin].
    apply bool_decide_eq_true in Hin. apply Hin.
    apply list_elem_of_fmap in Hk as (r & -> & Hr').
    apply list_elem_of_fmap. exists r. split; [done|].
    by apply elem_of_delete_rows in Hr' as [? _].
  - by apply NoDup_map_filter.
Qed.

Lemma bulk_rows_event evs : forall a b r,
  r ∈ bulk_rows a b evs ->
  exists e, e ∈ evs /\
    asset_event_event_pk r = event_pk e /\
    asset_event_announcement_date r = announcement_date e /\
    asset_event_start_date r = start_date e /\
    asset_event_event_notes r = inserted_notes (details e).
Proof.
  induction evs as [|e evs IH]; simpl; intros a b r H.
  - by apply elem_of_nil in H.
  - apply elem_of_cons in H as [->|H].
    + exists e. split; [apply elem_of_cons; by left | done].
    + destruct (IH _ _ _ H) as (e' & He' & Hr).
      exists e'. split; [apply elem_of_cons; by right | done].
Qed.

Lemma bulk_rows_map evs : forall a b,
  map (fun r => (asset_event_event_pk r, asset_event_event_notes r))
    (bulk_rows a b evs)
  = map (fun e => (event_pk e, inserted_notes (details e))) evs.
Proof.
  induction evs as [|e evs IH]; simpl; intros a b; [done|]. by rewrite IH.
Qed.

(** C10. The rows that the bulk-insert path of [batch_insert_events] adds
    are, in order, one for each event whose identity key is not stored, and
    each carries the kind of its event and the payload of its event without
    the ['source'] key (the other keys and their values are kept). So no
    inserted row carries a source tag, and a later run takes an inserted row
    for a placeholder exactly when it is an earnings row whose payload has
    an ['estimate'] field. *)
Theorem bulk_insert_drops_source rows events :
  let p := reconcile rows events in
  let t := reconciled rows p in
  let inserted :=
    bulk_rows (next_of (map asset_event_PK t))
      (next_of (map asset_event_ID t)) (new_events p) in
  fst (batch_insert_events rows events) = t ++ inserted /\
  new_events p
  = List.filter (fun e => bool_decide (event_key e ∉ map row_key rows))
      events /\
  map (fun r => (asset_event_event_pk r, asset_event_event_notes r))
    inserted
  = map (fun e => (event_pk e,
                   match details e with
                   | Some d => NotesObject (delete "source" d)
                   | None => NotesJsonNull
                   end)) (new_events p) /\
  forall r, r ∈ inserted ->
    (exists e, e ∈ new_events p /\
       asset_event_event_pk r = event_pk e /\
       asset_event_event_notes r
       = match details e with
         | Some d => NotesObject (delete "source" d)
         | None => NotesJsonNull
         end /\
       is_expected r
       = (event_pk e =? 2)
         && match details e with
            | Some d => bool_decide (is_Some (d !! "estimate"))
            | None => false
            end) /\
    (forall d, asset_event_event_notes r = NotesObject d ->
               d !! "source" = None) /\
    is_expected r =
      (asset_event_event_pk r =? 2)
      && has_estimate (asset_event_event_notes r).
Proof.
  intros p t inserted. split; [apply batch_insert_events_table|].
  split; [subst p; by destruct (reconcile_parts rows events) as (-> & _ & _)|].
  split; [apply bulk_rows_map|].
  intros r Hr. apply bulk_rows_event in Hr as (e & He & Hpk & _ & _ & Hn).
  assert (is_expected r =
            (asset_event_event_pk r =? 2)
            && has_estimate (asset_event_event_notes r)) as Hexp.
  { unfold is_expected. rewrite Hn. unfold inserted_notes.
    destruct (details e) as [d|]; simpl.
    - f_equal. unfold get. rewrite lookup_delete_eq. simpl.
      by rewrite orb_false_r.
    - by rewrite andb_false_r. }
  split; [|split; [|done]].
  - exists e. split; [done|]. split; [done|]. split; [done|].
    rewrite Hexp, Hn, Hpk. unfold inserted_notes.
    destruct (details e) as [d|]; simpl; [|done].
    by rewrite lookup_delete_ne.
  - intros d Hd. rewrite Hn in Hd. unfold inserted_notes in Hd.
    destruct (details e) as [d'|]; [|done]. inversion Hd; subst.
    apply lookup_delete_eq.
Qed.

(** C2, at the failing input: on an empty table, an earnings result and the
    calendar entry of the same fiscal and report dates, in the order of the
    pre-insertion sort, are both inserted, under one identity key. *)
Theorem duplicate_identity_key_inserted :
  let fiscal := Some (mkDate 2024 3 31) in
  let reported := Some (mkDate 2024 4 25) in
  let actual :=
    mkEvent 2 fiscal reported
      (Some {[ "quarter" := JStr "Q1"; "year" := JInt 2024 ]}) in
  let expected :=
    mkEvent 2 fiscal reported
      (Some {[ "quarter" := JStr "Q1"; "year" := JInt 2024;
               "estimate" := JStr "1.50" ]}) in
  event_key actual = event_key expected /\
  map (fun r => (asset_event_PK r, row_key r, is_expected r))
      (fst (batch_insert_events [] [actual; expected]))
  = [(1, (2, "2024-03-31", "2024-04-25"), false);
     (2, (2, "2024-03-31", "2024-04-25"), true)]%string /\
  snd (batch_insert_events [] [actual; expected]) = 2.
Proof. vm_compute. repeat split. Qed.

(** *** The placeholder indexes *)

Lemma index_add_elem `{Countable K} (k k' : K) pk pk' (m : gmap K (gset Z)) :
  pk' ∈ default ∅ (index_add k pk m !! k') <->
  (k = k' /\ pk' = pk) \/ pk' ∈ default ∅ (m !! k').
Proof.
  unfold index_add. destruct (decide (k = k')) as [->|Hne].
  - rewrite lookup_insert_eq. simpl. rewrite elem_of_union, elem_of_singleton.
    split; [intros [->|?]; [by left|by right] | intros [[_ ->]|?]; auto].
  - rewrite lookup_insert_ne by done.
    split; [by right | intros [[? _]|?]; done].
Qed.





(** *** Placeholder promotion *)

Lemma flat_map_none {A B} (f : A -> list B) (l : list A) :
  (forall x, x ∈ l -> f x = []) -> flat_map f l = [].
Proof.
  induction l as [|x l IH]; simpl; intros H; [done|].
  rewrite (H x) by apply list_elem_of_here. apply IH.
  intros y Hy. by apply H, list_elem_of_further.
Qed.

Lemma list_filter_none {A} (g : A -> bool) (l : list A) :
  (forall x, x ∈ l -> g x = false) -> List.filter g l = [].
Proof.
  induction l as [|x l IH]; simpl; intros H; [done|].
  rewrite (H x) by apply list_elem_of_here. apply IH.
  intros y Hy. by apply H, list_elem_of_further.
Qed.

Lemma NoDup_map_inj {A B} (f : A -> B) (l : list A) x y :
  NoDup (map f l) -> x ∈ l -> y ∈ l -> f x = f y -> x = y.
Proof.
  induction l as [|z l IH]; simpl; intros Hnd Hx Hy E.
  - by apply elem_of_nil in Hx.
  - apply NoDup_cons in Hnd as [Hz Hnd].
    apply elem_of_cons in Hx as [->|Hx]; apply elem_of_cons in Hy as [->|Hy].
    + done.
    + exfalso. apply Hz. rewrite E. apply list_elem_of_fmap. by exists y.
    + exfalso. apply Hz. rewrite <- E. apply list_elem_of_fmap. by exists x.
    + by apply IH.
Qed.

Lemma with_notes_id r : with_notes r (asset_event_event_notes r) = r.
Proof. by destruct r. Qed.

Lemma noted_with us : forall r,
  noted us r = with_notes r (asset_event_event_notes (noted us r)).
Proof.
  unfold noted. induction us as [|u us IH]; simpl; intros r.
  - by rewrite with_notes_id.
  - rewrite IH at 1. by destruct (asset_event_PK r =? fst u).
Qed.

Lemma next_of_gt l x : x ∈ l -> x < next_of l.
Proof.
  destruct l as [|x0 l]; [intros H; by apply elem_of_nil in H|].
  intros H. simpl. destruct (fold_max_ge l x0) as [H1 H2].
  apply elem_of_cons in H as [->|H]; [lia|]. specialize (H2 _ H). lia.
Qed.


Lemma bulk_rows_has evs : forall a b e,
  e ∈ evs ->
  exists r, r ∈ bulk_rows a b evs /\ row_key r = event_key e /\
            asset_event_event_notes r = inserted_notes (details e).
Proof.
  induction evs as [|e0 evs IH]; simpl; intros a b e H.
  - by apply elem_of_nil in H.
  - apply elem_of_cons in H as [->|H].
    + eexists. split; [apply elem_of_cons; by left | done].
    + destruct (IH (a + 1) (b + 1) e H) as (r & Hr & Hk).
      exists r. split; [apply elem_of_cons; by right | done].
Qed.

Lemma last_map {A B} (f : A -> B) (l : list A) :
  last (map f l) = f <$> last l.
Proof.
  induction l as [|x l IH]; [done|]. simpl map.
  destruct l as [|y l]; [done|]. simpl map in *.
  by rewrite !last_cons_cons.
Qed.

(** The updates that name a placeholder come from the actual events of the
    batch that have its identity key, in their order. *)
Lemma updates_of_placeholder rows events P :
  NoDup (map row_key rows) -> NoDup (map asset_event_PK rows) ->
  P ∈ rows -> is_expected P = true ->
  List.filter (fun u => asset_event_PK P =? fst u)
    (events_to_update (reconcile rows events))
  = map (fun e => (asset_event_PK P, dumps (details e)))
      (List.filter (fun e => bool_decide (event_key e = row_key P)
                             && is_new_actual e) events).
Proof.
  intros Hk Hpk HP Hexp.
  destruct (reconcile_parts rows events) as (_ & _ & ->).
  induction events as [|e events IH]; simpl; [done|].
  rewrite List.filter_app, IH. clear IH.
  destruct (bool_decide (event_key e = row_key P)) eqn:Ek.
  - apply bool_decide_eq_true in Ek. rewrite Ek.
    rewrite (existing_match_unique rows P Hk HP), Hexp.
    destruct (is_new_actual e); simpl; [|done]. by rewrite Z.eqb_refl.
  - apply bool_decide_eq_false in Ek. simpl.
    destruct (existing_match (existing_set rows) (event_key e))
      as [[pk b]|] eqn:Em; [|done].
    destruct b; [|done]. destruct (is_new_actual e); [|done]. simpl.
    destruct (asset_event_PK P =? pk) eqn:E; [|done]. exfalso.
    apply Z.eqb_eq in E. subst pk.
    apply existing_match_some in Em as (r & Hr & Hkey & Hp & _).
    apply Ek. rewrite <- Hkey. f_equal.
    by apply (NoDup_map_inj asset_event_PK rows).
Qed.

(** An actual event under the identity key of a stored placeholder rewrites
    its payload and is not inserted. *)
Lemma promotion_in_place rows events P A :
  NoDup (map row_key rows) -> NoDup (map asset_event_PK rows) ->
  P ∈ rows -> is_expected P = true ->
  A ∈ events -> is_new_actual A = true ->
  event_key A = row_key P ->
  (asset_event_PK P, dumps (details A))
    ∈ events_to_update (reconcile rows events) /\
  (forall e, e ∈ new_events (reconcile rows events) ->
             event_key e <> event_key A) /\
  (asset_event_PK P ∉ expected_to_delete (reconcile rows events) ->
   exists A',
     last (List.filter (fun e => bool_decide (event_key e = row_key P)
                                 && is_new_actual e) events) = Some A' /\
     with_notes P (dumps (details A'))
       ∈ fst (batch_insert_events rows events)).
Proof.
  intros Hk Hpk HP Hexp HA Hact Hkey.
  pose proof (updates_of_placeholder rows events P Hk Hpk HP Hexp) as Hups.
  destruct (reconcile_parts rows events) as (Hnew & _ & Hupd).
  assert (A ∈ List.filter (fun e => bool_decide (event_key e = row_key P)
                                    && is_new_actual e) events) as HAf.
  { apply list_elem_of_In, filter_In. split; [by apply list_elem_of_In|].
    rewrite Hact. by rewrite bool_decide_eq_true_2. }
  split; [|split].
  - assert ((asset_event_PK P, dumps (details A))
              ∈ List.filter (fun u => asset_event_PK P =? fst u)
                  (events_to_update (reconcile rows events))) as Hin.
    { rewrite Hups. apply list_elem_of_fmap. by exists A. }
    apply list_elem_of_In, filter_In in Hin as [Hin _].
    by apply list_elem_of_In.
  - intros e He Heq. rewrite Hnew in He.
    apply list_elem_of_In, filter_In in He as [_ He].
    apply bool_decide_eq_true in He. apply He. rewrite Heq, Hkey.
    apply list_elem_of_fmap. by exists P.
  - intros Hkeep.
    destruct (last (List.filter (fun e => bool_decide (event_key e = row_key P)
                                          && is_new_actual e) events))
      as [A'|] eqn:El.
    2:{ apply last_None in El. rewrite El in HAf.
        by apply elem_of_nil in HAf. }
    exists A'. split; [done|].
    rewrite batch_insert_events_table. cbv zeta.
    apply elem_of_app; left. unfold reconciled. rewrite update_notes_map.
    apply list_elem_of_fmap. exists P. split.
    + rewrite (noted_with _ P), noted_notes, Hups, last_map, El. done.
    + by apply elem_of_delete_rows.
Qed.



Lemma delete_rows_none pks t :
  (forall r, r ∈ t -> asset_event_PK r ∉ pks) -> delete_rows pks t = t.
Proof.
  unfold delete_rows. induction t as [|r t IH]; simpl; intros H; [done|].
  rewrite bool_decide_eq_false_2 by apply H, list_elem_of_here. simpl.
  rewrite IH; [done|]. intros r' Hr'. by apply H, list_elem_of_further.
Qed.














End EventFacts.

(** ** The sort before the insertion *)

Section SortFacts.
Import Events.
Context {A : Type} (lt : A -> A -> bool).
Hypothesis lt_asym : forall a b, lt a b = true -> lt b a = false.
Hypothesis ge_trans :
  forall a b c, lt b a = false -> lt c b = false -> lt c a = false.

Lemma insert_sorted_perm x l : insert_sorted lt x l ≡ₚ x :: l.
Proof.
  induction l as [|y l IH]; simpl; [done|].
  destruct (lt y x); [|done]. rewrite IH. apply Permutation_swap.
Qed.

Lemma py_sorted_perm l : py_sorted lt l ≡ₚ l.
Proof.
  induction l as [|x l IH]; simpl; [done|].
  by rewrite insert_sorted_perm, IH.
Qed.

Lemma insert_sorted_sorted x l :
  StronglySorted (fun a b => lt b a = false) l ->
  StronglySorted (fun a b => lt b a = false) (insert_sorted lt x l).
Proof.
  induction l as [|y l IH]; simpl; intros Hs.
  - repeat constructor.
  - apply StronglySorted_inv in Hs as [Hs Hy].
    destruct (lt y x) eqn:E.
    + constructor; [by apply IH|].
      rewrite (insert_sorted_perm x l). constructor; [by apply lt_asym|done].
    + constructor; [by constructor|]. constructor; [done|].
      eapply Forall_impl; [exact Hy|]. intros z Hz. by eapply ge_trans.
Qed.

Lemma py_sorted_sorted l :
  StronglySorted (fun a b => lt b a = false) (py_sorted lt l).
Proof.
  induction l as [|x l IH]; simpl; [constructor|].
  by apply insert_sorted_sorted.
Qed.

Lemma sorted_before (R : A -> A -> Prop) l x y :
  StronglySorted R l -> before l x y -> R x y.
Proof.
  intros Hs (l1 & l2 & l3 & ->).
  apply StronglySorted_app_1_r in Hs.
  apply StronglySorted_inv in Hs as [_ Hx].
  rewrite Forall_app, Forall_cons in Hx. by destruct Hx as (_ & Hy & _).
Qed.

Lemma py_sorted_before l x y :
  before (py_sorted lt l) x y -> lt y x = false.
Proof.
  apply (sorted_before (fun a b => lt b a = false)), py_sorted_sorted.
Qed.

End SortFacts.

Section DateStrings.
Import Events.

Lemma digit_compare a b :
  0 <= a <= 9 -> 0 <= b <= 9 ->
  Ascii.compare (digit a) (digit b) = (a ?= b).
Proof.
  intros Ha Hb. unfold Ascii.compare, digit.
  rewrite !N_ascii_embedding by lia.
  rewrite Z2N.inj_compare by lia. apply Z.add_compare_mono_l.
Qed.

Lemma string_app_cons c (s t : string) :
  String c s +:+ t = String c (s +:+ t).
Proof. reflexivity. Qed.

Lemma fixed_compare w : forall n m s t,
  0 <= n < 10 ^ Z.of_nat w -> 0 <= m < 10 ^ Z.of_nat w ->
  String.compare (fixed w n +:+ s) (fixed w m +:+ t)
  = match n ?= m with Eq => String.compare s t | c => c end.
Proof.
  induction w as [|w IH]; intros n m s t Hn Hm.
  - simpl in *. assert (n = 0) as -> by lia. by assert (m = 0) as -> by lia.
  - rewrite Nat2Z.inj_succ, Z.pow_succ_r in Hn, Hm by lia.
    set (p := 10 ^ Z.of_nat w) in *.
    assert (0 < p) as Hp by (apply Z.pow_pos_nonneg; lia).
    pose proof (Z.div_mod n p ltac:(lia)) as En.
    pose proof (Z.div_mod m p ltac:(lia)) as Em.
    pose proof (Z.mod_pos_bound n p Hp) as Bn.
    pose proof (Z.mod_pos_bound m p Hp) as Bm.
    assert (0 <= n / p <= 9) as Dn.
    { split; [apply Z.div_pos; lia|].
      assert (n / p < 10); [apply Z.div_lt_upper_bound; lia | lia]. }
    assert (0 <= m / p <= 9) as Dm.
    { split; [apply Z.div_pos; lia|].
      assert (m / p < 10); [apply Z.div_lt_upper_bound; lia | lia]. }
    simpl fixed. fold p. rewrite !string_app_cons. cbn [String.compare].
    rewrite (digit_compare _ _ Dn Dm).
    rewrite (IH _ _ s t Bn Bm).
    destruct (Z.compare_spec (n / p) (m / p)) as [E|E|E].
    + destruct (Z.compare_spec (n mod p) (m mod p)) as [E'|E'|E'];
        destruct (Z.compare_spec n m); try done; nia.
    + destruct (Z.compare_spec n m); try done; nia.
    + destruct (Z.compare_spec n m); try done; nia.
Qed.

Lemma forallb_seqZ (f : Z -> bool) lo n :
  forallb f (seqZ lo n) = true -> forall y, lo <= y < lo + n -> f y = true.
Proof.
  intros H y Hy. rewrite forallb_forall in H. apply H.
  apply list_elem_of_In, elem_of_seqZ. lia.
Qed.

Lemma str_fixed y : 1000 <= y <= 9999 -> Split.str y = fixed 4 y.
Proof.
  intros Hy.
  apply String.eqb_eq.
  apply (forallb_seqZ (fun y => String.eqb (Split.str y) (fixed 4 y))
           1000 9000); [by vm_compute | lia].
Qed.

Lemma two_digits_fixed n : 0 <= n <= 99 -> two_digits n = fixed 2 n.
Proof.
  intros Hn.
  apply String.eqb_eq.
  apply (forallb_seqZ (fun y => String.eqb (two_digits y) (fixed 2 y))
           0 100); [by vm_compute | lia].
Qed.

Lemma string_app_nil (s : string) : s +:+ "" = s.
Proof.
  induction s as [|c s IH]; [done|]. rewrite string_app_cons. by rewrite IH.
Qed.

Lemma strftime_fixed d :
  four_digit_year d ->
  strftime d
  = fixed 4 (year d) +:+ "-" +:+ fixed 2 (month d) +:+ "-"
      +:+ fixed 2 (day d) +:+ "".
Proof.
  intros (Hy & Hm & Hd). unfold strftime.
  rewrite (str_fixed _ Hy), !two_digits_fixed by lia.
  by rewrite string_app_nil.
Qed.

Lemma strftime_compare d1 d2 :
  four_digit_year d1 -> four_digit_year d2 ->
  String.compare (strftime d1) (strftime d2) = date_compare d1 d2.
Proof.
  intros H1 H2. rewrite (strftime_fixed _ H1), (strftime_fixed _ H2).
  destruct H1 as (Hy1 & Hm1 & Hd1), H2 as (Hy2 & Hm2 & Hd2).
  unfold date_compare.
  rewrite fixed_compare by (simpl; lia).
  destruct (year d1 ?= year d2); [|done..].
  change ("-" +:+ ?s) with (String "-" s). cbn [String.compare].
  change (Ascii.compare "-" "-") with Eq. cbv iota.
  rewrite fixed_compare by (simpl; lia).
  destruct (month d1 ?= month d2); [|done..].
  change ("-" +:+ ?s) with (String "-" s). cbn [String.compare].
  change (Ascii.compare "-" "-") with Eq. cbv iota.
  rewrite fixed_compare by (simpl; lia).
  by destruct (day d1 ?= day d2).
Qed.
End DateStrings.

Section SortKeyFacts.
Import Events.
Implicit Types (e x y : event) (d : date).

Lemma key_lt_false a b : key_lt b a = false <-> key_le a b.
Proof.
  unfold key_lt, key_le. rewrite (String.compare_antisym (fst a) (fst b)).
  destruct (String.compare (fst b) (fst a)); simpl; [|done..].
  rewrite Qge_alt. by destruct (Qcompare (snd b) (snd a)).
Qed.

Lemma key_lt_asym a b : key_lt a b = true -> key_lt b a = false.
Proof.
  unfold key_lt. rewrite (String.compare_antisym (fst a) (fst b)).
  destruct (String.compare (fst b) (fst a)); simpl; [|done..].
  rewrite <- (Qcompare_antisym (snd b) (snd a)).
  by destruct (Qcompare (snd b) (snd a)).
Qed.

Lemma string_compare_le (s t : string) :
  String.compare s t <> Gt <-> String.le s t.
Proof.
  unfold String.le, String.leb. by destruct (String.compare s t).
Qed.

Lemma string_compare_refl (s : string) : String.compare s s = Eq.
Proof.
  pose proof (String.compare_antisym s s) as H.
  by destruct (String.compare s s).
Qed.

Lemma key_le_trans a b c : key_le a b -> key_le b c -> key_le a c.
Proof.
  unfold key_le. intros Hab Hbc.
  assert (String.le (fst a) (fst b)) as Lab
    by (apply string_compare_le; revert Hab;
        by destruct (String.compare (fst a) (fst b))).
  assert (String.le (fst b) (fst c)) as Lbc
    by (apply string_compare_le; revert Hbc;
        by destruct (String.compare (fst b) (fst c))).
  assert (String.le (fst a) (fst c)) as Lac by (by etrans).
  apply string_compare_le in Lac.
  destruct (String.compare (fst a) (fst c)) eqn:Eac; [|done..].
  apply String.compare_eq_iff in Eac. rewrite <- Eac in Lbc.
  assert (fst a = fst b) as Eab by (by apply (anti_symm String.le)).
  rewrite <- Eab, <- Eac, string_compare_refl in *. by eapply Qle_trans.
Qed.

Lemma key_lt_ge_trans a b c :
  key_lt b a = false -> key_lt c b = false -> key_lt c a = false.
Proof. rewrite !key_lt_false. apply key_le_trans. Qed.

Lemma date_compare_eq d1 d2 : date_compare d1 d2 = Eq -> d1 = d2.
Proof.
  unfold date_compare. destruct d1 as [y1 m1 a1], d2 as [y2 m2 a2]. simpl.
  destruct (Z.compare_spec y1 y2); [|done..].
  destruct (Z.compare_spec m1 m2); [|done..].
  destruct (Z.compare_spec a1 a2); [|done..]. by subst.
Qed.

Lemma date_compare_refl d : date_compare d d = Eq.
Proof. unfold date_compare. by rewrite !Z.compare_refl. Qed.

Lemma date_compare_last d :
  four_digit_year d -> date_compare (mkDate 9999 12 31) d = Lt -> False.
Proof.
  intros (Hy & Hm & Hd). unfold date_compare. cbn [year month day].
  destruct (Z.compare_spec 9999 (year d)); [|lia|done].
  destruct (Z.compare_spec 12 (month d)); [|lia|done].
  destruct (Z.compare_spec 31 (day d)); [done|lia|done].
Qed.

(** The date an event is sorted at: its announcement date, or the last day
    of the year 9999. *)
Lemma date_sort_strftime e :
  date_sort e = strftime (default (mkDate 9999 12 31) (announcement_date e)).
Proof. unfold date_sort. by destruct (announcement_date e). Qed.

Lemma sort_key_le x y :
  dated_in_range x -> dated_in_range y ->
  key_le (sort_key x) (sort_key y) ->
  match announcement_date x, announcement_date y with
  | Some dx, Some dy =>
      date_compare dx dy = Lt \/
      (dx = dy /\ (type_priority x <= type_priority y)%Q)
  | Some dx, None =>
      dx = mkDate 9999 12 31 -> (type_priority x <= type_priority y)%Q
  | None, Some dy =>
      dy = mkDate 9999 12 31 /\ (type_priority x <= type_priority y)%Q
  | None, None => (type_priority x <= type_priority y)%Q
  end.
Proof.
  unfold dated_in_range, key_le, sort_key. simpl fst. simpl snd.
  rewrite !date_sort_strftime. intros Hx Hy.
  assert (four_digit_year (mkDate 9999 12 31)) as Hlast
    by (unfold four_digit_year; simpl; lia).
  rewrite strftime_compare; [|by destruct (announcement_date x)
                             |by destruct (announcement_date y)].
  destruct (announcement_date x) as [dx|], (announcement_date y) as [dy|];
    simpl.
  - destruct (date_compare dx dy) eqn:E; [|by left|done].
    apply date_compare_eq in E. by right.
  - intros H ->. by rewrite date_compare_refl in H.
  - destruct (date_compare (mkDate 9999 12 31) dy) eqn:E; [| |done].
    + apply date_compare_eq in E. by subst.
    + by apply date_compare_last in E.
  - done.
Qed.

Lemma before_elem_of {A} (l : list A) a b : before l a b -> a ∈ l /\ b ∈ l.
Proof.
  intros (l1 & l2 & l3 & ->). split.
  - apply elem_of_app; right. apply list_elem_of_here.
  - apply elem_of_app; right. apply list_elem_of_further, elem_of_app; right.
    apply list_elem_of_here.
Qed.

(** C7 (amended). The sort before the insertion, on events whose
    announcement dates have a year of four digits. The sorted list is a
    permutation of the events. Of two events of the sorted list, the one
    that stands first has the earlier announcement date, or the same date
    and a type priority that is not greater; an event without announcement
    date is sorted as if dated 9999-12-31: it stands after every event
    dated before that day, and among the events dated that day or undated
    the type priority decides. The type priority is the kind code, 2.1 for
    an earnings event with a non-empty payload whose estimate is absent or
    null, 2.2 for the other earnings events: on one announcement date no
    event of priority 2.2 stands before one of priority 2.1. *)
Theorem sort_determinism events :
  Forall dated_in_range events ->
  sort_events events ≡ₚ events /\
  (forall x y, before (sort_events events) x y ->
     match announcement_date x, announcement_date y with
     | Some dx, Some dy =>
         date_compare dx dy = Lt \/
         (dx = dy /\ (type_priority x <= type_priority y)%Q)
     | Some dx, None =>
         dx = mkDate 9999 12 31 -> (type_priority x <= type_priority y)%Q
     | None, Some dy =>
         dy = mkDate 9999 12 31 /\ (type_priority x <= type_priority y)%Q
     | None, None => (type_priority x <= type_priority y)%Q
     end) /\
  (forall x y, before (sort_events events) x y ->
     announcement_date x = announcement_date y ->
     type_priority x = (22 # 10)%Q -> type_priority y = (21 # 10)%Q -> False).
Proof.
  intros Hev.
  assert (sort_events events ≡ₚ events) as Hperm by apply py_sorted_perm.
  assert (forall x y, before (sort_events events) x y ->
            dated_in_range x /\ dated_in_range y /\
            key_le (sort_key x) (sort_key y)) as Hle.
  { intros x y Hb. rewrite Forall_forall in Hev.
    destruct (before_elem_of _ _ _ Hb) as [Hx Hy].
    rewrite Hperm in Hx, Hy. split; [by apply Hev|]. split; [by apply Hev|].
    apply key_lt_false.
    apply (py_sorted_before
             (fun a b => key_lt (sort_key a) (sort_key b))) in Hb; [done|..].
    - intros a b. apply key_lt_asym.
    - intros a b c. apply key_lt_ge_trans. }
  split; [done|]. split.
  - intros x y Hb. destruct (Hle x y Hb) as (Hx & Hy & Hk).
    by apply sort_key_le.
  - intros x y Hb Hd Px Py. destruct (Hle x y Hb) as (Hx & Hy & Hk).
    pose proof (sort_key_le x y Hx Hy Hk) as H. rewrite Hd, Px, Py in H.
    destruct (announcement_date y) as [dy|].
    + destruct H as [H|[_ H]]; [by rewrite date_compare_refl in H|].
      by apply H.
    + by apply H.
Qed.

(** The claim as stated fails on the sentinel: a split dated 9999-12-31 and
    a calendar entry without fiscal date have the same date key, the type
    priority decides, and the undated event is sorted first. *)
Lemma undated_event_sorted_before_dated :
  let split :=
    mkEvent 3 (Some (mkDate 9999 12 31)) (Some (mkDate 9999 12 31))
      (Some {[ "split_ratio" := JStr "2-for-1" ]}) in
  let calendar :=
    mkEvent 2 None (Some (mkDate 2024 4 25))
      (Some {[ "quarter" := JStr "Q2"; "year" := JInt 2024;
               "estimate" := JStr "1.50" ]}) in
  announcement_date calendar = None /\
  announcement_date split = Some (mkDate 9999 12 31) /\
  sort_events [split; calendar] = [calendar; split].
Proof. by vm_compute. Qed.

Lemma sort_determinism_witness :
  let fiscal := Some (mkDate 2024 3 31) in
  let reported := Some (mkDate 2024 4 25) in
  let actual :=
    mkEvent 2 fiscal reported
      (Some {[ "quarter" := JStr "Q1"; "year" := JInt 2024 ]}) in
  let expected :=
    mkEvent 2 fiscal reported
      (Some {[ "quarter" := JStr "Q1"; "year" := JInt 2024;
               "estimate" := JStr "1.50" ]}) in
  Forall dated_in_range [expected; actual] /\
  sort_events [expected; actual] ≡ₚ [expected; actual] /\
  sort_events [expected; actual] = [actual; expected].
Proof.
  intros fiscal reported actual expected.
  assert (Forall dated_in_range [expected; actual]) as Hev.
  { repeat constructor; simpl; lia. }
  split; [exact Hev|].
  split; [exact (proj1 (sort_determinism [expected; actual] Hev))|].
  by vm_compute.
Defined.

End SortKeyFacts.

(** ** The rate series *)

Section RateFacts.
Import Events.
Implicit Types (d : date) (l parsed : list (date * string)).

(** The order of the dates, as a proposition. *)
Lemma date_compare_lt d1 d2 :
  date_compare d1 d2 = Lt <->
  year d1 < year d2 \/
  (year d1 = year d2 /\
   (month d1 < month d2 \/ (month d1 = month d2 /\ day d1 < day d2))).
Proof.
  unfold date_compare.
  destruct (Z.compare_spec (year d1) (year d2));
    [|split; [lia|done] | split; [done|lia]].
  destruct (Z.compare_spec (month d1) (month d2));
    [|split; [lia|done] | split; [done|lia]].
  destruct (Z.compare_spec (day d1) (day d2)); split; (done || lia).
Qed.

Lemma date_compare_antisym d1 d2 :
  date_compare d1 d2 = CompOpp (date_compare d2 d1).
Proof.
  unfold date_compare.
  rewrite (Z.compare_antisym (year d2) (year d1)),
    (Z.compare_antisym (month d2) (month d1)),
    (Z.compare_antisym (day d2) (day d1)).
  destruct (year d2 ?= year d1); simpl; [|done..].
  by destruct (month d2 ?= month d1).
Qed.

Lemma later_lt a b : later a b = true <-> date_compare (fst b) (fst a) = Lt.
Proof.
  unfold later. rewrite (date_compare_antisym (fst a)).
  by destruct (date_compare (fst b) (fst a)).
Qed.

Lemma later_asym a b : later a b = true -> later b a = false.
Proof.
  intros H. apply not_true_is_false. revert H.
  rewrite !later_lt, !date_compare_lt. lia.
Qed.

Lemma later_ge_trans a b c :
  later b a = false -> later c b = false -> later c a = false.
Proof.
  rewrite <- !not_true_iff_false, !later_lt, !date_compare_lt. lia.
Qed.

Lemma not_later a b :
  later b a = false <-> date_compare (fst a) (fst b) <> Lt.
Proof. by rewrite <- not_true_iff_false, later_lt. Qed.

Lemma StronglySorted_weaken {A} (R R' : A -> A -> Prop) (l : list A) :
  (forall a b, R a b -> R' a b) -> StronglySorted R l -> StronglySorted R' l.
Proof.
  intros HR. induction 1 as [|a l Hs IH Ha]; constructor; [done|].
  eapply Forall_impl; [exact Ha|]. apply HR.
Qed.

Variable iteration : gset (date * string) -> list (date * string).
Hypothesis iteration_elements : forall s, iteration s ≡ₚ elements s.

Lemma sorted_set parsed :
  let l := py_sorted later (iteration (list_to_set parsed)) in
  NoDup l /\ (forall x, x ∈ l <-> x ∈ parsed) /\
  StronglySorted (fun a b => date_compare (fst a) (fst b) <> Lt) l /\
  length l = size (list_to_set (C := gset (date * string)) parsed).
Proof.
  intros l.
  assert (l ≡ₚ elements (list_to_set (C := gset (date * string)) parsed))
    as Hp by (unfold l; by rewrite py_sorted_perm, iteration_elements).
  split; [rewrite Hp; apply NoDup_elements|].
  split; [intros x; rewrite Hp, elem_of_elements; apply elem_of_list_to_set|].
  split.
  - eapply StronglySorted_weaken;
      [|apply (py_sorted_sorted later later_asym later_ge_trans)].
    intros a b. apply not_later.
  - by rewrite Hp.
Qed.

Lemma retain_sorted parsed :
  let rates := retain iteration parsed in
  (length rates <= 12)%nat /\
  length rates
    = Nat.min 12 (size (list_to_set (C := gset (date * string)) parsed)) /\
  NoDup rates /\
  StronglySorted (fun a b => date_compare (fst a) (fst b) <> Lt) rates /\
  (forall x, x ∈ rates -> x ∈ parsed) /\
  (forall x y, x ∈ rates -> y ∈ parsed -> y ∉ rates ->
               date_compare (fst x) (fst y) <> Lt).
Proof.
  unfold retain. destruct parsed as [|p parsed'] eqn:E.
  { simpl. repeat split; try done; try lia; try constructor. }
  rewrite <- E. clear E.
  destruct (sorted_set parsed) as (Hnd & Hin & Hs & Hlen).
  set (l := py_sorted later (iteration (list_to_set parsed))) in *.
  cbv zeta. rewrite <- (take_drop 12 l) in Hnd, Hin, Hs.
  apply NoDup_app in Hnd as (Hnd & _ & _).
  split; [rewrite length_take; lia|].
  split; [rewrite length_take; lia|].
  split; [done|].
  split; [by apply StronglySorted_app_1_l in Hs|].
  split.
  - intros x Hx. apply Hin, elem_of_app. by left.
  - intros x y Hx Hy Hn. apply Hin, elem_of_app in Hy as [Hy|Hy]; [done|].
    by apply (StronglySorted_app_1_elem_of _ _ _ _ _ Hs).
Qed.

Lemma process_symbol_calls up rates s symbol :
  List.filter is_rate_call (calls (process_symbol up rates s symbol))
  = List.filter is_rate_call (calls s).
Proof.
  unfold process_symbol. destruct (aborted s); [done|].
  destruct (tables s !! symbol); [|done].
  simpl. rewrite List.filter_app. simpl. apply app_nil_r.
Qed.

Lemma process_symbols_calls up rates symbols : forall s,
  List.filter is_rate_call
    (calls (fold_left (process_symbol up rates) symbols s))
  = List.filter is_rate_call (calls s).
Proof.
  induction symbols as [|symbol symbols IH]; intros s; simpl; [done|].
  by rewrite IH, process_symbol_calls.
Qed.

End RateFacts.

Section RateRun.
Import Events.

Variable iteration : gset (date * string) -> list (date * string).

(** C8 (amended). [process_events] calls [FEDERAL_FUNDS_RATE] once, before
    the loop over the symbols, whatever the symbols and the answers are. The
    retained list has at most 12 entries, no two of them the same (date,
    value) pair, in descending order of date. When the answer is a dict, the
    list has 12 entries or as many as there are distinct parsed pairs, each
    entry is a parsed pair, and no parsed pair left out is dated after a
    retained one. Two pairs of one date with different values are both
    kept. *)
Theorem rate_series_retention up symbols store :
  (forall s, iteration s ≡ₚ elements s) ->
  let r := process_events iteration up symbols store in
  let rates := federal_funds_rates iteration (rate_answer up) in
  (exists rest, calls r = FEDERAL_FUNDS_RATE "monthly" :: rest /\
                List.filter is_rate_call rest = []) /\
  (length rates <= 12)%nat /\
  NoDup rates /\
  StronglySorted (fun a b => date_compare (fst a) (fst b) <> Lt) rates /\
  forall records, rate_answer up = Return (Dict records) ->
    length rates
      = Nat.min 12 (size (list_to_set (C := gset (date * string))
                            (parse_rates records))) /\
    (forall x, x ∈ rates -> x ∈ parse_rates records) /\
    (forall x y, x ∈ rates -> y ∈ parse_rates records -> y ∉ rates ->
                 date_compare (fst x) (fst y) <> Lt).
Proof.
  intros Hit r rates. split.
  - subst r. unfold process_events.
    set (s0 := mkRun store [FEDERAL_FUNDS_RATE "monthly"] 0 false).
    pose proof (process_symbols_calls up
                  (federal_funds_rates iteration (rate_answer up)) symbols s0)
      as Hc.
    assert (exists rest,
              calls (fold_left (process_symbol up
                       (federal_funds_rates iteration (rate_answer up)))
                       symbols s0)
              = calls s0 ++ rest) as [rest Hrest].
    { clear Hc. generalize s0. induction symbols as [|x symbols IH];
        intros s; simpl.
      - exists []. by rewrite app_nil_r.
      - destruct (IH (process_symbol up
                        (federal_funds_rates iteration (rate_answer up)) s x))
          as [rest ->].
        unfold process_symbol. destruct (aborted s); [by exists rest|].
        destruct (tables s !! x); simpl.
        + eexists. by rewrite <- app_assoc.
        + by exists rest. }
    rewrite Hrest in Hc |- *. exists rest. split; [done|].
    simpl in Hc. by inversion Hc.
  - subst rates. unfold federal_funds_rates.
    destruct (rate_answer up) as [[|records]|e].
    + split; [simpl; lia|]. split; [constructor|]. split; [constructor|].
      intros records E. discriminate E.
    + destruct (retain_sorted iteration Hit (parse_rates records))
        as (H1 & H2 & H3 & H4 & H5 & H6).
      split; [done|]. split; [done|]. split; [done|].
      intros records' E. inversion E; subst records'. by split.
    + split; [simpl; lia|]. split; [constructor|]. split; [constructor|].
      intros records E. discriminate E.
Qed.

End RateRun.

Section RateCases.
Import Events.

(** The claim as stated fails on a date that comes with two values: the set
    holds both pairs, and both are retained. *)
Lemma two_rates_on_one_date :
  let day := mkDate 2024 1 1 in
  let records := [mkRate (Some day) (JStr "5.33");
                  mkRate (Some day) (JStr "5.30")] in
  map fst (federal_funds_rates elements (Return (Dict records))) = [day; day].
Proof. by vm_compute. Qed.

Lemma rate_series_retention_witness :
  let up :=
    mkUpstream
      (Return (Dict [mkRate (Some (mkDate 2024 1 1)) (JStr "5.33");
                     mkRate (Some (mkDate 2024 2 1)) (JStr "5.33")]))
      (fun _ => []) in
  let store : gmap string (list row) := {[ "IBM"%string := [] ]} in
  (forall s : gset (date * string), elements s ≡ₚ elements s) /\
  (exists rest,
     calls (process_events elements up ["IBM"%string] store)
     = FEDERAL_FUNDS_RATE "monthly" :: rest /\
     List.filter is_rate_call rest = []) /\
  (length (federal_funds_rates elements (rate_answer up)) <= 12)%nat.
Proof.
  intros up store.
  assert (forall s : gset (date * string), elements s ≡ₚ elements s) as Hit
    by done.
  split; [exact Hit|].
  destruct (rate_series_retention elements up ["IBM"%string] store Hit)
    as (Hc & Hl & _).
  by split.
Defined.

End RateCases.

Section IndicatorCases.
Import Indicators.

(** The claim as stated fails for the weekly federal funds rate: with the
    watermark on 2024-01-10, an entry dated 2024-01-12 passes the filter and
    is stored five days back, on 2024-01-07, before the watermark. *)
Lemma weekly_rate_stored_before_watermark :
  let store : gmap interval (list row) :=
    {[ weekly := [mkRow 1 1 237 738895 {[ "WEFFRP_value" := NFloat (Fin 5 0) ]}] ]} in
  let up : upstream := fun f i =>
    match f with
    | FEDERAL_FUNDS_RATE =>
        Return (DictWithData [mkEntry (Some 738897) "5.5" (Some (Fin 11 (-1)))])
    | _ => Raise (RequestError "offline")
    end in
  let s := mkState store [] [] [] [] 0 in
  let s' := fst (process_item up weekly
                   ("Federal_funds_interval_list", [daily; weekly; monthly]) s) in
  prev_date_of "WEFFRP_value" (table s weekly) = 738895 /\
  statements s' =
    [COPY weekly "WEFFRP_value" [(2, 237, 738892, NFloat (Fin 11 (-1)))]] /\
  table s' weekly =
    [mkRow 1 1 237 738895 {[ "WEFFRP_value" := NFloat (Fin 5 0) ]};
     mkRow 2 2 237 738892 {[ "WEFFRP_value" := NFloat (Fin 11 (-1)) ]}] /\
  (738892 <=? 738895) = true.
Proof. vm_compute. repeat split. Qed.

(** The theorem at the scenario of the specification. *)
Lemma watermark_monotonicity_witness :
  let store : gmap interval (list row) :=
    {[ monthly := [mkRow 1 1 237 738886 {[ "MEFFRP_value" := NFloat (Fin 21 (-2)) ]}] ]} in
  let up : upstream := fun f i =>
    match f with
    | FEDERAL_FUNDS_RATE =>
        Return (DictWithData [mkEntry (Some 738917) "5.5" (Some (Fin 11 (-1)));
                              mkEntry (Some 738886) "5.25" (Some (Fin 21 (-2)))])
    | _ => Raise (RequestError "offline")
    end in
  let s := mkState store [] [] [] [] 0 in
  let item := ("Federal_funds_interval_list", [daily; weekly; monthly]) in
  NoDup (map row_PK (table s monthly)) /\
  forall r, r ∈ table (fst (process_item up monthly item s)) monthly ->
    r ∈ table s monthly \/
    ("MEFFRP_value" <> "WEFFRP_value" /\ 738886 < row_date r) \/
    ("MEFFRP_value" = "WEFFRP_value" /\
     738886 - 5 < row_date r /\ row_date r <> 738886).
Proof.
  intros store up s item.
  assert (NoDup (map row_PK (table s monthly))) as Hnd.
  { apply NoDup_ListNoDup. vm_compute. repeat constructor. simpl. tauto. }
  split; [exact Hnd|].
  exact (proj2 (watermark_monotonicity up monthly
                  "Federal_funds_interval_list" [daily; weekly; monthly] s Hnd
                  "EFFRP_value" FEDERAL_FUNDS_RATE true eq_refl)).
Defined.

(** The claim as stated fails on the configuration of [resolve_EIE]: the
    rate request answers with a note instead of data (a dict without
    ["data"]), the TypeError leaves [process_economic_indicators], and the
    treasury yield, whose new entry would have been copied in, is never
    reached. *)
Lemma indicator_failure_not_isolated :
  let up : upstream := fun f i =>
    match f with
    | FEDERAL_FUNDS_RATE => Return (DictWithoutData ["Information"])
    | TREASURY_YIELD =>
        Return (DictWithData [mkEntry (Some 738917) "4" (Some (Fin 4 0))])
    | _ => Return (DictWithData [])
    end in
  let s0 := mkState ∅ [] [] [] [] 0 in
  process_economic_indicators up ∅ interval_list interval_dict [] [] =
    (mkState ∅ [] [NoValues "real_GDP_interval_list" daily;
                   NoValues "real_GDP_pc_interval_list" daily] [] [] 0,
     Raise TypeError) /\
  statements (fst (process_item up daily
                     ("Treasury_yield_interval_list", [daily; weekly; monthly])
                     s0)) =
    [COPY daily "DTCMRP_value" [(1, 237, 738917, NInt 4)]].
Proof. vm_compute. split; reflexivity. Qed.

(** The theorem on the configuration of [resolve_EIE], the rate request
    failing. *)
Lemma indicator_failure_ends_run_witness :
  let up : upstream := fun f i =>
    match f with
    | FEDERAL_FUNDS_RATE => Raise (RequestError "timeout")
    | TREASURY_YIELD =>
        Return (DictWithData [mkEntry (Some 738917) "4" (Some (Fin 4 0))])
    | _ => Return (DictWithData [])
    end in
  let s0 := mkState ∅ [] [] [] [] 0 in
  let s2 := mkState ∅ [] [NoValues "real_GDP_interval_list" daily;
                          NoValues "real_GDP_pc_interval_list" daily]
              [] [] 0 in
  process_items up daily
    [("real_GDP_interval_list", [quarterly; annual]);
     ("real_GDP_pc_interval_list", [quarterly])] s0 = (s2, None) /\
  fetch up "Federal_funds_interval_list" FEDERAL_FUNDS_RATE true daily
    = Raise (RequestError "timeout") /\
  process_economic_indicators up ∅ interval_list interval_dict [] []
    = (s2, Raise (RequestError "timeout")) /\
  resolve_step1 up ∅ = (s2, ([], 0)).
Proof.
  intros up s0 s2.
  assert (process_items up daily
            [("real_GDP_interval_list", [quarterly; annual]);
             ("real_GDP_pc_interval_list", [quarterly])] s0 = (s2, None))
    as H2 by (vm_compute; reflexivity).
  assert (fetch up "Federal_funds_interval_list" FEDERAL_FUNDS_RATE true daily
          = Raise (RequestError "timeout")) as Hf by reflexivity.
  pose proof (indicator_failure_ends_run up ∅ [] [] [] daily
                [weekly; monthly; semiannual; quarterly; annual]
                [("real_GDP_interval_list", [quarterly; annual]);
                 ("real_GDP_pc_interval_list", [quarterly])]
                "Federal_funds_interval_list" [daily; weekly; monthly]
                (List.skipn 3 interval_dict) s0 s2
                "EFFRP_value" FEDERAL_FUNDS_RATE true
                (RequestError "timeout")
                eq_refl H2 ltac:(set_solver) eq_refl (or_introl Hf))
    as [Hrun Hres].
  split; [exact H2|]. split; [exact Hf|]. split; [exact Hrun|].
  exact (Hres eq_refl eq_refl eq_refl eq_refl).
Defined.

(** The claim as stated fails for the weekly federal funds rate: with the
    watermark on 2024-01-10 and an entry dated 2024-01-12, the first run
    copies a row in for 2024-01-07, the watermark stays, and the second run
    against the same upstream updates that row again. *)
Lemma weekly_rate_rewritten_on_second_run :
  let up : upstream := fun f i =>
    match f, i with
    | FEDERAL_FUNDS_RATE, Some weekly =>
        Return (DictWithData [mkEntry (Some 738897) "5.5" (Some (Fin 11 (-1)))])
    | _, _ => Return (DictWithData [])
    end in
  let store : gmap interval (list row) :=
    {[ weekly := [mkRow 1 1 237 738895 {[ "WEFFRP_value" := NFloat (Fin 5 0) ]}] ]} in
  let run1 :=
    process_economic_indicators up store interval_list interval_dict [] [] in
  let run2 :=
    process_economic_indicators up (db (fst run1)) interval_list interval_dict
      [] [] in
  statements (fst run1) =
    [COPY weekly "WEFFRP_value" [(2, 237, 738892, NFloat (Fin 11 (-1)))]] /\
  statements (fst run2) =
    [UPDATE weekly (NFloat (Fin 11 (-1)), 2, "WEFFRP_value")].
Proof. vm_compute. split; reflexivity. Qed.

(** The theorem on the configuration of [resolve_EIE], the monthly rate
    series bringing one new entry. *)
Lemma ingestion_idempotent_witness :
  let up : upstream := fun f i =>
    match f, i with
    | FEDERAL_FUNDS_RATE, Some monthly =>
        Return (DictWithData [mkEntry (Some 738917) "5.5" (Some (Fin 11 (-1)));
                              mkEntry (Some 738886) "5.25" (Some (Fin 21 (-2)))])
    | _, _ => Return (DictWithData [])
    end in
  let store : gmap interval (list row) :=
    {[ monthly := [mkRow 1 1 237 738886 {[ "MEFFRP_value" := NFloat (Fin 21 (-2)) ]}] ]} in
  let run1 :=
    process_economic_indicators up store interval_list interval_dict [] [] in
  keyed store /\
  statements (fst run1) =
    [COPY monthly "MEFFRP_value" [(2, 237, 738917, NFloat (Fin 11 (-1)))]] /\
  exists s2 notices,
    process_economic_indicators up (db (fst run1)) interval_list interval_dict
      [] [] = (s2, Return (notices, 0)) /\
    db s2 = db (fst run1) /\ statements s2 = [].
Proof.
  intros up store run1.
  assert (keyed store) as Hkey.
  { intros list_. apply NoDup_ListNoDup.
    destruct list_; vm_compute; repeat constructor. simpl. tauto. }
  assert (forall data l,
            up FEDERAL_FUNDS_RATE (Some weekly) = Return data ->
            data_list data = Return l ->
            regular (prev_date_of "WEFFRP_value" (store !!! weekly)) l) as Hreg.
  { intros data l Hup Hd. inversion Hup; subst data. inversion Hd; subst l.
    split; [intros ? ? Hin|intros ? ? ? ? Hin]; by apply elem_of_nil in Hin. }
  assert (exists result, run1 = (fst run1, Return result)) as [result Hrun].
  { eexists. vm_compute. reflexivity. }
  split; [exact Hkey|]. split; [vm_compute; reflexivity|].
  exact (ingestion_idempotent up store interval_list interval_dict [] []
           (fst run1) result Hkey Hreg Hrun [] []).
Defined.

End IndicatorCases.

(* ===================================================================== *)
(** * Further properties of the code *)
(* ===================================================================== *)

Section GapFillMore.
Import GapFill.
Context {V : Type}.
Implicit Types (t : list (row V)) (r : row V) (us : list (V * Z)).

Lemma first_valid_value_none t :
  first_valid_value t = None <-> Forall (fun r => row_value r = None) t.
Proof.
  induction t as [|r t IH]; simpl; [by split; [constructor|]|].
  rewrite Forall_cons. destruct (row_value r); [|by rewrite IH; intuition].
  split; [done|]. by intros [? _].
Qed.

Lemma first_valid_value_some t v :
  first_valid_value t = Some v -> exists r, r ∈ t /\ row_value r = Some v.
Proof.
  induction t as [|r t IH]; simpl; [done|].
  destruct (row_value r) as [w|] eqn:E.
  - intros [= ->]. exists r. split; [apply list_elem_of_here|done].
  - intros H. destruct (IH H) as (r' & Hr' & Hv). exists r'.
    split; [by apply list_elem_of_further|done].
Qed.

Lemma collect_updates_nulls records : forall last r,
  r ∈ records -> row_value r = None ->
  exists v, (v, row_date r) ∈ collect_updates last records.
Proof.
  induction records as [|x records IH]; intros last r Hin Hr;
    [by apply elem_of_nil in Hin|].
  simpl. apply elem_of_cons in Hin as [<-|Hin].
  - rewrite Hr. exists last. apply list_elem_of_here.
  - destruct (row_value x) as [v|].
    + by apply IH.
    + destruct (IH last r Hin Hr) as [w Hw]. exists w.
      by apply list_elem_of_further.
Qed.

Lemma collect_updates_valued records : forall last,
  Forall (fun r => is_Some (row_value r)) records ->
  collect_updates last records = [].
Proof.
  induction records as [|x records IH]; intros last H; [done|].
  apply Forall_cons in H as [[v Hv] H]. simpl. rewrite Hv. by apply IH.
Qed.

Lemma filled_row_some us r :
  (exists v, (v, row_date r) ∈ us) -> is_Some (row_value (filled_row us r)).
Proof.
  intros [v Hv]. unfold filled_row.
  destruct (row_value r) as [w|] eqn:Hr; [by rewrite Hr|].
  destruct (List.find (fun u => row_date r =? snd u) us) as [u|] eqn:Hf;
    [by eexists|].
  exfalso. apply list_elem_of_In in Hv.
  apply (List.find_none _ _ Hf) in Hv. simpl in Hv. lia.
Qed.

Lemma fill_all_valued t :
  (exists r, r ∈ t /\ is_Some (row_value r)) ->
  Forall (fun r => is_Some (row_value r)) (forward_backward_fill_indicator t).
Proof.
  rewrite fill_unfold. intros (r0 & Hr0 & Hv0).
  destruct (first_valid_value (order_by_date t)) as [v0|] eqn:E.
  - apply Forall_fmap, Forall_forall. intros r Hr. simpl.
    destruct (row_value r) as [v|] eqn:Hv.
    + unfold filled_row. rewrite Hv. by rewrite Hv.
    + apply filled_row_some. apply collect_updates_nulls; [|done].
      by rewrite order_by_date_perm.
  - apply first_valid_value_none in E. rewrite Forall_forall in E.
    rewrite <- (order_by_date_perm t) in Hr0. apply E in Hr0.
    rewrite Hr0 in Hv0. by destruct Hv0.
Qed.

(** X1. The gap filler on any table, repeated dates included: it returns
    the rows in their places with their dates, a row whose cell holds a
    value is returned as it is, and when some cell of the column holds a
    value no cell is left NULL. *)
Theorem fill_keeps_values t :
  Forall2 (fun r r' => row_date r' = row_date r /\
                       (is_Some (row_value r) -> r' = r))
    t (forward_backward_fill_indicator t) /\
  ((exists r, r ∈ t /\ is_Some (row_value r)) ->
   Forall (fun r => is_Some (row_value r)) (forward_backward_fill_indicator t)).
Proof.
  split; [|apply fill_all_valued]. rewrite fill_unfold.
  destruct (first_valid_value (order_by_date t)) as [v0|].
  - apply Forall2_fmap_r, Forall_Forall2_diag, Forall_forall.
    intros r _. split; [apply filled_row_date|].
    intros [v Hv]. unfold filled_row. by rewrite Hv.
  - apply Forall_Forall2_diag, Forall_forall. by intros r _.
Qed.

(** X2. Filling a second time changes nothing. *)
Theorem fill_idempotent t :
  forward_backward_fill_indicator (forward_backward_fill_indicator t)
  = forward_backward_fill_indicator t.
Proof.
  destruct (first_valid_value (order_by_date t)) as [v0|] eqn:E.
  - assert (Forall (fun r => is_Some (row_value r))
              (forward_backward_fill_indicator t)) as Hall.
    { apply fill_all_valued.
      apply first_valid_value_some in E as (r & Hr & Hv).
      exists r. split; [by rewrite <- (order_by_date_perm t)|].
      by rewrite Hv. }
    set (t' := forward_backward_fill_indicator t) in *.
    rewrite (fill_unfold t').
    destruct (first_valid_value (order_by_date t')) as [v1|]; [|done].
    rewrite collect_updates_valued; [|by rewrite order_by_date_perm].
    rewrite <- (map_id t') at 2. apply map_ext. intros r.
    unfold filled_row. by destruct (row_value r).
  - rewrite (fill_unfold t), E. rewrite (fill_unfold t). by rewrite E.
Qed.

End GapFillMore.

Section FillStage.
Import Indicators Resolve.
Implicit Types (t : list row) (r : row) (c : string)
  (store : gmap interval (list row)).

Lemma grown_in_refl c r : grown_in c r r.
Proof. by repeat split. Qed.

Lemma grown_in_trans c r1 r2 r3 :
  grown_in c r1 r2 -> grown_in c r2 r3 -> grown_in c r1 r3.
Proof.
  intros [(A1 & A2 & A3 & A4 & A5) A6] [(B1 & B2 & B3 & B4 & B5) B6].
  split; [repeat split; try congruence; by etrans|].
  intros c' Hc. by rewrite B6, A6.
Qed.

Lemma has_value_lookup c r :
  has_value c r = false -> row_cells r !! c = None.
Proof.
  unfold has_value. intros H. apply bool_decide_eq_false in H.
  destruct (row_cells r !! c); [|done]. exfalso. apply H. by eexists.
Qed.

Lemma update_column_grown c t u :
  Forall2 (grown_in c) t (update_column c t u).
Proof.
  unfold update_column. apply Forall2_fmap_r, Forall_Forall2_diag, Forall_forall.
  intros r _. simpl.
  destruct ((row_date r =? snd u) && negb (has_value c r)) eqn:E;
    [|apply grown_in_refl].
  apply andb_true_iff in E as [_ E]. apply negb_true_iff in E.
  apply has_value_lookup in E. split.
  - repeat split; simpl. by apply insert_subseteq.
  - intros c' Hc. simpl. by rewrite lookup_insert_ne.
Qed.

Lemma Forall2_grown_trans c t1 t2 t3 :
  Forall2 (grown_in c) t1 t2 -> Forall2 (grown_in c) t2 t3 ->
  Forall2 (grown_in c) t1 t3.
Proof.
  intros H. revert t3. induction H as [|r1 r2 t1 t2 Hr H IH]; intros t3 H3.
  - by inversion H3.
  - inversion H3; subst. constructor; [by eapply grown_in_trans|by apply IH].
Qed.

Lemma updates_grown c us : forall t,
  Forall2 (grown_in c) t (fold_left (update_column c) us t).
Proof.
  induction us as [|u us IH]; intros t; simpl.
  - apply Forall_Forall2_diag, Forall_forall. intros r _. apply grown_in_refl.
  - eapply Forall2_grown_trans; [apply update_column_grown|apply IH].
Qed.

Lemma fill_column_grown c t : Forall2 (grown_in c) t (fill_column c t).
Proof.
  unfold fill_column. destruct (GapFill.first_valid_value _).
  - apply updates_grown.
  - apply Forall_Forall2_diag, Forall_forall. intros r _. apply grown_in_refl.
Qed.

(** The fill of the table is the fill of its two columns. *)
Lemma update_column_records c t u :
  column_records c (update_column c t u)
  = GapFill.update_null_at (column_records c t) u.
Proof.
  unfold column_records, update_column, GapFill.update_null_at.
  rewrite !map_map. apply map_ext. intros r. simpl.
  destruct (has_value c r) eqn:Hv.
  - unfold has_value in Hv. apply bool_decide_eq_true in Hv as [v Hv].
    rewrite Hv. simpl. rewrite !andb_false_r. simpl. by rewrite Hv.
  - apply has_value_lookup in Hv. rewrite Hv. simpl.
    rewrite !andb_true_r. destruct (row_date r =? snd u); simpl.
    + by rewrite lookup_insert_eq.
    + by rewrite Hv.
Qed.

Lemma updates_records c us : forall t,
  column_records c (fold_left (update_column c) us t)
  = GapFill.executemany (column_records c t) us.
Proof.
  unfold GapFill.executemany.
  induction us as [|u us IH]; intros t; simpl; [done|].
  by rewrite IH, update_column_records.
Qed.

Lemma fill_column_records c t :
  column_records c (fill_column c t)
  = GapFill.forward_backward_fill_indicator (column_records c t).
Proof.
  unfold fill_column, GapFill.forward_backward_fill_indicator.
  destruct (GapFill.order_by_date (column_records c t)) as [|x recs] eqn:E;
    [done|].
  destruct (GapFill.first_valid_value (x :: recs)) as [v0|]; [|done].
  rewrite updates_records.
  by destruct (GapFill.collect_updates v0 (x :: recs)).
Qed.

Lemma has_value_record c r :
  has_value c r = true
  <-> is_Some (GapFill.row_value
                 (GapFill.mkRow (row_date r) (row_cells r !! c))).
Proof. unfold has_value. simpl. apply bool_decide_eq_true. Qed.

Lemma fill_column_gapless c t : gapless c (fill_column c t).
Proof.
  intros (r0 & Hr0 & Hv0) r Hr.
  assert (Forall (fun x => is_Some (GapFill.row_value x))
            (column_records c (fill_column c t))) as Hall.
  { rewrite fill_column_records.
    destruct (GapFill.first_valid_value
                (GapFill.order_by_date (column_records c t))) as [v0|] eqn:E.
    - apply fill_all_valued.
      apply first_valid_value_some in E as (x & Hx & Hv).
      exists x. split; [by rewrite <- (order_by_date_perm _)|].
      by rewrite Hv.
    - exfalso. unfold fill_column in Hr0. rewrite E in Hr0.
      apply first_valid_value_none in E. rewrite Forall_forall in E.
      specialize (E (GapFill.mkRow (row_date r0) (row_cells r0 !! c))).
      apply has_value_record in Hv0. rewrite E in Hv0; [by destruct Hv0|].
      rewrite order_by_date_perm. apply list_elem_of_fmap. by exists r0. }
  rewrite Forall_forall in Hall. apply has_value_record, Hall.
  apply list_elem_of_fmap. by exists r.
Qed.

Lemma Forall2_elem_r {A B} (R : A -> B -> Prop) l l' y :
  Forall2 R l l' -> y ∈ l' -> exists x, x ∈ l /\ R x y.
Proof.
  induction 1 as [|x0 y0 l l' HR H IH]; intros Hy;
    [by apply elem_of_nil in Hy|].
  apply elem_of_cons in Hy as [->|Hy].
  - exists x0. split; [apply list_elem_of_here|done].
  - destruct (IH Hy) as (x & Hx & HRx). exists x.
    split; [by apply list_elem_of_further|done].
Qed.

Lemma Forall2_elem_l {A B} (R : A -> B -> Prop) l l' x :
  Forall2 R l l' -> x ∈ l -> exists y, y ∈ l' /\ R x y.
Proof.
  induction 1 as [|x0 y0 l l' HR H IH]; intros Hx;
    [by apply elem_of_nil in Hx|].
  apply elem_of_cons in Hx as [->|Hx].
  - exists y0. split; [apply list_elem_of_here|done].
  - destruct (IH Hx) as (y & Hy & HRy). exists y.
    split; [by apply list_elem_of_further|done].
Qed.

Lemma grown_in_gapless c c' t t' :
  c <> c' -> Forall2 (grown_in c') t t' -> gapless c t -> gapless c t'.
Proof.
  intros Hne H2 Hg (r0' & Hr0' & Hv0') r' Hr'.
  assert (forall x x', grown_in c' x x' -> has_value c x' = has_value c x)
    as Hsame.
  { intros x x' [_ Hx]. unfold has_value. by rewrite Hx. }
  destruct (Forall2_elem_r _ _ _ _ H2 Hr0') as (r0 & Hr0 & HR0).
  destruct (Forall2_elem_r _ _ _ _ H2 Hr') as (r & Hr & HR).
  rewrite (Hsame _ _ HR). apply Hg; [|done].
  exists r0. split; [done|]. by rewrite <- (Hsame _ _ HR0).
Qed.

(** *** The stage *)

Lemma fill_item_table interval_ store item list_ :
  fill_item interval_ store item !!! list_ = store !!! list_ \/
  exists suffix,
    list_ = interval_ /\ interval_ ∈ snd item /\
    fill_map (fst item) = Some suffix /\
    fill_item interval_ store item !!! list_
    = fill_column (prefix_map interval_ +:+ suffix) (store !!! list_).
Proof.
  unfold fill_item. case_bool_decide as Hin; [|by left].
  destruct (fill_map (fst item)) as [suffix|] eqn:E; [|by left].
  destruct (decide (list_ = interval_)) as [->|Hne].
  - right. exists suffix. by rewrite lookup_total_insert_eq.
  - left. by rewrite lookup_total_insert_ne.
Qed.

Lemma fill_item_gapless interval_ store item list_ c :
  gapless c (store !!! list_) ->
  gapless c (fill_item interval_ store item !!! list_).
Proof.
  intros Hg.
  destruct (fill_item_table interval_ store item list_)
    as [->|(suffix & -> & _ & _ & ->)]; [done|].
  destruct (decide (c = prefix_map interval_ +:+ suffix)) as [->|Hne].
  - apply fill_column_gapless.
  - eapply grown_in_gapless; [exact Hne|apply fill_column_grown|done].
Qed.

Lemma fill_item_grown interval_ store item list_ :
  Forall2 grown (store !!! list_) (fill_item interval_ store item !!! list_).
Proof.
  destruct (fill_item_table interval_ store item list_)
    as [->|(suffix & -> & _ & _ & ->)].
  - apply Forall_Forall2_diag, Forall_forall. intros r _. by repeat split.
  - eapply Forall2_impl; [apply fill_column_grown|]. by intros r r' [H _].
Qed.

Lemma fill_item_fills interval_ store item suffix :
  interval_ ∈ snd item -> fill_map (fst item) = Some suffix ->
  gapless (prefix_map interval_ +:+ suffix)
    (fill_item interval_ store item !!! interval_).
Proof.
  intros Hin Hm. unfold fill_item.
  rewrite bool_decide_eq_true_2, Hm by done.
  rewrite lookup_total_insert_eq. apply fill_column_gapless.
Qed.

(** A property that every step keeps and one step of the list brings about
    holds at the end. *)
Lemma fold_left_brings {S A} (step : S -> A -> S) (Q : S -> Prop) l x0 :
  (forall st x, Q st -> Q (step st x)) ->
  (forall st, Q (step st x0)) ->
  x0 ∈ l -> forall st, Q (fold_left step l st).
Proof.
  intros Hkeep Hbring. induction l as [|x l IH]; intros Hin st;
    [by apply elem_of_nil in Hin|].
  simpl. apply elem_of_cons in Hin as [<-|Hin]; [|by apply IH].
  clear IH. generalize (Hbring st). generalize (step st x0).
  induction l as [|y l IH]; intros st' Hst'; simpl; [done|].
  by apply IH, Hkeep.
Qed.

Lemma fold_left_keeps {S A} (step : S -> A -> S) (Q : S -> Prop) l :
  (forall st x, Q st -> Q (step st x)) ->
  forall st, Q st -> Q (fold_left step l st).
Proof.
  intros Hkeep. induction l as [|x l IH]; intros st Hst; simpl; [done|].
  by apply IH, Hkeep.
Qed.

Lemma interval_list_all (i : interval) : i ∈ interval_list.
Proof. unfold interval_list. destruct i; repeat constructor. Qed.

Lemma Forall2_grown_refl t : Forall2 grown t t.
Proof. apply Forall_Forall2_diag, Forall_forall. intros r _. by repeat split. Qed.

Lemma Forall2_grown_compose t1 t2 t3 :
  Forall2 grown t1 t2 -> Forall2 grown t2 t3 -> Forall2 grown t1 t3.
Proof.
  intros H. revert t3. induction H as [|r1 r2 t1 t2 Hr H IH]; intros t3 H3.
  - by inversion H3.
  - inversion H3 as [|? r3 ? ? Hr3]; subst. constructor; [|by apply IH].
    destruct Hr as (A1 & A2 & A3 & A4 & A5), Hr3 as (B1 & B2 & B3 & B4 & B5).
    repeat split; try congruence. by etrans.
Qed.

(** X3. After the fill stage of [resolve_EIE], every column configured for
    an interval holds a value in every row of the table of that interval, or
    in none; the stage keeps every row, with its keys and date, and every
    cell that held a value. *)
Theorem fill_stage_leaves_no_gap store :
  (forall indicator intervals interval_ suffix,
     (indicator, intervals) ∈ interval_dict -> interval_ ∈ intervals ->
     fill_map indicator = Some suffix ->
     gapless (prefix_map interval_ +:+ suffix)
       (fill_stage store !!! interval_)) /\
  (forall list_,
     Forall2 grown (store !!! list_) (fill_stage store !!! list_)).
Proof.
  split.
  - intros indicator intervals interval_ suffix Hitem Hin Hm.
    unfold fill_stage.
    apply (fold_left_brings
             (fun st i => fold_left (fill_item i) interval_dict st)
             (fun st => gapless (prefix_map interval_ +:+ suffix)
                          (st !!! interval_))
             interval_list interval_).
    + intros st i Hst. apply fold_left_keeps; [|done].
      intros st' item. apply fill_item_gapless.
    + intros st.
      apply (fold_left_brings (fill_item interval_)
               (fun st => gapless (prefix_map interval_ +:+ suffix)
                            (st !!! interval_))
               interval_dict (indicator, intervals)); [| |done].
      * intros st' item. apply fill_item_gapless.
      * intros st'. by apply fill_item_fills.
    + apply interval_list_all.
  - intros list_. unfold fill_stage.
    apply (fold_left_keeps _
             (fun st => Forall2 grown (store !!! list_) (st !!! list_)));
      [|apply Forall2_grown_refl].
    intros st i Hst.
    apply (fold_left_keeps _
             (fun st => Forall2 grown (store !!! list_) (st !!! list_)));
      [|done].
    intros st' item Hst'. eapply Forall2_grown_compose; [exact Hst'|].
    apply fill_item_grown.
Qed.

End FillStage.

Section SplitMore.
Import Split.

(** X4. A factor of zero (of either sign, any exponent) gives None: the
    division raises DivisionByZero, which is caught. A negative factor is
    neither rejected nor taken for a split above 1: it gives
    "Reverse N-for-1" with N the rounded reciprocal and its minus sign, and
    None when the magnitude of N has more than 28 digits. *)
Theorem split_ratio_zero_and_negative :
  (forall s e, compute_split_ratio_str (PyNumber (Finite s 0 e)) = None) /\
  (forall c e, c <> 0%N ->
     let q := fst (reciprocal c e) in
     let t := snd (reciprocal c e) in
     let n := round_half_even (q * 10 ^ Z.max t 0) (10 ^ Z.max (- t) 0) in
     compute_split_ratio_str (PyNumber (Finite true c e))
     = if n <? 10 ^ 28 then Some ("Reverse " +:+ str (- n) +:+ "-for-1")
       else None).
Proof.
  split.
  - intros s e. simpl.
    assert (eq_one s 0 e = false) as ->.
    { unfold eq_one, numerator. pose proof (denominator_pos e).
      rewrite andb_false_iff. right. apply Z.eqb_neq.
      change (Z.of_N 0) with 0. lia. }
    assert (gt_one s 0 e = false) as ->; [|done].
    unfold gt_one, numerator. pose proof (denominator_pos e).
    rewrite andb_false_iff. right. apply Z.ltb_ge.
    change (Z.of_N 0) with 0. lia.
  - intros c e Hc. simpl. apply N.eqb_neq in Hc. rewrite Hc.
    destruct (reciprocal c e) as [q t]; simpl.
    unfold quantize_unit, prec. by destruct (_ <? _).
Qed.

(** X5. A factor strictly between 1 and 1.5 is labelled "1-for-1". *)
Theorem split_ratio_below_three_halves c e :
  gt_one false c e = true ->
  2 * numerator c e < 3 * denominator e ->
  compute_split_ratio_str (PyNumber (Finite false c e))
  = Some "1-for-1"%string.
Proof.
  intros Hgt Hlt. simpl.
  assert (eq_one false c e = false) as ->.
  { unfold eq_one, gt_one in *. simpl in *. apply Z.ltb_lt in Hgt.
    apply Z.eqb_neq. lia. }
  rewrite Hgt. unfold gt_one in Hgt. simpl in Hgt. apply Z.ltb_lt in Hgt.
  pose proof (denominator_pos e) as Hb.
  set (a := numerator c e) in *. set (b := denominator e) in *.
  assert (a / b = 1) as Hq by (symmetry; apply (Z.div_unique a b 1 (a - b)); lia).
  assert (a mod b = a - b) as Hr
    by (symmetry; apply (Z.mod_unique a b 1 (a - b)); lia).
  unfold quantize_unit, round_half_even. rewrite Hq, Hr.
  assert ((2 * (a - b) ?= b) = Lt) as -> by (apply Z.compare_lt_iff; lia).
  done.
Qed.

End SplitMore.

Lemma split_ratio_below_three_halves_witness :
  Split.gt_one false 125 (-2) = true /\
  2 * Split.numerator 125 (-2) < 3 * Split.denominator (-2) /\
  Split.compute_split_ratio_str (Split.PyNumber (Split.Finite false 125 (-2)))
  = Some "1-for-1"%string.
Proof.
  assert (Split.gt_one false 125 (-2) = true) as H1 by reflexivity.
  assert (2 * Split.numerator 125 (-2) < 3 * Split.denominator (-2)) as H2
    by (vm_compute; reflexivity).
  split; [exact H1|]. split; [exact H2|].
  exact (split_ratio_below_three_halves 125 (-2) H1 H2).
Defined.

Section IndicatorRun.
Import Indicators.
Implicit Types (t : list row) (r : row) (s : state).

(** What one item leaves of the store and of the count: nothing new, or the
    table of the interval loaded with a plan and the count raised by the
    number of its inserts. *)
Lemma process_item_db up list_ item s :
  let s' := fst (process_item up list_ item s) in
  (db s' = db s /\
   total_indicators_inserted s' = total_indicators_inserted s) \/
  exists c p,
    db s' = <[list_ := load c (table s list_) p]> (db s) /\
    total_indicators_inserted s'
    = total_indicators_inserted s + Z.of_nat (length (snd p)).
Proof.
  destruct item as [indicator interval_]. unfold process_item.
  destruct (bool_decide (list_ ∈ interval_)); simpl.
  2:{ left. by case_bool_decide. }
  destruct (indicator_map indicator) as [[[suffix f] direct]|]; [|by left].
  destruct (extract _ _ _ _ _ _ _ _) as [err| |ws [dd|err]]; simpl.
  - by left.
  - left. by case_bool_decide.
  - destruct dd as [|d dd]; simpl; [by left|]. right. by eexists _, _.
  - by left.
Qed.

Section Invariant.
Variable I : state -> state -> Prop.
Hypothesis I_refl : forall s, I s s.
Hypothesis I_trans : forall s1 s2 s3, I s1 s2 -> I s2 s3 -> I s1 s3.
Hypothesis I_step :
  forall up list_ item s, I s (fst (process_item up list_ item s)).

Lemma process_items_invariant up list_ items : forall s,
  I s (fst (process_items up list_ items s)).
Proof.
  induction items as [|item items IH]; intros s; simpl; [done|].
  pose proof (I_step up list_ item s) as H1.
  destruct (process_item up list_ item s) as [s1 [err|]]; simpl in *; [done|].
  by eapply I_trans.
Qed.

Lemma process_intervals_invariant up il items : forall s,
  I s (fst (process_intervals up il items s)).
Proof.
  induction il as [|list_ il IH]; intros s; simpl; [done|].
  pose proof (process_items_invariant up list_ items s) as H1.
  destruct (process_items up list_ items s) as [s1 [err|]]; simpl in *;
    [done|].
  by eapply I_trans.
Qed.

Lemma run_invariant up store il items shown already :
  I (mkState store [] already shown [] 0)
    (fst (process_economic_indicators up store il items shown already)).
Proof.
  unfold process_economic_indicators.
  pose proof (process_intervals_invariant up il items
                (mkState store [] already shown [] 0)) as H.
  by destruct (process_intervals _ _ _ _) as [s [err|]].
Qed.

End Invariant.

Lemma copy_expert_length c ins : forall t,
  length (copy_expert c t ins) = (length t + length ins)%nat.
Proof.
  unfold copy_expert.
  induction ins as [|[[[id_ k] date] v] ins IH]; intros t; simpl; [lia|].
  rewrite IH, length_app. simpl. lia.
Qed.

Lemma load_length c t p :
  length (load c t p) = (length t + length (snd p))%nat.
Proof.
  unfold load. rewrite copy_expert_length, execute_updates_map.
  by rewrite length_map.
Qed.

Lemma row_count_insert store list_ t :
  row_count (<[list_ := t]> store)
  = row_count store + Z.of_nat (length t)
    - Z.of_nat (length (store !!! list_)).
Proof.
  unfold row_count.
  destruct list_;
    repeat (rewrite lookup_total_insert_eq
            || rewrite lookup_total_insert_ne by done); lia.
Qed.

Lemma updated_kept ups : forall r, kept r (updated ups r).
Proof.
  intros r. unfold kept. rewrite updated_PK, updated_date.
  split; [done|]. split; [|split; [|split; [done|]]].
  - unfold updated. revert r.
    induction ups as [|u ups IH]; intros r; simpl; [done|].
    rewrite IH. unfold update_row. by destruct (_ =? _).
  - unfold updated. revert r.
    induction ups as [|u ups IH]; intros r; simpl; [done|].
    rewrite IH. unfold update_row. by destruct (_ =? _).
  - intros c. apply updated_has_mono.
Qed.

Lemma load_kept c t p r :
  r ∈ t -> exists r', r' ∈ load c t p /\ kept r r'.
Proof.
  intros Hr. exists (updated (fst p) r). split; [|apply updated_kept].
  unfold load. apply copy_expert_keeps. rewrite execute_updates_map.
  apply list_elem_of_fmap. by exists r.
Qed.

Lemma kept_refl r : kept r r.
Proof. by repeat split. Qed.

Lemma kept_trans r1 r2 r3 : kept r1 r2 -> kept r2 r3 -> kept r1 r3.
Proof.
  intros (A1 & A2 & A3 & A4 & A5) (B1 & B2 & B3 & B4 & B5).
  repeat split; try congruence. intros c H. by apply B5, A5.
Qed.

(** X7. The count of a run is the number of rows it added to the six
    tables, also when the run ends with an exception; the count it returns is
    that number. *)
Theorem inserted_count_is_row_growth up store il items shown already :
  let s := fst (process_economic_indicators up store il items shown already) in
  total_indicators_inserted s = row_count (db s) - row_count store /\
  forall notices n,
    snd (process_economic_indicators up store il items shown already)
    = Return (notices, n) ->
    n = row_count (db s) - row_count store.
Proof.
  intros s.
  assert (total_indicators_inserted s = row_count (db s) - row_count store)
    as Hs.
  { pose proof (run_invariant
      (fun s s' => total_indicators_inserted s' - total_indicators_inserted s
                   = row_count (db s') - row_count (db s))) as H.
    specialize (H ltac:(cbv beta; intros; lia) ltac:(cbv beta; intros; lia)).
    assert (forall up list_ item s,
              total_indicators_inserted (fst (process_item up list_ item s))
              - total_indicators_inserted s
              = row_count (db (fst (process_item up list_ item s)))
                - row_count (db s)) as Hstep; [clear|
      specialize (H Hstep up store il items shown already);
      simpl in H; unfold s; lia].
    intros up list_ item s.
    destruct (process_item_db up list_ item s)
      as [[-> ->]|(c & p & -> & ->)]; [lia|].
    rewrite row_count_insert, load_length. unfold table. lia. }
  split; [done|]. intros notices n. subst s.
  unfold process_economic_indicators in *.
  destruct (process_intervals _ _ _ _) as [s [err|]]; simpl in *; [done|].
  intros [= _ <-]. done.
Qed.

(** X8. A run removes no row: a row of a table is still there afterwards,
    with its keys and its date, and every column that held a value in it
    still holds one. *)
Theorem ingestion_never_removes_rows up store il items shown already
    list_ r :
  r ∈ store !!! list_ ->
  exists r',
    r' ∈ table (fst (process_economic_indicators up store il items shown
                       already)) list_ /\
    kept r r'.
Proof.
  pose proof (run_invariant
    (fun s s' => forall l r, r ∈ table s l ->
                   exists r', r' ∈ table s' l /\ kept r r')) as H.
  apply H; clear.
  - intros s l r Hr. exists r. split; [done|apply kept_refl].
  - intros s1 s2 s3 H12 H23 l r Hr.
    destruct (H12 l r Hr) as (r2 & Hr2 & K2).
    destruct (H23 l r2 Hr2) as (r3 & Hr3 & K3).
    exists r3. split; [done|]. by eapply kept_trans.
  - intros up list_ item s l r Hr. unfold table in *.
    destruct (process_item_db up list_ item s) as [[-> _]|(c & p & -> & _)].
    + exists r. split; [done|apply kept_refl].
    + destruct (decide (l = list_)) as [->|Hne].
      * rewrite lookup_total_insert_eq. by apply load_kept.
      * rewrite lookup_total_insert_ne by done.
        exists r. split; [done|apply kept_refl].
Qed.

End IndicatorRun.

Section ConnectFacts.
Import Resolve.

Lemma connect_loop_spec connect retries len : forall start sleeps,
  (start + len = retries)%nat -> sleeps = Nat.min start (retries - 1) ->
  match connect_loop connect retries (seq start len) sleeps with
  | (Some k, n) =>
      (start <= k < retries)%nat /\ connect k = true /\ n = k /\
      forall j, (start <= j < k)%nat -> connect j = false
  | (None, n) =>
      n = (retries - 1)%nat /\
      forall j, (start <= j < retries)%nat -> connect j = false
  end.
Proof.
  induction len as [|len IH]; intros start sleeps Hlen ->; simpl.
  - split; [lia|intros j Hj; lia].
  - destruct (connect start) eqn:E.
    + split; [lia|]. split; [done|]. split; [lia|]. intros j Hj. lia.
    + specialize (IH (S start)
                    (if (start <? retries - 1)%nat
                     then S (Nat.min start (retries - 1))
                     else Nat.min start (retries - 1))
                    ltac:(lia)).
      destruct (connect_loop _ _ _ _) as [[k|] n].
      * destruct IH as (H1 & H2 & H3 & H4).
        { destruct (Nat.ltb_spec start (retries - 1)); lia. }
        split; [lia|]. split; [done|]. split; [lia|].
        intros j Hj. destruct (decide (j = start)) as [->|Hne]; [done|].
        apply H4. lia.
      * destruct IH as (H1 & H2).
        { destruct (Nat.ltb_spec start (retries - 1)); lia. }
        split; [done|]. intros j Hj.
        destruct (decide (j = start)) as [->|Hne]; [done|]. apply H2. lia.
Qed.

(** X21. The connection loop of [resolve_EIE]: it returns the first attempt
    that connects, after one sleep for each attempt that failed before it;
    when none of the [retries] attempts connects it returns nothing, after
    [retries - 1] sleeps (none after the last attempt). *)
Theorem connect_with_retries_first connect retries :
  match connect_with_retries connect retries with
  | (Some k, sleeps) =>
      (k < retries)%nat /\ connect k = true /\ sleeps = k /\
      forall j, (j < k)%nat -> connect j = false
  | (None, sleeps) =>
      sleeps = (retries - 1)%nat /\
      forall j, (j < retries)%nat -> connect j = false
  end.
Proof.
  unfold connect_with_retries.
  pose proof (connect_loop_spec connect retries retries 0%nat 0%nat
                ltac:(lia) ltac:(lia)) as H.
  destruct (connect_loop _ _ _ _) as [[k|] n].
  - destruct H as (H1 & H2 & H3 & H4).
    split; [lia|]. split; [done|]. split; [lia|].
    intros j Hj. apply H4. lia.
  - destruct H as (H1 & H2). split; [done|]. intros j Hj. apply H2. lia.
Qed.

End ConnectFacts.

Section NoticeFacts.
Import Indicators.

Lemma process_item_notices up list_ item s :
  notices_once s -> notices_once (fst (process_item up list_ item s)).
Proof.
  intros [Hnd Hkey]. destruct item as [indicator interval_].
  unfold process_item.
  destruct (bool_decide (list_ ∈ interval_)); simpl.
  2:{ case_bool_decide; [done|]. split; [done|]. simpl.
      intros i l p Hin. apply elem_of_app. left. by apply Hkey. }
  destruct (indicator_map indicator) as [[[suffix f] direct]|]; [|done].
  destruct (extract _ _ _ _ _ _ _ _) as [err| |ws [dd|err]]; simpl;
    try done.
  - case_bool_decide as Hrep; [done|]. split; simpl.
    + apply NoDup_app. split; [done|]. split; [|apply NoDup_singleton].
      intros x Hx Hx'. apply list_elem_of_singleton in Hx' as ->.
      apply Hrep. by apply Hkey.
    + intros i l p Hin. apply elem_of_app in Hin as [Hin|Hin].
      * apply elem_of_app. left. by apply Hkey.
      * apply list_elem_of_singleton in Hin. inversion Hin; subst.
        apply elem_of_app. right. apply list_elem_of_singleton. done.
  - by destruct dd.
Qed.

(** X9. The availability notices a run gathers, and returns, hold no
    notice twice, whatever [already_reported] held at the start. *)
Theorem availability_noticed_once up store il items shown already :
  NoDup (indicators_already_available
           (fst (process_economic_indicators up store il items shown
                   already))) /\
  forall notices n,
    snd (process_economic_indicators up store il items shown already)
    = Return (notices, n) -> NoDup notices.
Proof.
  assert (notices_once
            (fst (process_economic_indicators up store il items shown
                    already))) as [H _].
  { apply (run_invariant (fun s s' => notices_once s -> notices_once s'));
      [done|auto| |].
    - intros up' list_ item s. apply process_item_notices.
    - split; simpl; [constructor|]. intros i l p Hin.
      by apply elem_of_nil in Hin. }
  split; [done|]. intros notices n.
  unfold process_economic_indicators in *.
  destruct (process_intervals _ _ _ _) as [s [err|]]; simpl in *; [done|].
  by intros [= <- _].
Qed.

End NoticeFacts.

Section EventTable.
Import Events.
Implicit Types (r : row) (e : event) (t rows : list row)
  (events : list event) (p : plan).

(** *** What the indexes hold *)

Lemma index_row_only (S : Z -> Prop) r ix :
  (is_expected r = true -> S (asset_event_PK r)) ->
  (forall k pk, pk ∈ default ∅ (fst ix !! k) -> S pk) ->
  (forall d pk, pk ∈ default ∅ (snd ix !! d) -> S pk) ->
  (forall k pk, pk ∈ default ∅ (fst (index_row r ix) !! k) -> S pk) /\
  (forall d pk, pk ∈ default ∅ (snd (index_row r ix) !! d) -> S pk).
Proof.
  intros Hr H1 H2. unfold index_row.
  destruct (is_expected r); [|done]. simpl. split.
  - intros k pk.
    destruct (extract_qy _ _ _) as [[q|] [y|]]; try apply H1.
    destruct (negb _ && negb _); [|apply H1].
    rewrite index_add_elem. intros [[_ ->]|H]; [by apply Hr | by eapply H1].
  - intros d pk. destruct (asset_event_start_date r); [|apply H2].
    rewrite index_add_elem. intros [[_ ->]|H]; [by apply Hr | by eapply H2].
Qed.

Lemma build_indexes_only rows :
  let S pk := exists P, P ∈ rows /\ is_expected P = true /\
                        asset_event_PK P = pk in
  (forall k pk, pk ∈ default ∅ (fst (build_indexes rows) !! k) -> S pk) /\
  (forall d pk, pk ∈ default ∅ (snd (build_indexes rows) !! d) -> S pk).
Proof.
  intros S. unfold build_indexes.
  assert (forall l ix,
            (forall r, r ∈ l -> r ∈ rows) ->
            (forall k pk, pk ∈ default ∅ (fst ix !! k) -> S pk) ->
            (forall d pk, pk ∈ default ∅ (snd ix !! d) -> S pk) ->
            (forall k pk,
               pk ∈ default ∅
                      (fst (fold_left (fun ix r => index_row r ix) l ix) !! k)
               -> S pk) /\
            (forall d pk,
               pk ∈ default ∅
                      (snd (fold_left (fun ix r => index_row r ix) l ix) !! d)
               -> S pk)) as H.
  { induction l as [|r l IH]; intros ix Hl H1 H2; simpl; [done|].
    destruct (index_row_only S r ix) as [G1 G2]; [|done|done|].
    - intros Hexp. exists r. split; [apply Hl, list_elem_of_here|done].
    - apply IH; [|done|done]. intros r' Hr'.
      by apply Hl, list_elem_of_further. }
  apply H; [done| |]; intros ? pk; simpl; rewrite lookup_empty; simpl;
    intros Hpk; by apply not_elem_of_empty in Hpk.
Qed.

Lemma placeholders_of_expected rows e pk :
  pk ∈ placeholders_of (build_indexes rows) e ->
  exists P, P ∈ rows /\ is_expected P = true /\ asset_event_PK P = pk.
Proof.
  destruct (build_indexes_only rows) as [H1 H2].
  unfold placeholders_of. destruct (lookup_qy e) as [q y].
  rewrite elem_of_union. intros [H|H].
  - destruct (truthy q && truthy y); [|by apply not_elem_of_empty in H].
    destruct (qy_key q y) as [k|]; [|by apply not_elem_of_empty in H].
    by eapply H1.
  - destruct (start_date e) as [d|]; [|by apply not_elem_of_empty in H].
    by eapply H2.
Qed.

(** *** Rows that are not placeholders *)

Lemma noted_untouched us r :
  (forall u, u ∈ us -> fst u <> asset_event_PK r) -> noted us r = r.
Proof.
  unfold noted. induction us as [|u us IH]; simpl; intros H; [done|].
  rewrite (proj2 (Z.eqb_neq (asset_event_PK r) (fst u))).
  - apply IH. intros u' Hu'. by apply H, list_elem_of_further.
  - intros E. by apply (H u); [apply list_elem_of_here|].
Qed.

Lemma updates_name_placeholders rows events u :
  u ∈ events_to_update (reconcile rows events) ->
  exists P, P ∈ rows /\ is_expected P = true /\ asset_event_PK P = fst u.
Proof.
  destruct (reconcile_parts rows events) as (_ & _ & ->).
  rewrite list_elem_of_In, in_flat_map. intros (e & _ & Hu).
  destruct (existing_match (existing_set rows) (event_key e))
    as [[pk b]|] eqn:Em; [|done].
  destruct b; [|done]. destruct (is_new_actual e); [|done].
  destruct Hu as [<-|[]]. simpl.
  apply existing_match_some in Em as (P & HP & _ & Hpk & Hexp). by exists P.
Qed.

Lemma deletes_name_placeholders rows events pk :
  pk ∈ expected_to_delete (reconcile rows events) ->
  exists P, P ∈ rows /\ is_expected P = true /\ asset_event_PK P = pk.
Proof.
  destruct (reconcile_parts rows events) as (_ & Hd & _).
  rewrite Hd. intros (e & _ & _ & _ & H).
  by eapply placeholders_of_expected.
Qed.

(** X12. In a table with distinct primary keys, a row that is not a
    placeholder is neither deleted nor rewritten by [batch_insert_events],
    whatever the batch. *)
Theorem stored_results_untouched rows events r :
  NoDup (map asset_event_PK rows) ->
  r ∈ rows -> is_expected r = false ->
  r ∈ fst (batch_insert_events rows events).
Proof.
  intros Hnd Hr Hexp. rewrite batch_insert_events_table. cbv zeta.
  apply elem_of_app. left. unfold reconciled. rewrite update_notes_map.
  apply list_elem_of_fmap. exists r. split.
  - symmetry. apply noted_untouched. intros u Hu E.
    apply updates_name_placeholders in Hu as (P & HP & HPe & Hpk).
    assert (P = r) as -> by (apply (NoDup_map_inj asset_event_PK rows);
                             [done..|congruence]).
    congruence.
  - apply elem_of_delete_rows. split; [done|]. intros Hd.
    apply deletes_name_placeholders in Hd as (P & HP & HPe & Hpk).
    assert (P = r) as -> by (by apply (NoDup_map_inj asset_event_PK rows)).
    congruence.
Qed.

(** X10. When the table holds no identity key twice, the batch holds no
    identity key twice and the dates of its events have years of four
    digits, the table that [batch_insert_events] leaves holds no identity
    key twice. *)
Theorem distinct_keys_stay_distinct rows events :
  NoDup (map row_key rows) -> NoDup (map event_key events) ->
  (forall e, e ∈ events -> dates_in_range e) ->
  NoDup (map row_key (fst (batch_insert_events rows events))).
Proof. intros Hk He _. by apply identity_keys_unique. Qed.

(** *** Primary keys *)

Lemma bulk_rows_pks evs : forall a b,
  map asset_event_PK (bulk_rows a b evs) = seqZ a (Z.of_nat (length evs)).
Proof.
  induction evs as [|e evs IH]; intros a b; [done|].
  cbn [bulk_rows map length asset_event_PK].
  rewrite Nat2Z.inj_succ, seqZ_cons by lia. rewrite IH.
  by rewrite Z.pred_succ, <- Z.add_1_r.
Qed.

(** X11. [batch_insert_events] keeps the primary keys distinct: the keys it
    gives to the inserted rows are new and differ from each other. *)
Theorem event_primary_keys_unique rows events :
  NoDup (map asset_event_PK rows) ->
  NoDup (map asset_event_PK (fst (batch_insert_events rows events))).
Proof.
  intros Hnd. rewrite batch_insert_events_table. cbv zeta.
  set (t := reconciled rows (reconcile rows events)).
  assert (map asset_event_PK t
          = map asset_event_PK
              (delete_rows (expected_to_delete (reconcile rows events)) rows))
    as Ht.
  { unfold t, reconciled. rewrite update_notes_map, map_map.
    apply map_ext. intros r. apply noted_fields. }
  rewrite map_app, bulk_rows_pks. apply NoDup_app. split; [|split].
  - rewrite Ht. by apply NoDup_map_filter.
  - intros pk Hpk Hpk'. apply elem_of_seqZ in Hpk'.
    apply next_of_gt in Hpk. lia.
  - apply NoDup_seqZ.
Qed.

(** *** Batches without earnings results *)

Lemma reconcile_no_results rows events :
  (forall e, e ∈ events -> is_new_actual e = false) ->
  expected_to_delete (reconcile rows events) = ∅ /\
  events_to_update (reconcile rows events) = [].
Proof.
  intros Hno. destruct (reconcile_parts rows events) as (_ & Hd & ->). split.
  - apply set_eq. intros pk. rewrite Hd. split.
    + intros (e & He & _ & Ha & _). rewrite (Hno e He) in Ha. done.
    + intros H. by apply not_elem_of_empty in H.
  - apply flat_map_none. intros e He. rewrite (Hno e He).
    destruct (existing_match _ _) as [[pk b]|]; [|done]. by destruct b.
Qed.

Lemma reconciled_no_results rows events :
  (forall e, e ∈ events -> is_new_actual e = false) ->
  reconciled rows (reconcile rows events) = rows.
Proof.
  intros Hno. unfold reconciled.
  destruct (reconcile_no_results rows events Hno) as [-> ->].
  simpl. apply delete_rows_empty.
Qed.

Lemma batch_no_results rows events :
  (forall e, e ∈ events -> is_new_actual e = false) ->
  let t := fst (batch_insert_events rows events) in
  (exists added, t = rows ++ added /\
     map row_key added
     = map event_key
         (List.filter (fun e => bool_decide (event_key e ∉ map row_key rows))
            events)) /\
  batch_insert_events t events = (t, 0).
Proof.
  intros Hno t.
  assert (t = rows ++ bulk_rows (next_of (map asset_event_PK rows))
                        (next_of (map asset_event_ID rows))
                        (new_events (reconcile rows events))) as Ht.
  { unfold t. rewrite batch_insert_events_table. cbv zeta.
    by rewrite reconciled_no_results. }
  split.
  - eexists. split; [exact Ht|]. rewrite bulk_rows_keys.
    by destruct (reconcile_parts rows events) as (-> & _ & _).
  - assert (new_events (reconcile t events) = []) as Hnew.
    { destruct (reconcile_parts t events) as (-> & _ & _).
      apply list_filter_none. intros e He. apply bool_decide_eq_false.
      intros Hout. apply Hout. rewrite Ht, map_app, bulk_rows_keys.
      destruct (reconcile_parts rows events) as (-> & _ & _).
      apply elem_of_app.
      destruct (decide (event_key e ∈ map row_key rows)) as [Hin|Hnin];
        [by left|right].
      apply list_elem_of_fmap. exists e. split; [done|].
      apply list_elem_of_In, filter_In. split; [by apply list_elem_of_In|].
      by apply bool_decide_eq_true_2. }
    unfold batch_insert_events. destruct events as [|e events]; [done|].
    cbv zeta. rewrite Hnew, reconciled_no_results by done.
    by destruct (reconcile_no_results t (e :: events) Hno) as [_ ->].
Qed.

(** X13. A batch without earnings result (no event of the earnings kind
    whose payload lacks an estimate), whose dates have years of four digits,
    deletes and rewrites nothing: it appends one row for each event whose
    identity key is not stored, and handing the same batch in again changes
    nothing and returns 0. *)
Theorem batch_without_results_settles rows events :
  (forall e, e ∈ events -> is_new_actual e = false) ->
  (forall e, e ∈ events -> dates_in_range e) ->
  let t := fst (batch_insert_events rows events) in
  (exists added, t = rows ++ added /\
     map row_key added
     = map event_key
         (List.filter (fun e => bool_decide (event_key e ∉ map row_key rows))
            events)) /\
  batch_insert_events t events = (t, 0).
Proof. intros Hno _. by apply batch_no_results. Qed.

End EventTable.

Section StableSort.
Import Events.
Context {A : Type} (lt : A -> A -> bool).
Hypothesis ge_trans :
  forall a b c, lt b a = false -> lt c b = false -> lt c a = false.

Lemma insert_sorted_filter (g : A -> bool) e l :
  (forall y, g y = true -> g e = true -> lt y e = false) ->
  List.filter g (insert_sorted lt e l) = List.filter g (e :: l).
Proof.
  intros Hg. induction l as [|y l IH]; [done|].
  cbn [insert_sorted]. destruct (lt y e) eqn:E; [|done].
  cbn [List.filter]. rewrite IH. cbn [List.filter].
  destruct (g y) eqn:Gy, (g e) eqn:Ge; try done.
  rewrite (Hg y Gy eq_refl) in E. done.
Qed.

Lemma py_sorted_filter (g : A -> bool) l :
  (forall y e, g y = true -> g e = true -> lt y e = false) ->
  List.filter g (py_sorted lt l) = List.filter g l.
Proof.
  intros Hg. induction l as [|x l IH]; [done|].
  cbn [py_sorted foldr]. fold (py_sorted lt l).
  rewrite insert_sorted_filter by (intros y; apply Hg).
  cbn [List.filter]. by rewrite IH.
Qed.

Lemma py_sorted_fixed l :
  StronglySorted (fun a b => lt b a = false) l -> py_sorted lt l = l.
Proof.
  induction 1 as [|x l Hs IH Hx]; [done|].
  cbn [py_sorted foldr]. fold (py_sorted lt l). rewrite IH.
  destruct l as [|y l]; [done|]. cbn [insert_sorted].
  apply Forall_cons in Hx as [Hy _]. by rewrite Hy.
Qed.

End StableSort.

Section SortMore.
Import Events.

(** X14. The sort before the insertion is stable: the events that share a
    sort key stand in the sorted list in the order in which they came. *)
Theorem sort_events_stable events x :
  List.filter (same_key x) (sort_events events)
  = List.filter (same_key x) events.
Proof.
  apply py_sorted_filter. intros y e Hy He. unfold same_key in *.
  apply andb_true_iff in Hy as [_ Hy], He as [He _].
  apply negb_true_iff in Hy, He.
  exact (key_lt_ge_trans _ _ _ He Hy).
Qed.

(** X15. Sorting a sorted list of events leaves it as it is. *)
Theorem sort_events_idempotent events :
  sort_events (sort_events events) = sort_events events.
Proof.
  apply py_sorted_fixed, py_sorted_sorted.
  - intros a b. apply key_lt_asym.
  - intros a b c. apply key_lt_ge_trans.
Qed.

End SortMore.

Section RunMore.
Import Events.
Implicit Types (s : run) (symbol : string).

Lemma process_symbol_run up rates s symbol t :
  aborted s = false -> tables s !! symbol = Some t ->
  process_symbol up rates s symbol
  = let result := batch_insert_events t (symbol_events up rates symbol) in
    mkRun (<[symbol := fst result]> (tables s))
      (calls s ++ symbol_calls symbol)
      (total_events_inserted s + snd result) false.
Proof. intros Ha Ht. unfold process_symbol. by rewrite Ha, Ht. Qed.

Lemma process_symbol_unreadable up rates s symbol :
  aborted s = false -> tables s !! symbol = None ->
  process_symbol up rates s symbol
  = mkRun (tables s) (calls s) (total_events_inserted s) true.
Proof. intros Ha Ht. unfold process_symbol. by rewrite Ha, Ht. Qed.

(** In a failed transaction the loop does nothing more. *)
Lemma process_symbols_aborted up rates symbols : forall s,
  aborted s = true -> fold_left (process_symbol up rates) symbols s = s.
Proof.
  induction symbols as [|x symbols IH]; intros s Ha; cbn [fold_left]; [done|].
  assert (process_symbol up rates s x = s) as ->
    by (unfold process_symbol; by rewrite Ha).
  by apply IH.
Qed.

Lemma reached_insert store symbols x (t : list row) :
  is_Some (store !! x) ->
  reached (<[x := t]> store) symbols = reached store symbols.
Proof.
  intros Hx. induction symbols as [|y symbols IH]; simpl; [done|].
  rewrite IH. destruct (decide (y = x)) as [->|Hne].
  - rewrite lookup_insert_eq.
    rewrite (bool_decide_eq_true_2 (is_Some (Some t))) by (by eexists).
    by rewrite bool_decide_eq_true_2.
  - by rewrite lookup_insert_ne.
Qed.

Lemma reached_all store symbols :
  reached store symbols = symbols <->
  forall symbol, symbol ∈ symbols -> is_Some (store !! symbol).
Proof.
  induction symbols as [|x symbols IH]; simpl.
  - split; [intros _ y Hy; by apply elem_of_nil in Hy|done].
  - case_bool_decide as Hx.
    + split.
      * intros [= E] y Hy. apply elem_of_cons in Hy as [->|Hy]; [done|].
        by apply IH.
      * intros H. f_equal. apply IH. intros y Hy.
        by apply H, list_elem_of_further.
    + split; [done|]. intros H. exfalso. apply Hx, H, list_elem_of_here.
Qed.

Lemma process_symbols_run up rates symbols : forall s,
  aborted s = false ->
  let r := fold_left (process_symbol up rates) symbols s in
  calls r
  = calls s ++ flat_map symbol_calls (reached (tables s) symbols) /\
  (aborted r = false <-> reached (tables s) symbols = symbols) /\
  dom (tables r) = dom (tables s) /\
  (forall symbol, symbol ∉ reached (tables s) symbols ->
     tables r !! symbol = tables s !! symbol).
Proof.
  induction symbols as [|x symbols IH]; intros s Ha; cbn [fold_left].
  - simpl. by rewrite app_nil_r.
  - cbn [reached]. destruct (tables s !! x) as [t|] eqn:E.
    + rewrite (bool_decide_eq_true_2 (is_Some (Some t))) by (by eexists).
      rewrite (process_symbol_run up rates s x t Ha E). cbv zeta.
      set (s' := mkRun _ _ _ _).
      destruct (IH s' eq_refl) as (I1 & I2 & I3 & I4).
      assert (reached (tables s') symbols = reached (tables s) symbols)
        as Hr by (apply reached_insert; by rewrite E).
      rewrite Hr in I1, I2, I4. split; [|split; [|split]].
      * rewrite I1. simpl. by rewrite <- app_assoc.
      * rewrite I2. split; [by intros ->|by intros [= ->]].
      * rewrite I3. simpl. rewrite dom_insert_L.
        apply elem_of_dom_2 in E. apply set_eq. intros y.
        rewrite elem_of_union, elem_of_singleton.
        split; [intros [->|?]; done | by right].
      * intros symbol Hn. apply not_elem_of_cons in Hn as [Hne Hn].
        rewrite (I4 symbol Hn). simpl. by rewrite lookup_insert_ne.
    + rewrite (bool_decide_eq_false_2 (is_Some None)) by (by intros [? ?]).
      rewrite (process_symbol_unreadable up rates s x Ha E).
      rewrite process_symbols_aborted by done. simpl.
      rewrite app_nil_r. by repeat split.
Qed.

(** X16. The API calls of [process_events], when the dates of the events
    and of the retained rates have years of four digits: the rate series
    once, then, in the order of the symbols, the earnings, earnings calendar, dividends and
    splits of each symbol before the first one whose table cannot be read.
    From that symbol on the transaction is in the failed state: no call is
    made for it nor for any later symbol, whether the table of the later
    symbol can be read or not, and the commit that follows the run restores
    the tables as they were before it. The run creates and drops no table,
    and leaves the tables of the symbols it does not reach as they are. *)
Theorem process_events_calls iteration up symbols store :
  (forall c e, e ∈ appended up c -> dates_in_range e) ->
  (forall x, x ∈ federal_funds_rates iteration (rate_answer up) ->
             four_digit_year (fst x)) ->
  let r := process_events iteration up symbols store in
  calls r
  = FEDERAL_FUNDS_RATE "monthly"
    :: flat_map symbol_calls (reached store symbols) /\
  (aborted r = false <->
   forall symbol, symbol ∈ symbols -> is_Some (store !! symbol)) /\
  (forall symbol, symbol ∈ symbols -> store !! symbol = None ->
     aborted r = true /\ commit store r = store) /\
  dom (tables r) = dom store /\
  (forall symbol, symbol ∉ reached store symbols ->
     tables r !! symbol = store !! symbol).
Proof.
  intros _ _. unfold process_events.
  destruct (process_symbols_run up
              (federal_funds_rates iteration (rate_answer up)) symbols
              (mkRun store [FEDERAL_FUNDS_RATE "monthly"] 0 false) eq_refl)
    as (H1 & H2 & H3 & H4).
  cbv zeta. split; [done|]. rewrite <- reached_all.
  split; [done|]. split; [|by split].
  intros symbol Hs Hnone.
  destruct (aborted (fold_left _ symbols _)) eqn:Ha.
  - split; [done|]. unfold commit. by rewrite Ha.
  - exfalso. destruct H2 as [H2 _]. specialize (H2 eq_refl). simpl in H2.
    pose proof (proj1 (reached_all store symbols) H2 symbol Hs) as [t Ht].
    congruence.
Qed.

(** *** A second run *)

Variable up : upstream.
Variable rates : list (date * string).
Hypothesis no_results :
  forall c e, e ∈ appended up c -> is_new_actual e = false.

Lemma symbol_events_no_results symbol e :
  e ∈ symbol_events up rates symbol -> is_new_actual e = false.
Proof.
  unfold symbol_events, sort_events. rewrite py_sorted_perm, elem_of_app.
  intros [H|H].
  - apply list_elem_of_In, in_flat_map in H as (c & _ & H).
    apply (no_results c). by apply list_elem_of_In.
  - unfold rate_events in H. apply list_elem_of_fmap in H as (dv & -> & _).
    done.
Qed.

Lemma batch_settles t symbol :
  batch_insert_events (fst (batch_insert_events t (symbol_events up rates symbol)))
    (symbol_events up rates symbol)
  = (fst (batch_insert_events t (symbol_events up rates symbol)), 0).
Proof.
  apply batch_no_results. apply symbol_events_no_results.
Qed.

Lemma process_symbol_settles s symbol symbol' :
  aborted s = false -> is_Some (tables s !! symbol) ->
  symbol' = symbol \/ settled_at up rates (tables s) symbol' ->
  settled_at up rates (tables (process_symbol up rates s symbol)) symbol'.
Proof.
  intros Ha [t0 E] H t. rewrite (process_symbol_run up rates s symbol t0 Ha E).
  simpl. destruct (decide (symbol' = symbol)) as [->|Hne].
  - rewrite lookup_insert_eq. intros [= <-]. apply batch_settles.
  - rewrite lookup_insert_ne by done. destruct H as [?|H]; [done|].
    apply H.
Qed.

Lemma process_symbols_settle symbols : forall s symbol,
  aborted s = false ->
  (forall x, x ∈ symbols -> is_Some (tables s !! x)) ->
  symbol ∈ symbols \/ settled_at up rates (tables s) symbol ->
  settled_at up rates
    (tables (fold_left (process_symbol up rates) symbols s)) symbol.
Proof.
  induction symbols as [|x symbols IH]; intros s symbol Ha Hread H;
    cbn [fold_left].
  - destruct H as [H|H]; [by apply elem_of_nil in H|done].
  - pose proof (Hread x (list_elem_of_here _ _)) as Hx.
    destruct Hx as [t0 E].
    assert (is_Some (tables s !! x)) as Hx by (by eexists).
    apply IH.
    + by rewrite (process_symbol_run up rates s x t0 Ha E).
    + intros y Hy. rewrite (process_symbol_run up rates s x t0 Ha E). simpl.
      destruct (decide (y = x)) as [->|Hne].
      * rewrite lookup_insert_eq. by eexists.
      * rewrite lookup_insert_ne by done.
        by apply Hread, list_elem_of_further.
    + destruct H as [H|H].
      * apply elem_of_cons in H as [->|H]; [|by left].
        right. apply process_symbol_settles; [done|done|by left].
      * right. apply process_symbol_settles; [done|done|by right].
Qed.

Lemma process_symbols_idle symbols : forall s,
  aborted s = false ->
  (forall x, x ∈ symbols -> is_Some (tables s !! x)) ->
  (forall symbol, symbol ∈ symbols -> settled_at up rates (tables s) symbol) ->
  tables (fold_left (process_symbol up rates) symbols s) = tables s /\
  total_events_inserted (fold_left (process_symbol up rates) symbols s)
  = total_events_inserted s /\
  aborted (fold_left (process_symbol up rates) symbols s) = false.
Proof.
  induction symbols as [|x symbols IH]; intros s Ha Hread H; cbn [fold_left];
    [done|].
  destruct (Hread x (list_elem_of_here _ _)) as [t E].
  assert (tables (process_symbol up rates s x) = tables s /\
          total_events_inserted (process_symbol up rates s x)
          = total_events_inserted s /\
          aborted (process_symbol up rates s x) = false) as (E1 & E2 & E3).
  { rewrite (process_symbol_run up rates s x t Ha E).
    rewrite (H x (list_elem_of_here _ _) t E). simpl.
    split; [by apply insert_id|]. split; [lia|done]. }
  destruct (IH (process_symbol up rates s x)) as (I1 & I2 & I3).
  - done.
  - intros y Hy. rewrite E1. by apply Hread, list_elem_of_further.
  - intros symbol Hs. rewrite E1. by apply H, list_elem_of_further.
  - split; [congruence|]. split; [congruence|done].
Qed.

End RunMore.

Section SecondRun.
Import Events.

(** X17. Let every selected symbol have a table that can be read, let the
    upstream give no earnings result, and let the dates of its events and of
    the retained rates have years of four digits. Then the first run of
    [process_events] ends with the transaction in order, so that the commit
    keeps its tables, and a second run against the same answers, with the
    same retained rates, leaves every table as the first run left it, counts
    no event and ends in order too. *)
Theorem second_run_inserts_nothing iteration iteration' up symbols store :
  (forall symbol, symbol ∈ symbols -> is_Some (store !! symbol)) ->
  (forall c e, e ∈ appended up c -> is_new_actual e = false) ->
  (forall c e, e ∈ appended up c -> dates_in_range e) ->
  (forall x, x ∈ federal_funds_rates iteration (rate_answer up) ->
             four_digit_year (fst x)) ->
  federal_funds_rates iteration' (rate_answer up)
  = federal_funds_rates iteration (rate_answer up) ->
  let first := process_events iteration up symbols store in
  let second := process_events iteration' up symbols (commit store first) in
  aborted first = false /\ commit store first = tables first /\
  tables second = tables first /\ total_events_inserted second = 0 /\
  aborted second = false.
Proof.
  intros Hread Hno _ _ Hrates first second.
  set (rates := federal_funds_rates iteration (rate_answer up)).
  assert (first = fold_left (process_symbol up rates) symbols
                    (mkRun store [FEDERAL_FUNDS_RATE "monthly"] 0 false))
    as Ef by reflexivity.
  destruct (process_symbols_run up rates symbols
              (mkRun store [FEDERAL_FUNDS_RATE "monthly"] 0 false) eq_refl)
    as (_ & Hab & Hdom & _).
  rewrite <- Ef in Hab, Hdom. simpl in Hab, Hdom.
  assert (aborted first = false) as Ha
    by (by apply Hab, reached_all).
  assert (commit store first = tables first) as Hc
    by (unfold commit; by rewrite Ha).
  split; [done|]. split; [done|].
  unfold second, process_events. rewrite Hrates, Hc. fold rates.
  assert (forall x, x ∈ symbols -> is_Some (tables first !! x)) as Hread'.
  { intros x Hx. apply elem_of_dom. rewrite Hdom. apply elem_of_dom.
    by apply Hread. }
  apply (process_symbols_idle up rates symbols
           (mkRun (tables first) [FEDERAL_FUNDS_RATE "monthly"] 0 false)
           eq_refl Hread').
  intros symbol Hs. simpl. unfold first, process_events. fold rates.
  apply (process_symbols_settle up rates Hno); [done|done|by left].
Qed.

End SecondRun.

Section ParseFacts.
Import Events Parse.

Lemma digit_value_bounds c k : digit_value c = Some k -> 0 <= k <= 9.
Proof.
  unfold digit_value.
  destruct ((48 <=? _) && (_ <=? 57)) eqn:E; [|done].
  apply andb_true_iff in E as [E1 E2]. intros [= <-]. lia.
Qed.

Lemma month_field_bounds s m : month_field s = Some m -> 1 <= m <= 12.
Proof.
  unfold month_field. destruct s as [|a [|b [|? ?]]]; try done.
  - destruct (digit_value a) as [n|] eqn:Ea; [|done].
    apply digit_value_bounds in Ea.
    destruct (1 <=? n) eqn:E; [|done]. intros [= <-]. lia.
  - destruct (digit_value a) as [x|] eqn:Ea; [|done].
    destruct (digit_value b) as [n|] eqn:Eb; [|done].
    apply digit_value_bounds in Ea, Eb.
    destruct ((x =? 1) && (n <=? 2)) eqn:E1.
    + intros [= <-]. lia.
    + destruct ((x =? 0) && (1 <=? n)) eqn:E2; [|done].
      intros [= <-]. lia.
Qed.

Lemma day_field_bounds s d : day_field s = Some d -> 1 <= d <= 31.
Proof.
  unfold day_field. destruct s as [|a [|b [|? ?]]]; try done.
  - destruct (digit_value a) as [n|] eqn:Ea; [|done].
    apply digit_value_bounds in Ea.
    destruct (1 <=? n) eqn:E; [|done]. intros [= <-]. lia.
  - destruct (digit_value a) as [x|] eqn:Ea;
      destruct (digit_value b) as [n|] eqn:Eb; try done.
    + apply digit_value_bounds in Ea, Eb.
      destruct ((x =? 3) && (n <=? 1)) eqn:E1; [intros [= <-]; lia|].
      destruct ((1 <=? x) && (x <=? 2)) eqn:E2; [intros [= <-]; lia|].
      destruct ((x =? 0) && (1 <=? n)) eqn:E3; [|done].
      intros [= <-]. lia.
    + apply digit_value_bounds in Eb.
      destruct (Ascii.eqb a " " && (1 <=? n)) eqn:E; [|done].
      intros [= <-]. lia.
Qed.

Lemma digits_value_bound s : forall acc n,
  digits_value acc s = Some n -> 0 <= acc ->
  n < (acc + 1) * 10 ^ Z.of_nat (String.length s).
Proof.
  induction s as [|c s IH]; intros acc n; simpl String.length.
  - simpl. intros [= <-] _. lia.
  - cbn [digits_value]. destruct (digit_value c) as [k|] eqn:Ec; [|done].
    apply digit_value_bounds in Ec. intros H Hacc.
    apply IH in H; [|lia]. rewrite Nat2Z.inj_succ, Z.pow_succ_r by lia.
    assert (0 < 10 ^ Z.of_nat (String.length s))
      by (apply Z.pow_pos_nonneg; lia).
    nia.
Qed.

Lemma strptime_calendar s d : strptime s = Some d -> calendar_date d.
Proof.
  unfold strptime.
  destruct s as [|a [|b [|c [|e [|sep rest]]]]]; try done.
  destruct (Ascii.eqb sep "-"); [|done].
  destruct (digits_value 0 _) as [y|] eqn:Ey; [|done].
  destruct (month_day rest) as [[m dd]|] eqn:Em; [|done].
  destruct ((1 <=? y) && (dd <=? days_in_month y m)) eqn:E; [|done].
  intros [= <-]. apply andb_true_iff in E as [E1 E2].
  apply digits_value_bound in Ey; [|lia]. simpl in Ey.
  unfold month_day in Em.
  destruct (until_dash rest) as [[ms ds]|]; [|done].
  destruct (month_field ms) as [m'|] eqn:Hm; [|done].
  destruct (day_field ds) as [d'|] eqn:Hd; [|done].
  inversion Em; subst. apply month_field_bounds in Hm.
  apply day_field_bounds in Hd. unfold calendar_date. simpl. lia.
Qed.

Lemma fixed_year y :
  1000 <= y <= 9999 -> digits_value 0 (fixed 4 y) = Some y.
Proof.
  intros Hy.
  pose proof (forallb_seqZ
    (fun y => match digits_value 0 (fixed 4 y) with
              | Some z => z =? y
              | None => false
              end) 1000 9000 ltac:(by vm_compute) y ltac:(lia)) as H.
  cbv beta in H. destruct (digits_value 0 (fixed 4 y)) as [z|]; [|done].
  apply Z.eqb_eq in H. by subst.
Qed.

Lemma fixed_month_day m d :
  1 <= m <= 12 -> 1 <= d <= 31 ->
  month_day (fixed 2 m +:+ "-" +:+ fixed 2 d +:+ "") = Some (m, d).
Proof.
  intros Hm Hd.
  pose proof (forallb_seqZ
    (fun m => forallb
       (fun d => match month_day (fixed 2 m +:+ "-" +:+ fixed 2 d +:+ "") with
                 | Some (m', d') => (m' =? m) && (d' =? d)
                 | None => false
                 end) (seqZ 1 31)) 1 12 ltac:(by vm_compute) m ltac:(lia))
    as H.
  cbv beta in H.
  pose proof (forallb_seqZ _ 1 31 H d ltac:(lia)) as H'. cbv beta in H'.
  destruct (month_day _) as [[m' d']|]; [|done].
  apply andb_true_iff in H' as [H1 H2].
  apply Z.eqb_eq in H1, H2. by subst.
Qed.

Lemma strptime_fixed y rest :
  strptime (fixed 4 y +:+ "-" +:+ rest)
  = match digits_value 0 (fixed 4 y), month_day rest with
    | Some y, Some (m, dd) =>
        if (1 <=? y) && (dd <=? days_in_month y m)
        then Some (mkDate y m dd) else None
    | _, _ => None
    end.
Proof. reflexivity. Qed.

Lemma strptime_strftime d :
  four_digit_year d -> day d <= days_in_month (year d) (month d) ->
  strptime (strftime d) = Some d.
Proof.
  intros Hd Hday. rewrite (strftime_fixed d Hd).
  destruct Hd as (Hy & Hm & Hdd).
  rewrite strptime_fixed, fixed_year, fixed_month_day by done.
  rewrite (proj2 (Z.leb_le 1 (year d))) by lia.
  rewrite (proj2 (Z.leb_le _ _) Hday). by destruct d.
Qed.

(** X18. [parse_date] reads back what [strftime('%Y-%m-%d')] prints: for a
    date of the calendar with a year of four digits,
    [parse_date(d.strftime('%Y-%m-%d'))] is [d]. *)
Theorem parse_date_round_trip d :
  four_digit_year d -> day d <= days_in_month (year d) (month d) ->
  parse_date (JStr (strftime d)) = Some d.
Proof.
  intros Hd Hday. unfold parse_date.
  pose proof (strptime_strftime d Hd Hday) as H.
  destruct (bool_decide (strftime d = "")) eqn:E1.
  { apply bool_decide_eq_true in E1. by rewrite E1 in H. }
  destruct (bool_decide (strftime d ∈ ["N/A"; ""]%string)) eqn:E2; [|done].
  apply bool_decide_eq_true in E2.
  apply elem_of_cons in E2 as [E2|E2]; [by rewrite E2 in H|].
  apply list_elem_of_singleton in E2. by rewrite E2 in H.
Qed.

Lemma parse_date_facts v d :
  parse_date v = Some d ->
  calendar_date d /\
  get_quarter_from_date v = Some (quarter_of d) /\
  quarter_of d ∈ ["Q1"; "Q2"; "Q3"; "Q4"]%string.
Proof.
  unfold parse_date, get_quarter_from_date. destruct v as [|b|n|s]; try done.
  destruct (bool_decide (s = "")) eqn:E1; [done|]. cbn [orb].
  destruct (bool_decide (s ∈ _)); [done|]. intros H. rewrite H.
  apply strptime_calendar in H. split; [done|]. split; [done|].
  destruct H as (_ & Hm & _). unfold quarter_of.
  assert ((month d - 1) / 3 + 1 = 1 \/ (month d - 1) / 3 + 1 = 2 \/
          (month d - 1) / 3 + 1 = 3 \/ (month d - 1) / 3 + 1 = 4) as Hq.
  { pose proof (Z.div_mod (month d - 1) 3 ltac:(lia)).
    pose proof (Z.mod_pos_bound (month d - 1) 3 ltac:(lia)). lia. }
  destruct Hq as [E | [E | [E | E]]]; rewrite E; vm_compute;
    repeat constructor.
Qed.

(** X19. A date that [parse_date] returns is a date of the calendar (year
    1 to 9999, month 1 to 12, a day of that month); on the same argument
    [get_quarter_from_date] returns the quarter of that date, one of Q1 to
    Q4. *)
Theorem parse_date_calendar v d :
  parse_date v = Some d ->
  calendar_date d /\
  get_quarter_from_date v = Some (quarter_of d) /\
  quarter_of d ∈ ["Q1"; "Q2"; "Q3"; "Q4"]%string.
Proof. apply parse_date_facts. Qed.

End ParseFacts.

Section SanitizeFacts.
Import Events Sanitize.
Variable decimal_str : Split.decimal -> string.

Lemma weight_item (x : pyobj) items :
  x ∈ items -> (weight x <= list_sum (map weight items))%nat.
Proof.
  induction items as [|y items IH]; [by intros H; apply elem_of_nil in H|].
  intros H. simpl. apply elem_of_cons in H as [->|H]; [lia|].
  specialize (IH H). lia.
Qed.

Lemma weight_value (kv : string * pyobj) items :
  kv ∈ items ->
  (weight (snd kv) <= list_sum (map (fun kv => weight (snd kv)) items))%nat.
Proof.
  induction items as [|y items IH]; [by intros H; apply elem_of_nil in H|].
  intros H. simpl. apply elem_of_cons in H as [->|H]; [lia|].
  specialize (IH H). lia.
Qed.

(** Induction on nested objects. *)
Lemma pyobj_nested (P : pyobj -> Prop) :
  (forall obj,
     (forall x items, (obj = OList items \/ obj = OTuple items) ->
                      x ∈ items -> P x) ->
     (forall kv items, obj = ODict items -> kv ∈ items -> P (snd kv)) ->
     P obj) ->
  forall obj, P obj.
Proof.
  intros Hstep.
  assert (forall n obj, (weight obj < n)%nat -> P obj) as H.
  { induction n as [|n IH]; intros obj Hn; [lia|].
    apply Hstep.
    - intros x items [-> | ->] Hx; apply IH;
        pose proof (weight_item x items Hx); simpl in Hn; lia.
    - intros kv items -> Hkv. apply IH.
      pose proof (weight_value kv items Hkv). simpl in Hn. lia. }
  intros obj. apply (H (S (weight obj))). lia.
Qed.

Lemma map_ext_elem {A B} (f g : A -> B) (l : list A) :
  (forall x, x ∈ l -> f x = g x) -> map f l = map g l.
Proof.
  intros H. apply map_ext_in. intros x Hx. by apply H, list_elem_of_In.
Qed.

Lemma sanitize_plain obj : plain (sanitize_for_text decimal_str obj) = true.
Proof.
  induction obj as [obj IHl IHd] using pyobj_nested.
  destruct obj as [| | | | | | | items | items | items]; simpl; try done.
  - rewrite forallb_forall. intros y Hy.
    apply in_map_iff in Hy as (x & <- & Hx).
    apply (IHl x items); [by left | by apply list_elem_of_In].
  - rewrite forallb_forall. intros y Hy.
    apply in_map_iff in Hy as (x & <- & Hx).
    apply (IHl x items); [by right | by apply list_elem_of_In].
  - rewrite forallb_forall. intros y Hy.
    apply in_map_iff in Hy as (kv & <- & Hkv). simpl.
    apply (IHd kv items); [done | by apply list_elem_of_In].
Qed.

Lemma sanitize_of_plain obj : plain obj = true -> sanitize_for_text decimal_str obj = obj.
Proof.
  induction obj as [obj IHl IHd] using pyobj_nested.
  destruct obj as [| | | | | | | items | items | items]; simpl; try done.
  - rewrite forallb_forall. intros H. f_equal.
    rewrite <- (map_id items) at 2. apply map_ext_elem. intros x Hx.
    apply (IHl x items); [by left | done |].
    by apply H, list_elem_of_In.
  - rewrite forallb_forall. intros H. f_equal.
    rewrite <- (map_id items) at 2. apply map_ext_elem. intros kv Hkv.
    rewrite (IHd kv items); [by destruct kv | done | done |].
    by apply (H kv), list_elem_of_In.
Qed.

(** X20. The result of [sanitize_for_text] holds no Decimal, no datetime
    and no tuple at any depth; sanitizing it again, or sanitizing an object
    that holds none, changes nothing; a dict keeps its keys and their order,
    and a [date] is returned as it is. *)
Theorem sanitize_for_text_idempotent obj :
  plain (sanitize_for_text decimal_str obj) = true /\
  sanitize_for_text decimal_str (sanitize_for_text decimal_str obj)
  = sanitize_for_text decimal_str obj /\
  (plain obj = true -> sanitize_for_text decimal_str obj = obj) /\
  (forall items,
     exists items',
       sanitize_for_text decimal_str (ODict items) = ODict items' /\
       map fst items' = map fst items) /\
  (forall d, sanitize_for_text decimal_str (ODate d) = ODate d).
Proof.
  split; [apply sanitize_plain|].
  split; [apply sanitize_of_plain, sanitize_plain|].
  split; [apply sanitize_of_plain|]. split; [|done].
  intros items. eexists. split; [reflexivity|].
  rewrite map_map. by apply map_ext.
Qed.

End SanitizeFacts.

Section FeedFacts.
Import Events Parse Feed.
Implicit Types (e : gmap string jval) (ev : event).

Lemma date_compare_le d1 d2 :
  date_compare d1 d2 <> Gt <->
  year d1 < year d2 \/
  (year d1 = year d2 /\
   (month d1 < month d2 \/ (month d1 = month d2 /\ day d1 <= day d2))).
Proof.
  unfold date_compare.
  destruct (Z.compare_spec (year d1) (year d2));
    [|split; [lia|done] | split; [done|lia]].
  destruct (Z.compare_spec (month d1) (month d2));
    [|split; [lia|done] | split; [done|lia]].
  destruct (Z.compare_spec (day d1) (day d2)); split; (done || lia).
Qed.

(** An inserted row carries the payload of its event, less the source tag. *)
Lemma inserted_row rows events ev :
  ev ∈ events -> event_key ev ∉ map row_key rows ->
  exists r, r ∈ fst (batch_insert_events rows events) /\
            row_key r = event_key ev /\
            asset_event_event_notes r = inserted_notes (details ev).
Proof.
  intros Hin Hnew. rewrite batch_insert_events_table. cbv zeta.
  destruct (reconcile_parts rows events) as (Hn & _ & _).
  assert (ev ∈ new_events (reconcile rows events)) as Hev.
  { rewrite Hn. apply list_elem_of_In, filter_In.
    split; [by apply list_elem_of_In|]. by apply bool_decide_eq_true_2. }
  destruct (bulk_rows_has _
              (next_of (map asset_event_PK
                          (reconciled rows (reconcile rows events))))
              (next_of (map asset_event_ID
                          (reconciled rows (reconcile rows events))))
              ev Hev) as (r & Hr & Hk & Hnotes).
  exists r. split; [apply elem_of_app; by right|done].
Qed.

(** X22. An event that [process_events] builds from an element of
    ['quarterlyEarnings'] is an earnings result: of the earnings kind,
    announced on the fiscal date and starting on the report date, which is
    not before it, with the quarter and the year of the fiscal date as
    payload and no estimate; [batch_insert_events] takes it for an actual
    result, the sort gives it priority 2.1, and the row inserted for it is
    not a placeholder. *)
Theorem earnings_events_are_results e ev :
  earnings_event e = Some ev ->
  event_pk ev = 2 /\
  (exists fiscal reported,
     parse_date (get e "fiscalDateEnding") = Some fiscal /\
     parse_date (get e "reportedDate") = Some reported /\
     announcement_date ev = Some fiscal /\ start_date ev = Some reported /\
     date_compare fiscal reported <> Gt /\
     details ev
     = Some {[ "quarter" := JStr (quarter_of fiscal);
               "year" := JInt (year fiscal) ]}) /\
  is_new_actual ev = true /\
  type_priority ev = (21 # 10)%Q /\
  (forall rows events,
     ev ∈ events -> event_key ev ∉ map row_key rows ->
     exists r, r ∈ fst (batch_insert_events rows events) /\
               row_key r = event_key ev /\ is_expected r = false).
Proof.
  unfold earnings_event.
  destruct (parse_date (get e "fiscalDateEnding")) as [fiscal|] eqn:Ef;
    [|done].
  destruct (parse_date (get e "reportedDate")) as [reported|] eqn:Er; [|done].
  destruct (parse_date_facts _ _ Ef) as (_ & Hq & _).
  rewrite Hq. simpl str_or_none.
  intros Hev.
  assert (date_compare reported fiscal <> Lt /\
          ev = mkEvent 2 (Some fiscal) (Some reported)
                 (Some {[ "quarter" := JStr (quarter_of fiscal);
                          "year" := JInt (year fiscal) ]})) as [Hcmp ->].
  { destruct (date_compare reported fiscal); by inversion Hev. }
  clear Hev.
  assert (is_new_actual
            (mkEvent 2 (Some fiscal) (Some reported)
               (Some {[ "quarter" := JStr (quarter_of fiscal);
                        "year" := JInt (year fiscal) ]})) = true) as Hact.
  { unfold is_new_actual, get. simpl.
    rewrite lookup_insert_ne by done. by rewrite lookup_singleton_ne. }
  split; [done|]. split; [|split; [done|split]].
  - exists fiscal, reported. repeat split; try done.
    rewrite date_compare_antisym. by destruct (date_compare reported fiscal).
  - unfold type_priority. cbn [event_pk details]. unfold is_new_actual in Hact.
    cbn [event_pk details] in Hact. apply andb_true_iff in Hact as [_ ->].
    rewrite bool_decide_eq_false_2; [done|]. apply insert_non_empty.
  - intros rows events Hin Hnew.
    destruct (inserted_row rows events _ Hin Hnew) as (r & Hr & Hk & Hn).
    exists r. split; [done|]. split; [done|].
    assert (asset_event_event_pk r = 2) as Hpk
      by (unfold row_key, event_key in Hk; simpl in Hk; congruence).
    unfold is_expected. rewrite Hn, Hpk. simpl. unfold get.
    rewrite lookup_delete_eq. simpl. rewrite orb_false_r.
    apply bool_decide_eq_false_2. intros [v Hv].
    rewrite lookup_delete_ne, lookup_insert_ne, lookup_singleton_ne in Hv;
      done.
Qed.

(** X23. An entry of the earnings calendar whose estimate is missing or
    null gives an event whose payload holds the key ['estimate'] with
    [None]: [batch_insert_events] takes the event for an actual result and
    the sort gives it priority 2.1, yet the row inserted for it is a
    placeholder. *)
Theorem calendar_entry_without_estimate e ev :
  calendar_event e = Some ev -> get e "estimate" = JNull ->
  is_new_actual ev = true /\
  type_priority ev = (21 # 10)%Q /\
  (forall rows events,
     ev ∈ events -> event_key ev ∉ map row_key rows ->
     exists r, r ∈ fst (batch_insert_events rows events) /\
               row_key r = event_key ev /\ is_expected r = true).
Proof.
  unfold calendar_event.
  destruct (parse_date (py_or (get e "reportDate") (get e "date")))
    as [earnings_date|]; [|done].
  cbv zeta. intros [= <-] Hest. rewrite Hest.
  set (q := str_or_none _). set (y := JInt _).
  assert (is_new_actual
            (mkEvent 2 (parse_date (get e "fiscalDateEnding"))
               (Some earnings_date)
               (Some {[ "quarter" := q; "year" := y; "estimate" := JNull ]}))
          = true) as Hact.
  { unfold is_new_actual, get. simpl.
    rewrite !lookup_insert_ne by done. by rewrite lookup_singleton_eq. }
  split; [done|]. split.
  - unfold type_priority. cbn [event_pk details]. unfold is_new_actual in Hact.
    cbn [event_pk details] in Hact. apply andb_true_iff in Hact as [_ ->].
    rewrite bool_decide_eq_false_2; [done|]. apply insert_non_empty.
  - intros rows events Hin Hnew.
    destruct (inserted_row rows events _ Hin Hnew) as (r & Hr & Hk & Hn).
    exists r. split; [done|]. split; [done|].
    assert (asset_event_event_pk r = 2) as Hpk
      by (unfold row_key, event_key in Hk; simpl in Hk; congruence).
    unfold is_expected. rewrite Hn, Hpk. simpl.
    rewrite (bool_decide_eq_true_2 (is_Some _)); [done|].
    exists JNull. rewrite lookup_delete_ne by done.
    rewrite !lookup_insert_ne by done. by rewrite lookup_singleton_eq.
Qed.

End FeedFacts.

(** ** The further properties at concrete inputs *)

Section IndicatorRunCases.
Import Indicators.

Lemma ingestion_never_removes_rows_witness :
  let up : upstream := fun f i =>
    match f, i with
    | FEDERAL_FUNDS_RATE, Some monthly =>
        Return (DictWithData [mkEntry (Some 738917) "5.5" (Some (Fin 11 (-1)));
                              mkEntry (Some 738886) "5.25" (Some (Fin 21 (-2)))])
    | _, _ => Raise (RequestError "offline")
    end in
  let r := mkRow 1 1 237 738886 {[ "MEFFRP_value" := NFloat (Fin 21 (-2)) ]} in
  let store : gmap interval (list row) := {[ monthly := [r] ]} in
  r ∈ store !!! monthly /\
  exists r',
    r' ∈ table (fst (process_economic_indicators up store [monthly; annual]
                       interval_dict [] [])) monthly /\
    kept r r'.
Proof.
  intros up r store.
  assert (r ∈ store !!! monthly) as Hr.
  { assert (store !!! monthly = [r]) as -> by (by vm_compute).
    apply list_elem_of_here. }
  split; [exact Hr|].
  exact (ingestion_never_removes_rows up store [monthly; annual]
           interval_dict [] [] monthly r Hr).
Defined.

End IndicatorRunCases.

Section EventTableCases.
Import Events Parse.

Lemma distinct_keys_stay_distinct_witness :
  let quarter : gmap string jval :=
    {[ "quarter" := JStr "Q1"; "year" := JInt 2024 ]} in
  let P := mkRow 7 7 2 (Some (mkDate 2024 3 31)) (Some (mkDate 2024 4 25))
             (NotesObject (<[ "estimate" := JStr "1.50" ]> quarter)) in
  let A := mkEvent 2 (Some (mkDate 2024 3 30)) (Some (mkDate 2024 4 26))
             (Some quarter) in
  NoDup (map row_key [P]) /\ NoDup (map event_key [A]) /\
  NoDup (map row_key (fst (batch_insert_events [P] [A]))).
Proof.
  intros quarter P A.
  assert (NoDup (map row_key [P])) as Hk.
  { apply NoDup_ListNoDup. vm_compute. repeat constructor. simpl. tauto. }
  assert (NoDup (map event_key [A])) as He.
  { apply NoDup_ListNoDup. vm_compute. repeat constructor. simpl. tauto. }
  assert (forall e, e ∈ [A] -> dates_in_range e) as Hd.
  { intros e Hin. apply list_elem_of_singleton in Hin. subst e.
    unfold dates_in_range, dated_in_range, four_digit_year. simpl. lia. }
  split; [exact Hk|]. split; [exact He|].
  exact (distinct_keys_stay_distinct [P] [A] Hk He Hd).
Defined.

Lemma event_primary_keys_unique_witness :
  let quarter : gmap string jval :=
    {[ "quarter" := JStr "Q1"; "year" := JInt 2024 ]} in
  let P := mkRow 7 7 2 (Some (mkDate 2024 3 31)) (Some (mkDate 2024 4 25))
             (NotesObject (<[ "estimate" := JStr "1.50" ]> quarter)) in
  let A := mkEvent 2 (Some (mkDate 2024 3 30)) (Some (mkDate 2024 4 26))
             (Some quarter) in
  NoDup (map asset_event_PK [P]) /\
  map asset_event_PK (fst (batch_insert_events [P] [A])) = [1] /\
  NoDup (map asset_event_PK (fst (batch_insert_events [P] [A]))).
Proof.
  intros quarter P A.
  assert (NoDup (map asset_event_PK [P])) as Hk.
  { apply NoDup_ListNoDup. vm_compute. repeat constructor. simpl. tauto. }
  split; [exact Hk|]. split; [by vm_compute|].
  exact (event_primary_keys_unique [P] [A] Hk).
Defined.

Lemma stored_results_untouched_witness :
  let quarter : gmap string jval :=
    {[ "quarter" := JStr "Q1"; "year" := JInt 2024 ]} in
  let B := mkRow 8 8 2 (Some (mkDate 2024 3 29)) (Some (mkDate 2024 4 24))
             (NotesObject quarter) in
  let A := mkEvent 2 (Some (mkDate 2024 3 30)) (Some (mkDate 2024 4 26))
             (Some quarter) in
  NoDup (map asset_event_PK [B]) /\ is_expected B = false /\
  B ∈ fst (batch_insert_events [B] [A]).
Proof.
  intros quarter B A.
  assert (NoDup (map asset_event_PK [B])) as Hk.
  { apply NoDup_ListNoDup. vm_compute. repeat constructor. simpl. tauto. }
  assert (is_expected B = false) as Hb by (by vm_compute).
  split; [exact Hk|]. split; [exact Hb|].
  exact (stored_results_untouched [B] [A] B Hk (list_elem_of_here _ _) Hb).
Defined.

Lemma batch_without_results_settles_witness :
  let dividend :=
    mkEvent 1 (Some (mkDate 2024 5 10)) (Some (mkDate 2024 5 16))
      (Some {[ "dividend_amount" := JStr "0.25" ]}) in
  (forall e, e ∈ [dividend] -> is_new_actual e = false) /\
  batch_insert_events (fst (batch_insert_events [] [dividend])) [dividend]
  = (fst (batch_insert_events [] [dividend]), 0).
Proof.
  intros dividend.
  assert (forall e, e ∈ [dividend] -> is_new_actual e = false) as Hno.
  { intros e He. apply list_elem_of_singleton in He. by subst e. }
  assert (forall e, e ∈ [dividend] -> dates_in_range e) as Hd.
  { intros e He. apply list_elem_of_singleton in He. subst e.
    unfold dates_in_range, dated_in_range, four_digit_year. simpl. lia. }
  split; [exact Hno|].
  exact (proj2 (batch_without_results_settles [] [dividend] Hno Hd)).
Defined.

Lemma process_events_calls_witness :
  let dividend :=
    mkEvent 1 (Some (mkDate 2024 5 10)) (Some (mkDate 2024 5 16))
      (Some {[ "dividend_amount" := JStr "0.25" ]}) in
  let up :=
    mkUpstream
      (Return (Dict [mkRate (Some (mkDate 2024 1 1)) (JStr "5.33")]))
      (fun c => match c with DIVIDENDS _ => [dividend] | _ => [] end) in
  let store : gmap string (list row) :=
    {[ "IBM"%string := []; "MSFT"%string := [] ]} in
  let symbols := ["IBM"; "KO"; "MSFT"]%string in
  let r := process_events elements up symbols store in
  store !! "KO"%string = None /\
  calls r
  = [FEDERAL_FUNDS_RATE "monthly"; EARNINGS "IBM"; EARNINGS_CALENDAR "IBM";
     DIVIDENDS "IBM"; STOCK_SPLITS "IBM"]%string /\
  aborted r = true /\ commit store r = store.
Proof.
  intros dividend up store symbols r.
  assert (forall c e, e ∈ appended up c -> dates_in_range e) as Hdates.
  { intros c e He. destruct c; simpl in He;
      try (by apply elem_of_nil in He).
    apply list_elem_of_singleton in He. subst e.
    unfold dates_in_range, dated_in_range, four_digit_year. simpl. lia. }
  assert (forall x, x ∈ federal_funds_rates elements (rate_answer up) ->
                    four_digit_year (fst x)) as Hrates.
  { intros x Hx.
    assert (federal_funds_rates elements (rate_answer up)
            = [(mkDate 2024 1 1, "5.33"%string)]) as E by (by vm_compute).
    rewrite E in Hx. apply list_elem_of_singleton in Hx. subst x.
    unfold four_digit_year. simpl. lia. }
  assert (store !! "KO"%string = None) as Hko by (by vm_compute).
  assert ("KO"%string ∈ symbols) as Hin
    by (apply list_elem_of_further, list_elem_of_here).
  destruct (process_events_calls elements up symbols store Hdates Hrates)
    as (Hcalls & _ & Hab & _).
  split; [exact Hko|]. split; [|exact (Hab "KO"%string Hin Hko)].
  exact Hcalls.
Defined.

Lemma second_run_inserts_nothing_witness :
  let dividend :=
    mkEvent 1 (Some (mkDate 2024 5 10)) (Some (mkDate 2024 5 16))
      (Some {[ "dividend_amount" := JStr "0.25" ]}) in
  let up :=
    mkUpstream
      (Return (Dict [mkRate (Some (mkDate 2024 1 1)) (JStr "5.33")]))
      (fun c => match c with DIVIDENDS _ => [dividend] | _ => [] end) in
  let store : gmap string (list row) := {[ "IBM"%string := [] ]} in
  let first := process_events elements up ["IBM"%string] store in
  let second :=
    process_events elements up ["IBM"%string] (commit store first) in
  (forall c e, e ∈ appended up c -> is_new_actual e = false) /\
  total_events_inserted first = 2 /\
  aborted first = false /\ commit store first = tables first /\
  tables second = tables first /\ total_events_inserted second = 0 /\
  aborted second = false.
Proof.
  intros dividend up store first second.
  assert (forall symbol, symbol ∈ ["IBM"%string] -> is_Some (store !! symbol))
    as Hread.
  { intros symbol Hs. apply list_elem_of_singleton in Hs. subst symbol.
    by eexists. }
  assert (forall c e, e ∈ appended up c -> is_new_actual e = false) as Hno.
  { intros c e He. destruct c; simpl in He;
      try (by apply elem_of_nil in He).
    apply list_elem_of_singleton in He. by subst e. }
  assert (forall c e, e ∈ appended up c -> dates_in_range e) as Hdates.
  { intros c e He. destruct c; simpl in He;
      try (by apply elem_of_nil in He).
    apply list_elem_of_singleton in He. subst e.
    unfold dates_in_range, dated_in_range, four_digit_year. simpl. lia. }
  assert (forall x, x ∈ federal_funds_rates elements (rate_answer up) ->
                    four_digit_year (fst x)) as Hrates.
  { intros x Hx.
    assert (federal_funds_rates elements (rate_answer up)
            = [(mkDate 2024 1 1, "5.33"%string)]) as E by (by vm_compute).
    rewrite E in Hx. apply list_elem_of_singleton in Hx. subst x.
    unfold four_digit_year. simpl. lia. }
  split; [exact Hno|]. split; [by vm_compute|].
  exact (second_run_inserts_nothing elements elements up ["IBM"%string] store
           Hread Hno Hdates Hrates eq_refl).
Defined.

Lemma parse_date_round_trip_witness :
  let d := mkDate 2024 2 29 in
  four_digit_year d /\ day d <= days_in_month (year d) (month d) /\
  strftime d = "2024-02-29"%string /\
  parse_date (JStr (strftime d)) = Some d.
Proof.
  intros d.
  assert (four_digit_year d) as Hd by (unfold four_digit_year; simpl; lia).
  assert (day d <= days_in_month (year d) (month d)) as Hday
    by (by vm_compute).
  split; [exact Hd|]. split; [exact Hday|]. split; [by vm_compute|].
  exact (parse_date_round_trip d Hd Hday).
Defined.

Lemma parse_date_calendar_witness :
  let d := mkDate 2024 1 5 in
  parse_date (JStr "2024-1-5") = Some d /\
  calendar_date d /\
  get_quarter_from_date (JStr "2024-1-5") = Some (quarter_of d) /\
  quarter_of d ∈ ["Q1"; "Q2"; "Q3"; "Q4"]%string.
Proof.
  intros d.
  assert (parse_date (JStr "2024-1-5") = Some d) as H by (by vm_compute).
  split; [exact H|].
  exact (parse_date_calendar (JStr "2024-1-5") d H).
Defined.

End EventTableCases.

Section FeedCases.
Import Events Parse Feed.

Lemma earnings_events_are_results_witness :
  let e : gmap string jval :=
    {[ "fiscalDateEnding" := JStr "2024-03-31";
       "reportedDate" := JStr "2024-04-25" ]} in
  let ev :=
    mkEvent 2 (Some (mkDate 2024 3 31)) (Some (mkDate 2024 4 25))
      (Some {[ "quarter" := JStr "Q1"; "year" := JInt 2024 ]}) in
  earnings_event e = Some ev /\
  is_new_actual ev = true /\ type_priority ev = (21 # 10)%Q.
Proof.
  intros e ev.
  assert (earnings_event e = Some ev) as H by (by vm_compute).
  split; [exact H|].
  destruct (earnings_events_are_results e ev H) as (_ & _ & H1 & H2 & _).
  by split.
Defined.

Lemma calendar_entry_without_estimate_witness :
  let e : gmap string jval :=
    {[ "reportDate" := JStr "2024-04-25";
       "fiscalDateEnding" := JStr "2024-03-31" ]} in
  let ev :=
    mkEvent 2 (Some (mkDate 2024 3 31)) (Some (mkDate 2024 4 25))
      (Some {[ "quarter" := JStr "Q1"; "year" := JInt 2024;
               "estimate" := JNull ]}) in
  calendar_event e = Some ev /\ get e "estimate" = JNull /\
  is_new_actual ev = true /\
  exists r, r ∈ fst (batch_insert_events [] [ev]) /\
            row_key r = event_key ev /\ is_expected r = true.
Proof.
  intros e ev.
  assert (calendar_event e = Some ev) as H by (by vm_compute).
  assert (get e "estimate" = JNull) as Hest by (by vm_compute).
  split; [exact H|]. split; [exact Hest|].
  destruct (calendar_entry_without_estimate e ev H Hest) as (H1 & _ & H3).
  split; [exact H1|].
  apply (H3 [] [ev]); [apply list_elem_of_here|].
  intros Hin. by apply elem_of_nil in Hin.
Defined.

End FeedCases.
